(** * Nonlinear-dynamics feature engine of the ECG visualisation app

    Shallow embedding of the numeric kernels of
    [visualization-app/src/RQAVisualization.jsx] and
    [visualization-app/src/App.jsx]: delay embedding and recurrence matrix,
    line-structure extraction, RQA measures, sample entropy, the box-counting
    slope and the divergence demonstration curve.

    JavaScript numbers are modelled over the reals, extended with the two
    infinities and NaN, so that a division by zero, a logarithm of zero or a
    read past the end of an array is visible in the result.  Where the
    program compares a difference of two samples with a tolerance (the
    sample entropy, the template matches, the step-by-step matrix) the
    difference is rounded to a double as the subtraction rounds it, because
    the rounding decides the comparison.  Elsewhere the operations are the
    exact ones on the reals and a result is read up to rounding: the squares
    of [Math.pow] and the exponential neither underflow nor overflow, and
    the sums of the regression leave no rounding residual.  The sign of zero
    is outside the model.  Loop indices,
    counters and run lengths are natural numbers; parameters that a caller
    may pass negative (embedding dimension, delay, minimum length) are
    integers. *)

From Stdlib Require Import Reals Lra Lia ZArith Bool String Arith List.
Import ListNotations.

Local Open Scope R_scope.

(* ================================================================== *)
(** * Part I: definitions *)
(* ================================================================== *)

(** ** JavaScript numbers over the reals *)

Inductive num : Type :=
| Num (r : R)
| PInf
| NInf
| NaN.

Definition Rltb (x y : R) : bool := if Rlt_dec x y then true else false.
Definition Rleb (x y : R) : bool := if Rle_dec x y then true else false.
Definition Reqb (x y : R) : bool := if Req_dec_T x y then true else false.

Definition ofNat (n : nat) : num := Num (INR n).
Definition ofZ (z : Z) : num := Num (IZR z).

(** Infinity of the sign of [x] times [s]; NaN when [x] is zero. *)
Definition signedInf (x : R) (positive : bool) : num :=
  if Reqb x 0 then NaN
  else if Bool.eqb (Rltb 0 x) positive then PInf else NInf.

Definition nneg (a : num) : num :=
  match a with
  | Num x => Num (- x)
  | PInf => NInf
  | NInf => PInf
  | NaN => NaN
  end.

Definition nadd (a b : num) : num :=
  match a, b with
  | NaN, _ | _, NaN => NaN
  | Num x, Num y => Num (x + y)
  | PInf, NInf | NInf, PInf => NaN
  | PInf, _ | _, PInf => PInf
  | NInf, _ | _, NInf => NInf
  end.

Definition nsub (a b : num) : num := nadd a (nneg b).

Definition nmul (a b : num) : num :=
  match a, b with
  | NaN, _ | _, NaN => NaN
  | Num x, Num y => Num (x * y)
  | Num x, PInf | PInf, Num x => signedInf x true
  | Num x, NInf | NInf, Num x => signedInf x false
  | PInf, PInf | NInf, NInf => PInf
  | PInf, NInf | NInf, PInf => NInf
  end.

Definition ndiv (a b : num) : num :=
  match a, b with
  | NaN, _ | _, NaN => NaN
  | Num x, Num y => if Reqb y 0 then signedInf x true else Num (x / y)
  | Num _, PInf | Num _, NInf => Num 0
  | PInf, Num y => if Reqb y 0 then PInf else signedInf y true
  | NInf, Num y => if Reqb y 0 then NInf else signedInf y false
  | PInf, _ | NInf, _ => NaN
  end.

Definition nabs (a : num) : num :=
  match a with
  | Num x => Num (Rabs x)
  | PInf | NInf => PInf
  | NaN => NaN
  end.

(** [Math.pow(x, 2)], the exact square *)
Definition npow2 (a : num) : num := nmul a a.

(** [Math.sqrt] *)
Definition nsqrt (a : num) : num :=
  match a with
  | Num x => if Rltb x 0 then NaN else Num (sqrt x)
  | PInf => PInf
  | NInf | NaN => NaN
  end.

(** [Math.log] *)
Definition nlog (a : num) : num :=
  match a with
  | Num x => if Rltb x 0 then NaN else if Reqb x 0 then NInf else Num (ln x)
  | PInf => PInf
  | NInf | NaN => NaN
  end.

(** [Math.exp], the exact exponential *)
Definition nexp (a : num) : num :=
  match a with
  | Num x => Num (exp x)
  | PInf => PInf
  | NInf => Num 0
  | NaN => NaN
  end.

(** [Math.sin] *)
Definition nsin (a : num) : num :=
  match a with
  | Num x => Num (sin x)
  | _ => NaN
  end.

(** [a < b]; every comparison with NaN is false. *)
Definition nlt (a b : num) : bool :=
  match a, b with
  | NaN, _ | _, NaN => false
  | Num x, Num y => Rltb x y
  | NInf, NInf | PInf, _ => false
  | NInf, _ | Num _, PInf => true
  | Num _, NInf => false
  end.

(** [a <= b] *)
Definition nle (a b : num) : bool :=
  match a, b with
  | NaN, _ | _, NaN => false
  | Num x, Num y => Rleb x y
  | NInf, _ | _, PInf => true
  | PInf, _ | Num _, NInf => false
  end.

Definition ngt (a b : num) : bool := nlt b a.

(** [Math.max(a, b)] and [Math.min(a, b)]: NaN if either argument is. *)
Definition nmax (a b : num) : num :=
  match a, b with
  | NaN, _ | _, NaN => NaN
  | _, _ => if nlt a b then b else a
  end.

Definition nmin (a b : num) : num :=
  match a, b with
  | NaN, _ | _, NaN => NaN
  | _, _ => if nlt b a then b else a
  end.

(** *** Rounding to a double

    A double has 53 significant bits and a binary exponent from -1022 to
    1023.  The result of an arithmetic operation is the double nearest to
    the exact result, the one with an even last bit when two are equally
    near; a result that would need an exponent above 1023 is an infinity,
    and below exponent -1022 the spacing of the doubles stays [2^-1074]. *)

(** [floor(log2 |x|)], the binary exponent of [x]. *)
Definition exponentOf (x : R) : Z := Int_part (ln (Rabs x) / ln 2).

(** The spacing of the doubles around [x]. *)
Definition quantumOf (x : R) : R :=
  powerRZ 2 (Z.max (exponentOf x) (-1022) - 52).

(** The integer nearest to [t], the even one at a tie. *)
Definition nearestEven (t : R) : Z :=
  let f := Int_part t in
  let d := t - IZR f in
  if Rltb d (1 / 2) then f
  else if Rltb (1 / 2) d then (f + 1)%Z
  else if Z.even f then f else (f + 1)%Z.

Definition roundToBinary64 (x : R) : num :=
  if Reqb x 0 then Num 0
  else
    let q := quantumOf x in
    let v := IZR (nearestEven (x / q)) * q in
    if Rleb (powerRZ 2 1024) (Rabs v)
    then (if Rltb 0 x then PInf else NInf)
    else Num v.

Definition fl (a : num) : num :=
  match a with
  | Num x => roundToBinary64 x
  | _ => a
  end.

(** [a - b] as the program computes it. *)
Definition fsub (a b : num) : num := fl (nsub a b).

(** A number that is not negative: a real [>= 0] or [+Infinity]. *)
Definition nonnegNum (a : num) : Prop :=
  match a with
  | Num x => 0 <= x
  | PInf => True
  | _ => False
  end.

(** A result the caller can use as a number: finite and not NaN. *)
Definition isFinite (a : num) : Prop := exists r, a = Num r.

(** [arr[k]] on an array of reals, coerced to a number: [undefined] (an index
    that is negative or past the end) becomes NaN in arithmetic. *)
Definition readNat (arr : list R) (k : nat) : num :=
  match nth_error arr k with
  | Some x => Num x
  | None => NaN
  end.

Definition readZ (arr : list R) (k : Z) : num :=
  if (k <? 0)%Z then NaN else readNat arr (Z.to_nat k).

(** [for (let i = 0; i < n; i++)] visits these indices. *)
Definition upto (n : Z) : list nat := seq 0 (Z.to_nat n).

(** ** Delay embedding and recurrence matrix
    ([computeRecurrenceMatrix], RQAVisualization.jsx) *)

(** [n = signal.length - (embeddingDim - 1) * delay] *)
Definition embedCount (signal : list R) (embeddingDim delay : Z) : Z :=
  Z.of_nat (length signal) - (embeddingDim - 1) * delay.

(** The first loop nest: [vec.push(signal[i + d * delay])] for [d] below
    [embeddingDim], one vector per [i] below [n]. *)
Definition embed (signal : list R) (embeddingDim delay : Z) : list (list num) :=
  map (fun i =>
         map (fun d => readZ signal (Z.of_nat i + Z.of_nat d * delay))
             (upto embeddingDim))
      (upto (embedCount signal embeddingDim delay)).

(** [vectors[i][d]]; the outer index is always below [vectors.length] where
    the code reads it. *)
Definition coord (vectors : list (list num)) (i d : nat) : num :=
  nth d (nth i vectors []) NaN.

(** The innermost loop and [Math.sqrt]: Euclidean distance of two vectors. *)
Definition distance (vectors : list (list num)) (embeddingDim : Z)
           (i j : nat) : num :=
  nsqrt (fold_left
           (fun dist d =>
              nadd dist (npow2 (nsub (coord vectors i d) (coord vectors j d))))
           (upto embeddingDim) (Num 0)).

Definition computeRecurrenceMatrix (signal : list R) (threshold : R)
           (embeddingDim delay : Z) : list (list nat) :=
  let n := embedCount signal embeddingDim delay in
  let vectors := embed signal embeddingDim delay in
  map (fun i =>
         map (fun j =>
                if nle (distance vectors embeddingDim i j) (Num threshold)
                then 1%nat else 0%nat)
             (upto n))
      (upto n).

(** ** Line segments ([findDiagonalLines], [findVerticalLines],
    [findHorizontalLines]) *)

Inductive LineType : Type := diagonal | vertical | horizontal.

(** [{ start, length, type, k }]; [start] is [null] until a run has begun,
    [k] is present on diagonal lines only. *)
Module Line.
Record t : Type := mk
  { start : option (nat * nat);
    length : nat;
    type : LineType;
    k : option Z }.
End Line.

(** [matrix[i][j] === 1]; a missing column entry is [undefined], not 1. *)
Definition isOne (matrix : list (list nat)) (ij : nat * nat) : bool :=
  match nth_error matrix (fst ij) with
  | Some row =>
      match nth_error row (snd ij) with
      | Some v => Nat.eqb v 1
      | None => false
      end
  | None => false
  end.

(** The variables one scan carries: [lineLength], [lineStart] and the
    [lines] array shared by all scans of one extractor. *)
Record ScanState : Type := mkScan
  { lineLength : nat;
    lineStart : option (nat * nat);
    lines : list Line.t }.

(** [lineLength >= minLength] followed by the push. *)
Definition pushIfLong (minLength : Z) (mkLine : option (nat * nat) -> nat -> Line.t)
           (st : ScanState) : list Line.t :=
  if (minLength <=? Z.of_nat (lineLength st))%Z
  then lines st ++ [mkLine (lineStart st) (lineLength st)]
  else lines st.

(** The body shared by the four inner loops, at cell [ij]. *)
Definition scanCell (matrix : list (list nat)) (minLength : Z)
           (mkLine : option (nat * nat) -> nat -> Line.t)
           (st : ScanState) (ij : nat * nat) : ScanState :=
  if isOne matrix ij
  then mkScan (S (lineLength st))
              (if Nat.eqb (lineLength st) 0 then Some ij else lineStart st)
              (lines st)
  else mkScan 0 (lineStart st) (pushIfLong minLength mkLine st).

(** One inner loop over the cells [cells], with the test after the loop. *)
Definition scanLine (matrix : list (list nat)) (minLength : Z)
           (mkLine : option (nat * nat) -> nat -> Line.t)
           (cells : list (nat * nat)) (acc : list Line.t) : list Line.t :=
  pushIfLong minLength mkLine
    (fold_left (scanCell matrix minLength mkLine) cells (mkScan 0 None acc)).

Definition diagLine (k : Z) (s : option (nat * nat)) (l : nat) : Line.t :=
  Line.mk s l diagonal (Some k).
Definition vertLine (s : option (nat * nat)) (l : nat) : Line.t :=
  Line.mk s l vertical None.
Definition horizLine (s : option (nat * nat)) (l : nat) : Line.t :=
  Line.mk s l horizontal None.

(** Cells of the diagonal [j - i = k] and of its mirror [i - j = k]. *)
Definition upperDiag (n k : nat) : list (nat * nat) :=
  map (fun i => (i, i + k)%nat) (seq 0 (n - k)).
Definition lowerDiag (n k : nat) : list (nat * nat) :=
  map (fun j => (j + k, j)%nat) (seq 0 (n - k)).
Definition column (n j : nat) : list (nat * nat) :=
  map (fun i => (i, j)) (seq 0 n).
Definition row (n i : nat) : list (nat * nat) :=
  map (fun j => (i, j)) (seq 0 n).

Definition findDiagonalLines (matrix : list (list nat)) (minLength : Z)
  : list Line.t :=
  let n := length matrix in
  let above :=
    fold_left (fun acc k =>
                 scanLine matrix minLength (diagLine (Z.of_nat k))
                          (upperDiag n k) acc)
              (seq 1 (n - 1)) [] in
  fold_left (fun acc k =>
               scanLine matrix minLength (diagLine (- Z.of_nat k))
                        (lowerDiag n k) acc)
            (seq 1 (n - 1)) above.

Definition findVerticalLines (matrix : list (list nat)) (minLength : Z)
  : list Line.t :=
  let n := length matrix in
  fold_left (fun acc j => scanLine matrix minLength vertLine (column n j) acc)
            (seq 0 n) [].

Definition findHorizontalLines (matrix : list (list nat)) (minLength : Z)
  : list Line.t :=
  let n := length matrix in
  fold_left (fun acc i => scanLine matrix minLength horizLine (row n i) acc)
            (seq 0 n) [].

(** ** RQA measures (the [rqaMeasures] memo of the recurrence-plot
    component) *)

Record Measures : Type := mkMeasures
  { RR : num;
    DET : num;
    LAM : num;
    avgDiagLength : num;
    avgVertLength : num;
    maxDiagLength : num;
    entropy : num;
    recurrentPoints : nat;
    recurrentPointsExcludingLOI : nat;
    upperTriangleRecurrentPoints : nat;
    diagPointsInLines : nat;
    vertPointsInLines : nat;
    totalPoints : nat;
    numDiagLines : nat;
    numVertLines : nat }.

(** A counting loop nest: [for i < n] over the columns [cols i], bumping the
    counter where [test] holds. *)
Definition countCells (test : nat * nat -> bool) (n : nat)
           (cols : nat -> list nat) : nat :=
  fold_left (fun acc i =>
               fold_left (fun acc j => if test (i, j) then S acc else acc)
                         (cols i) acc)
            (seq 0 n) 0%nat.

(** [lines.reduce((sum, line) => sum + line.length, 0)] *)
Definition sumLengths (ls : list Line.t) : nat :=
  fold_left (fun sum line => (sum + Line.length line)%nat) ls 0%nat.

(** [line.k > 0]; a missing [k] compares false. *)
Definition kPositive (line : Line.t) : bool :=
  match Line.k line with
  | Some k => (0 <? k)%Z
  | None => false
  end.

(** [Math.max(...xs)], which is [-Infinity] on no arguments. *)
Definition maxOf (xs : list num) : num := fold_left nmax xs NInf.

(** [h[key] = (h[key] || 0) + 1] on an object with integer keys; the entries
    are kept in ascending key order, the order [Object.values] uses. *)
Fixpoint histBump (key : nat) (h : list (nat * nat)) : list (nat * nat) :=
  match h with
  | [] => [(key, 1%nat)]
  | (k0, c) :: rest =>
      if Nat.eqb key k0 then (k0, S c) :: rest
      else if Nat.ltb key k0 then (key, 1%nat) :: h
      else (k0, c) :: histBump key rest
  end.

Definition lengthHistogram (ls : list Line.t) : list (nat * nat) :=
  fold_left (fun h line => histBump (Line.length line) h) ls [].

(** The [forEach] over the histogram counts. *)
Definition entropyOf (counts : list nat) (total : nat) : num :=
  fold_left (fun e count =>
               let p := ndiv (ofNat count) (ofNat total) in
               if ngt p (Num 0) then nsub e (nmul p (nlog p)) else e)
            counts (Num 0).

Definition rqaMeasures (matrix : list (list nat))
           (diagonalLines verticalLines : list Line.t) : Measures :=
  let n := length matrix in
  let totalPoints := (n * n)%nat in
  let allRecurrentPoints := countCells (isOne matrix) n (fun _ => seq 0 n) in
  let RR := ndiv (ofNat allRecurrentPoints) (ofNat totalPoints) in
  let recurrentPointsExcludingLOI :=
    countCells (fun ij => negb (Nat.eqb (fst ij) (snd ij)) && isOne matrix ij)
               n (fun _ => seq 0 n) in
  let upperDiagLines := filter kPositive diagonalLines in
  let upperDiagPointsInLines := sumLengths upperDiagLines in
  let upperTriangleRecurrentPoints :=
    countCells (isOne matrix) n (fun i => seq (S i) (n - S i)) in
  let DET :=
    if (0 <? upperTriangleRecurrentPoints)%nat
    then ndiv (ofNat upperDiagPointsInLines) (ofNat upperTriangleRecurrentPoints)
    else Num 0 in
  let vertPointsInLines := sumLengths verticalLines in
  let LAM :=
    if (0 <? allRecurrentPoints)%nat
    then ndiv (ofNat vertPointsInLines) (ofNat allRecurrentPoints)
    else Num 0 in
  let avgDiagLength :=
    if (0 <? length upperDiagLines)%nat
    then ndiv (ofNat (sumLengths upperDiagLines)) (ofNat (length upperDiagLines))
    else Num 0 in
  let avgVertLength :=
    if (0 <? length verticalLines)%nat
    then ndiv (ofNat (sumLengths verticalLines)) (ofNat (length verticalLines))
    else Num 0 in
  let maxDiagLength :=
    if (0 <? length upperDiagLines)%nat
    then maxOf (map (fun line => ofNat (Line.length line)) upperDiagLines)
    else Num 0 in
  let diagLengthHistogram := lengthHistogram upperDiagLines in
  let totalDiagLines := length upperDiagLines in
  let entropy :=
    if (0 <? totalDiagLines)%nat
    then entropyOf (map snd diagLengthHistogram) totalDiagLines
    else Num 0 in
  mkMeasures RR DET LAM avgDiagLength avgVertLength maxDiagLength entropy
             allRecurrentPoints recurrentPointsExcludingLOI
             upperTriangleRecurrentPoints upperDiagPointsInLines
             vertPointsInLines totalPoints
             (length upperDiagLines) (length verticalLines).

(** The component's pipeline: matrix, then lines, then measures. *)
Definition measuresOfMatrix (matrix : list (list nat)) (minLineLength : Z)
  : Measures :=
  rqaMeasures matrix (findDiagonalLines matrix minLineLength)
              (findVerticalLines matrix minLineLength).

Definition measuresOfSignal (signal : list R) (threshold : R)
           (embeddingDim delay minLineLength : Z) : Measures :=
  measuresOfMatrix (computeRecurrenceMatrix signal threshold embeddingDim delay)
                   minLineLength.

(** ** Sample entropy ([calculateSampEn], App.jsx) *)

(** The sentinel returned when no template matches. *)
Definition sampEnSentinel : R := 5 / 2.

(** The [k] loop: running maximum of the coordinate differences. *)
Definition windowMaxDiff (signal : list R) (m : Z) (i j : nat) : num :=
  fold_left (fun maxDiff k =>
               let diff := nabs (fsub (readNat signal (i + k))
                                      (readNat signal (j + k))) in
               if ngt diff maxDiff then diff else maxDiff)
            (upto m) (Num 0).

(** The body of the [j] loop on the counters [(Bm, Am)]. *)
Definition sampEnPair (signal : list R) (m : Z) (r : R)
           (i : nat) (acc : nat * nat) (j : nat) : nat * nat :=
  let n := Z.of_nat (length signal) in
  let maxDiff := windowMaxDiff signal m i j in
  if nlt maxDiff (Num r) then
    let Bm := S (fst acc) in
    if ((Z.of_nat i + m <? n) && (Z.of_nat j + m <? n))%Z then
      let extDiff := nabs (fsub (readZ signal (Z.of_nat i + m))
                                (readZ signal (Z.of_nat j + m))) in
      if nlt (nmax maxDiff extDiff) (Num r) then (Bm, S (snd acc))
      else (Bm, snd acc)
    else (Bm, snd acc)
  else acc.

(** Both loops: the final [(Bm, Am)]. *)
Definition sampEnCounts (signal : list R) (m : Z) (r : R) : nat * nat :=
  let bound := Z.to_nat (Z.of_nat (length signal) - m) in
  fold_left (fun acc i =>
               fold_left (sampEnPair signal m r i)
                         (seq (S i) (bound - S i)) acc)
            (seq 0 bound) (0%nat, 0%nat).

Definition calculateSampEn (signal : list R) (m : Z) (r : R) : num :=
  let (Bm, Am) := sampEnCounts signal m r in
  if Nat.eqb Bm 0 || Nat.eqb Am 0 then Num sampEnSentinel
  else nneg (nlog (ndiv (ofNat Am) (ofNat Bm))).

(** ** Box-counting slope ([calculateFD], App.jsx) *)

(** [const sizes = [128, 64, 32, 16, 8, 4]] *)
Definition sizes : list nat := [128; 64; 32; 16; 8; 4]%nat.

(** The body of [calculateFD] over a list of box sizes; [counts] is the
    object built by [boxCounts], read as [counts[s]]. *)
Definition slopeOver (boxSizes : list nat) (counts : nat -> nat) : num :=
  let countsArray := map counts boxSizes in
  let logSizes := map (fun s => nlog (ndiv (Num 1) (ofNat s))) boxSizes in
  let logCounts := map (fun c => nlog (nmax (ofNat c) (Num 1))) countsArray in
  let n := ofNat (length logSizes) in
  let sumX := fold_left nadd logSizes (Num 0) in
  let sumY := fold_left nadd logCounts (Num 0) in
  let sumXY :=
    fold_left (fun sum xi => nadd sum (nmul (fst xi) (nth (snd xi) logCounts NaN)))
              (combine logSizes (seq 0 (length logSizes))) (Num 0) in
  let sumX2 := fold_left (fun sum x => nadd sum (nmul x x)) logSizes (Num 0) in
  ndiv (nsub (nmul n sumXY) (nmul sumX sumY))
       (nsub (nmul n sumX2) (nmul sumX sumX)).

Definition calculateFD (counts : nat -> nat) : num := slopeOver sizes counts.

(** ** Divergence demonstration ([getTrajectories] and the path loop of
    [LLEVisualization], App.jsx) *)

Definition initialSeparation : R := 1 / 100.
Definition maxTime : R := 100.

Record Trajectories : Type := mkTrajectories
  { separation : num;
    lle : num;
    t : num }.

(** The three-way branch on [trajectoryType], before the clamp. *)
Definition rawSeparation (trajectoryType : string) (t : num) : num * num :=
  if String.eqb trajectoryType "chaotic" then
    let lle := Num (9 / 10) in
    (nmul (Num initialSeparation) (nexp (nmul lle t)), lle)
  else if String.eqb trajectoryType "periodic" then
    let lle := Num 0 in
    (nmul (Num initialSeparation) (nadd (Num 1) (nmul (Num (1 / 2)) (nsin t))), lle)
  else
    let lle := Num (- (1 / 2)) in
    (nmul (Num initialSeparation) (nexp (nmul lle t)), lle).

Definition getTrajectories (trajectoryType : string) (time : R) : Trajectories :=
  let t := ndiv (Num time) (Num 10) in
  let (separation, lle) := rawSeparation trajectoryType t in
  mkTrajectories (nmin separation (Num 2)) lle t.

(** [sep] at step [i] of the path loop, which repeats the branch with the
    exponents written as literals. *)
Definition pathSeparation (trajectoryType : string) (i : nat) : num :=
  let ti := ndiv (ofNat i) (Num 10) in
  let sep :=
    if String.eqb trajectoryType "chaotic" then
      nmul (Num initialSeparation) (nexp (nmul (Num (9 / 10)) ti))
    else if String.eqb trajectoryType "periodic" then
      nmul (Num initialSeparation) (nadd (Num 1) (nmul (Num (1 / 2)) (nsin ti)))
    else
      nmul (Num initialSeparation) (nexp (nmul (Num (- (1 / 2))) ti)) in
  nmin sep (Num 2).

(** ** How a call ends

    None of the functions above contains a [throw], and none performs an
    operation that raises: every property access is on an array the function
    has just built or on an argument of array type.  A call therefore always
    completes by returning. *)

Inductive Completion (A : Type) : Type :=
| Returned (v : A)
| Thrown.
Arguments Returned {A} v.
Arguments Thrown {A}.

Definition callComputeRecurrenceMatrix (signal : list R) (threshold : R)
           (embeddingDim delay : Z) : Completion (list (list nat)) :=
  Returned (computeRecurrenceMatrix signal threshold embeddingDim delay).

Definition callCalculateSampEn (signal : list R) (m : Z) (r : R)
  : Completion num :=
  Returned (calculateSampEn signal m r).

Definition callCalculateFD (counts : nat -> nat) : Completion num :=
  Returned (calculateFD counts).

(** ** Reading a matrix *)

(** [R[i][j]], with 0 standing for an absent entry. *)
Definition entry (matrix : list (list nat)) (i j : nat) : nat :=
  nth j (nth i matrix []) 0%nat.

(** An [n] by [n] array of arrays. *)
Definition isSquare (matrix : list (list nat)) (n : nat) : Prop :=
  length matrix = n /\ forall row, In row matrix -> length row = n.

(** ** Maximal runs, stated independently of the scanning loops *)

(** In a sequence of bits, positions [s .. s+len-1] form a maximal run of
    1s: they are all 1, the run is not empty, and on each side it is ended
    by a 0 or by the end of the sequence. *)
Definition isMaximalRun (bits : list bool) (s len : nat) : Prop :=
  (1 <= len)%nat
  /\ (forall p, (s <= p < s + len)%nat -> nth p bits false = true)
  /\ (forall p, S p = s -> nth p bits false = false)
  /\ nth (s + len) bits false = false.

(** [line] is the segment of a maximal run of at least [minLength] cells
    along [cells], recorded with the run's first cell and length. *)
Definition isSegment (matrix : list (list nat)) (minLength : Z)
           (mkLine : option (nat * nat) -> nat -> Line.t)
           (cells : list (nat * nat)) (line : Line.t) : Prop :=
  exists s len ij,
    isMaximalRun (map (isOne matrix) cells) s len
    /\ (minLength <= Z.of_nat len)%Z
    /\ nth_error cells s = Some ij
    /\ line = mkLine (Some ij) len.

(** The runs of a cell sequence computed from its right end: the run that
    touches the left end, if there is one, and the runs after it.  A run is
    its first cell and its length. *)
Fixpoint splitRuns (matrix : list (list nat)) (cells : list (nat * nat))
  : option (nat * nat * nat) * list (nat * nat * nat) :=
  match cells with
  | [] => (None, [])
  | ij :: rest =>
      let (h, rs) := splitRuns matrix rest in
      if isOne matrix ij
      then (Some (ij, S (match h with Some (_, l) => l | None => 0%nat end)), rs)
      else (None, match h with Some r => r :: rs | None => rs end)
  end.

Definition optCons {A : Type} (h : option A) (l : list A) : list A :=
  match h with Some r => r :: l | None => l end.

Definition maximalRuns (matrix : list (list nat)) (cells : list (nat * nat))
  : list (nat * nat * nat) :=
  optCons (fst (splitRuns matrix cells)) (snd (splitRuns matrix cells)).

(** The runs long enough, as line records. *)
Definition segments (minLength : Z)
           (mkLine : option (nat * nat) -> nat -> Line.t)
           (runs : list (nat * nat * nat)) : list Line.t :=
  map (fun r => mkLine (Some (fst r)) (snd r))
      (filter (fun r => (minLength <=? Z.of_nat (snd r))%Z) runs).

(** What a run of [c] cells started at [s] contributes once it is closed. *)
Definition emitLine (minLength : Z)
           (mkLine : option (nat * nat) -> nat -> Line.t)
           (s : option (nat * nat)) (c : nat) : list Line.t :=
  if (minLength <=? Z.of_nat c)%Z then [mkLine s c] else [].

Definition headLength (h : option (nat * nat * nat)) : nat :=
  match h with Some (_, l) => l | None => 0%nat end.

(** What the three extractors are to return on [matrix]: each list holds
    exactly the segments of the maximal runs along its orientation, each
    once. *)
Definition extractsMaximalRuns (matrix : list (list nat)) (minLength : Z)
  : Prop :=
  let n := length matrix in
  (forall line,
      In line (findDiagonalLines matrix minLength) <->
      exists k, (1 <= k < n)%nat
                /\ (isSegment matrix minLength (diagLine (Z.of_nat k))
                              (upperDiag n k) line
                    \/ isSegment matrix minLength (diagLine (- Z.of_nat k))
                                 (lowerDiag n k) line))
  /\ (forall line,
         In line (findVerticalLines matrix minLength) <->
         exists j, (j < n)%nat
                   /\ isSegment matrix minLength vertLine (column n j) line)
  /\ (forall line,
         In line (findHorizontalLines matrix minLength) <->
         exists i, (i < n)%nat
                   /\ isSegment matrix minLength horizLine (row n i) line)
  /\ NoDup (findDiagonalLines matrix minLength)
  /\ NoDup (findVerticalLines matrix minLength)
  /\ NoDup (findHorizontalLines matrix minLength).

(** ** Ranges of results *)

(** A number in the closed interval from 0 to 1. *)
Definition inUnit (x : num) : Prop := exists r, x = Num r /\ 0 <= r <= 1.

(** The cells a counting loop nest visits, in order. *)
Definition cellList (n : nat) (cols : nat -> list nat) : list (nat * nat) :=
  flat_map (fun i => map (pair i) (cols i)) (seq 0 n).

(** ** Sample entropy, stated by counting template pairs *)

(** [x_k], the [k]-th sample. *)
Definition sample (signal : list R) (k : nat) : R := nth k signal 0.

(** [|x_p - x_q|] as the program computes it: the difference of the two
    samples rounded to a double. *)
Definition sampleDiff (signal : list R) (p q : nat) : num :=
  nabs (fl (Num (sample signal p - sample signal q))).

(** Chebyshev distance of the length-[m] windows starting at [i] and [j]:
    the largest coordinate difference. *)
Definition chebyshev (signal : list R) (m i j : nat) : num :=
  fold_right nmax (Num 0)
             (map (fun k => sampleDiff signal (i + k) (j + k)) (seq 0 m)).

(** The pairs [(i, j)] with [i < j < n]. *)
Definition orderedPairs (n : nat) : list (nat * nat) :=
  cellList n (fun i => seq (S i) (n - S i)).

(** [(i, j)] is an [m]-match: the windows are closer than [r]. *)
Definition isMatch (signal : list R) (m : nat) (r : R) (ij : nat * nat) : bool :=
  nlt (chebyshev signal m (fst ij) (snd ij)) (Num r).

(** [(i, j)] is an [m+1]-match: an [m]-match for which the maximum of the
    window distance and the difference of the next points is below [r]. *)
Definition isExtendedMatch (signal : list R) (m : nat) (r : R)
           (ij : nat * nat) : bool :=
  isMatch signal m r ij
  && nlt (nmax (chebyshev signal m (fst ij) (snd ij))
               (sampleDiff signal (fst ij + m) (snd ij + m)))
         (Num r).

Definition countB (signal : list R) (m : nat) (r : R) : nat :=
  length (filter (isMatch signal m r) (orderedPairs (length signal - m))).

Definition countA (signal : list R) (m : nat) (r : R) : nat :=
  length (filter (isExtendedMatch signal m r)
                 (orderedPairs (length signal - m))).

(** [-ln(A/B)], or the sentinel when [A] or [B] is 0. *)
Definition sampEnSpec (signal : list R) (m : nat) (r : R) : num :=
  let A := countA signal m r in
  let B := countB signal m r in
  if Nat.eqb B 0 || Nat.eqb A 0 then Num sampEnSentinel
  else Num (- ln (INR A / INR B)).

(** ** The abscissas of the regression *)

(** [ln(1/s)], the abscissa of box size [s]. *)
Definition logInvSize (s : nat) : R := ln (1 / INR s).

(** ** The divergence curve, stated analytically *)

(** [d0 * exp(lambda * t)] with [lambda = 0.9] for the expanding regime and
    [lambda = -0.5] for the contracting one; [d0 * (1 + 0.5 sin t)] for the
    regime of exponent 0. *)
Definition analyticSeparation (trajectoryType : string) (t : R) : R :=
  if String.eqb trajectoryType "chaotic" then
    initialSeparation * exp (9 / 10 * t)
  else if String.eqb trajectoryType "periodic" then
    initialSeparation * (1 + 1 / 2 * sin t)
  else
    initialSeparation * exp (- (1 / 2) * t).

(** The separation shown follows the analytic curve over the whole time
    range. *)
Definition followsAnalyticCurve (trajectoryType : string) : Prop :=
  forall time, 0 <= time <= maxTime ->
    separation (getTrajectories trajectoryType time)
    = Num (analyticSeparation trajectoryType (time / 10)).

(** ** Malformed parameters *)

Definition malformedRecurrenceArgs (signal : list R) (threshold : R)
           (embeddingDim delay : Z) : Prop :=
  (embeddingDim <= 0)%Z \/ (delay <= 0)%Z \/ threshold < 0 \/ signal = [].

Definition malformedSampEnArgs (signal : list R) (m : Z) (r : R) : Prop :=
  (m <= 0)%Z \/ r < 0 \/ signal = [].

(** Every malformed call is rejected with an exception. *)
Definition rejectsMalformed : Prop :=
  (forall signal threshold embeddingDim delay,
      malformedRecurrenceArgs signal threshold embeddingDim delay ->
      callComputeRecurrenceMatrix signal threshold embeddingDim delay = Thrown)
  /\ (forall signal m r,
         malformedSampEnArgs signal m r ->
         callCalculateSampEn signal m r = Thrown).

(* ================================================================== *)
(** * Part I, continued: the remaining functions of the two components *)
(* ================================================================== *)

(** ** The step-by-step builder's matrix ([StepByStepBuilder],
    RQAVisualization.jsx) *)

(** [signal.map((vi, i) => signal.map((vj, j) =>
       Math.abs(vi - vj) <= threshold ? 1 : 0))] *)
Definition stepMatrix (signal : list R) (threshold : R) : list (list nat) :=
  map (fun vi =>
         map (fun vj =>
                if nle (nabs (fsub (Num vi) (Num vj))) (Num threshold)
                then 1%nat else 0%nat)
             signal)
      signal.

(** ** Highlighting ([isHighlighted], RQAVisualization.jsx) *)

(** [Array.prototype.some] with a callback that may throw: the scan stops
    at the first element on which the callback returns [true] or throws. *)
Fixpoint someThrowing {A : Type} (f : A -> Completion bool) (l : list A)
  : Completion bool :=
  match l with
  | [] => Returned false
  | x :: rest =>
      match f x with
      | Thrown => Thrown
      | Returned true => Returned true
      | Returned false => someThrowing f rest
      end
  end.

(** [c && (lo <= x && x < lo + len)] where [lo] is a field of [line.start]:
    reading the field of a [null] start throws, but only once [c] has been
    found true. *)
Definition withinFrom (c : bool) (start : option (nat * nat))
           (pick : nat * nat -> nat) (x len : nat) : Completion bool :=
  if c then
    match start with
    | None => Thrown
    | Some s => Returned (Nat.leb (pick s) x && Nat.ltb x (pick s + len))
    end
  else Returned false.

(** The callback of the diagonal branch. *)
Definition onDiagonalLine (i j : nat) (line : Line.t) : Completion bool :=
  match Line.k line with
  | Some k =>
      if (0 <? k)%Z
      then withinFrom (Z.of_nat j - Z.of_nat i =? k)%Z (Line.start line) fst
                      i (Line.length line)
      else withinFrom (Z.of_nat i - Z.of_nat j =? - k)%Z (Line.start line) snd
                      j (Line.length line)
  | None => Returned false
  end.

(** The callbacks of the vertical and the horizontal branch; the first
    conjunct already reads [line.start]. *)
Definition onVerticalLine (i j : nat) (line : Line.t) : Completion bool :=
  match Line.start line with
  | None => Thrown
  | Some s =>
      Returned (Nat.eqb j (snd s)
                && (Nat.leb (fst s) i && Nat.ltb i (fst s + Line.length line)))
  end.

Definition onHorizontalLine (i j : nat) (line : Line.t) : Completion bool :=
  match Line.start line with
  | None => Thrown
  | Some s =>
      Returned (Nat.eqb i (fst s)
                && (Nat.leb (snd s) j && Nat.ltb j (snd s + Line.length line)))
  end.

Definition isHighlighted (highlightMode : string)
           (diagonalLines verticalLines horizontalLines : list Line.t)
           (i j : nat) : Completion bool :=
  if String.eqb highlightMode "diagonal" then
    someThrowing (onDiagonalLine i j) diagonalLines
  else if String.eqb highlightMode "vertical" then
    someThrowing (onVerticalLine i j) verticalLines
  else if String.eqb highlightMode "horizontal" then
    someThrowing (onHorizontalLine i j) horizontalLines
  else Returned false.

(** The component's call: the three line lists come from the extractors. *)
Definition highlightOf (matrix : list (list nat)) (minLineLength : Z)
           (highlightMode : string) (i j : nat) : Completion bool :=
  isHighlighted highlightMode
                (findDiagonalLines matrix minLineLength)
                (findVerticalLines matrix minLineLength)
                (findHorizontalLines matrix minLineLength) i j.

(** ** Statements about lines *)

(** The mirror image of a line across the main diagonal. *)
Definition mirrorLine (line : Line.t) : Line.t :=
  Line.mk (option_map (fun s => (snd s, fst s)) (Line.start line))
          (Line.length line) (Line.type line)
          (option_map Z.opp (Line.k line)).

(** [R[i][j] = R[j][i]] as the code tests entries. *)
Definition isSymmetric (matrix : list (list nat)) : Prop :=
  forall i j, isOne matrix (i, j) = isOne matrix (j, i).

(** Position [p] of the cell sequence [cells] lies in a stretch of at least
    [minLength] consecutive 1-cells. *)
Definition inLongRun (matrix : list (list nat)) (minLength : Z)
           (cells : list (nat * nat)) (p : nat) : Prop :=
  exists s len,
    (minLength <= Z.of_nat len)%Z /\ (s <= p < s + len)%nat
    /\ forall q, (s <= q < s + len)%nat ->
                 nth q (map (isOne matrix) cells) false = true.

(** When cell [(i, j)] is to be highlighted in each mode: it lies, along
    the mode's orientation, in a stretch of at least [minLength] consecutive
    recurrence points (off the main diagonal, in the diagonal mode). *)
Definition highlightSpec (matrix : list (list nat)) (minLength : Z)
           (highlightMode : string) (i j : nat) : Prop :=
  let n := length matrix in
  if String.eqb highlightMode "diagonal" then
    ((i < j)%nat /\ inLongRun matrix minLength (upperDiag n (j - i)) i)
    \/ ((j < i)%nat /\ inLongRun matrix minLength (lowerDiag n (i - j)) j)
  else if String.eqb highlightMode "vertical" then
    (j < n)%nat /\ inLongRun matrix minLength (column n j) i
  else if String.eqb highlightMode "horizontal" then
    (i < n)%nat /\ inLongRun matrix minLength (row n i) j
  else False.

(** The callbacks as plain tests, for lines whose start is set. *)
Definition verticalTest (i j : nat) (line : Line.t) : bool :=
  match Line.start line with
  | Some s => Nat.eqb j (snd s)
              && (Nat.leb (fst s) i && Nat.ltb i (fst s + Line.length line))
  | None => false
  end.

Definition horizontalTest (i j : nat) (line : Line.t) : bool :=
  match Line.start line with
  | Some s => Nat.eqb i (fst s)
              && (Nat.leb (snd s) j && Nat.ltb j (snd s + Line.length line))
  | None => false
  end.

Definition diagonalTest (i j : nat) (line : Line.t) : bool :=
  match Line.k line, Line.start line with
  | Some k, Some s =>
      if (0 <? k)%Z
      then (Z.of_nat j - Z.of_nat i =? k)%Z
           && (Nat.leb (fst s) i && Nat.ltb i (fst s + Line.length line))
      else (Z.of_nat i - Z.of_nat j =? - k)%Z
           && (Nat.leb (snd s) j && Nat.ltb j (snd s + Line.length line))
  | _, _ => false
  end.

(** ** Reading the length histogram *)

(** [h[key] || 0] *)
Fixpoint histLookup (key : nat) (h : list (nat * nat)) : nat :=
  match h with
  | [] => 0%nat
  | (k0, c) :: rest => if Nat.eqb key k0 then c else histLookup key rest
  end.

(** Strictly increasing keys. *)
Fixpoint ascending (ks : list nat) : Prop :=
  match ks with
  | [] => True
  | k0 :: rest =>
      match rest with
      | [] => True
      | k1 :: _ => (k0 < k1)%nat
      end /\ ascending rest
  end.

(** The number of lines of length [len]. *)
Definition linesOfLength (len : nat) (ls : list Line.t) : nat :=
  length (filter (fun line => Nat.eqb (Line.length line) len) ls).

(** ** Template matches of the selected point ([findMatches], App.jsx) *)

(** [arr.slice(a, b)]: negative arguments count from the end, both are
    clamped to the array, and an empty range gives the empty array. *)
Definition jsSlice {A : Type} (l : list A) (a b : Z) : list A :=
  let len := Z.of_nat (length l) in
  let clamp := fun k => if (k <? 0)%Z then Z.max (len + k) 0 else Z.min k len in
  firstn (Z.to_nat (clamp b - clamp a)) (skipn (Z.to_nat (clamp a)) l).

Record Matches : Type := mkMatches
  { matches : list nat;
    extended : list nat }.

(** [Math.max(...pattern.map((v, j) => Math.abs(v - candidate[j])))] *)
Definition patternMaxDiff (pattern candidate : list R) : num :=
  maxOf (map (fun vj => nabs (fsub (Num (fst vj)) (readNat candidate (snd vj))))
             (combine pattern (seq 0 (length pattern)))).

(** The loop body at candidate start [i], for the selected start [h]. *)
Definition findMatchesStep (signal : list R) (m : Z) (r : R) (h : nat)
           (acc : Matches) (i : nat) : Matches :=
  if Nat.eqb i h then acc
  else
    let n := Z.of_nat (length signal) in
    let pattern := jsSlice signal (Z.of_nat h) (Z.of_nat h + m) in
    let candidate := jsSlice signal (Z.of_nat i) (Z.of_nat i + m) in
    let maxDiff := patternMaxDiff pattern candidate in
    if nlt maxDiff (Num r) then
      mkMatches
        (matches acc ++ [i])
        (if ((Z.of_nat i + m <? n) && (Z.of_nat h + m <? n))%Z then
           let nextPointDiff :=
             nabs (fsub (readZ signal (Z.of_nat h + m))
                        (readZ signal (Z.of_nat i + m))) in
           if nlt nextPointDiff (Num r) then extended acc ++ [i]
           else extended acc
         else extended acc)
    else acc.

(** [highlightIndex] is [null] until a point has been clicked. *)
Definition findMatches (signal : list R) (m : Z) (r : R)
           (highlightIndex : option nat) : Matches :=
  match highlightIndex with
  | None => mkMatches [] []
  | Some h =>
      fold_left (findMatchesStep signal m r h)
                (upto (Z.of_nat (length signal) - m)) (mkMatches [] [])
  end.

(** The point at [i] can be clicked: [i < signal.length - m]. *)
Definition clickable (signal : list R) (m : Z) (i : nat) : bool :=
  (Z.of_nat i <? Z.of_nat (length signal) - m)%Z.

(** The two tests of the loop body of [findMatches], as functions of the
    candidate start [i]. *)
Definition matchTestOf (signal : list R) (m : Z) (r : R) (h i : nat) : bool :=
  negb (Nat.eqb i h)
  && nlt (patternMaxDiff (jsSlice signal (Z.of_nat h) (Z.of_nat h + m))
                         (jsSlice signal (Z.of_nat i) (Z.of_nat i + m)))
         (Num r).

Definition extendTestOf (signal : list R) (m : Z) (r : R) (h i : nat) : bool :=
  ((Z.of_nat i + m <? Z.of_nat (length signal))
   && (Z.of_nat h + m <? Z.of_nat (length signal)))%Z
  && nlt (nabs (fsub (readZ signal (Z.of_nat h + m))
                     (readZ signal (Z.of_nat i + m))))
         (Num r).

(** ** The box-counting estimate in closed form *)

(** [ln(max(c, 1))], the ordinate of a count [c]. *)
Definition logCount (c : nat) : R := ln (Rmax (INR c) 1).

(** ** The Koch curve ([generateKochPoints], App.jsx)

    Coordinates are finite throughout: the loop only adds, subtracts and
    divides by the constants 2, 3 and 6. *)

(** The four points pushed for the segment from [(x1, y1)] to [(x2, y2)]. *)
Definition kochPieces (a b : R * R) : list (R * R) :=
  let (x1, y1) := a in
  let (x2, y2) := b in
  let dx := x2 - x1 in
  let dy := y2 - y1 in
  let p1 := (x1, y1) in
  let p2 := (x1 + dx / 3, y1 + dy / 3) in
  let p3 := (x1 + dx / 2 - dy * sqrt 3 / 6, y1 + dy / 2 + dx * sqrt 3 / 6) in
  let p4 := (x1 + 2 * dx / 3, y1 + 2 * dy / 3) in
  [p1; p2; p3; p4].

(** [points[i]]; the loops below only read indices inside the array. *)
Definition pointAt (points : list (R * R)) (i : nat) : R * R :=
  nth i points (0, 0).

(** One pass of the outer loop: [newPoints] once the inner loop has run and
    the last point has been pushed. *)
Definition kochRefine (points : list (R * R)) : list (R * R) :=
  flat_map (fun i => kochPieces (pointAt points i) (pointAt points (S i)))
           (seq 0 (length points - 1))
  ++ [pointAt points (length points - 1)].

Definition generateKochPoints (depth : nat) : list (R * R) :=
  fold_left (fun points _ => kochRefine points) (seq 0 depth)
            [(20, 180); (280, 180)].

(** [const kochPoints = generateKochPoints(4)] *)
Definition kochPoints : list (R * R) := generateKochPoints 4.

(** ** Box counting ([countBoxes] and the occupancy drawn by
    [FDVisualization], App.jsx) *)

(** [Math.floor] and [Math.ceil] *)
Definition nfloor (a : num) : num :=
  match a with
  | Num x => Num (IZR (Int_part x))
  | _ => a
  end.

Definition ceilZ (x : R) : Z := (- Int_part (- x))%Z.

(** [a >= b] *)
Definition nge (a b : num) : bool := nle b a.

(** A [Set] of keys [`${boxI},${boxJ}`].  Two keys are the same string
    exactly when both numbers print alike, which for the numbers modelled
    here is when they are the same number, NaN included. *)
Definition numEqb (a b : num) : bool :=
  match a, b with
  | Num x, Num y => Reqb x y
  | PInf, PInf | NInf, NInf | NaN, NaN => true
  | _, _ => false
  end.

Definition keyEqb (a b : num * num) : bool :=
  numEqb (fst a) (fst b) && numEqb (snd a) (snd b).

(** [set.has(key)] and [set.add(key)], in insertion order. *)
Definition setHas (set : list (num * num)) (key : num * num) : bool :=
  existsb (keyEqb key) set.

Definition setAdd (set : list (num * num)) (key : num * num)
  : list (num * num) :=
  if setHas set key then set else set ++ [key].

(** [boxI] and [boxJ] of a point [(x, y)]. *)
Definition boxOf (size : num) (xy : num * num) : num * num :=
  (nfloor (ndiv (nsub (fst xy) (Num 20)) size),
   nfloor (ndiv (nsub (snd xy) (Num 20)) size)).

(** The guard of [countBoxes]. *)
Definition inGrid (numBoxes : num) (box : num * num) : bool :=
  nge (fst box) (Num 0) && nlt (fst box) numBoxes
  && nge (snd box) (Num 0) && nlt (snd box) numBoxes.

(** The points each branch visits, in loop order. *)
Definition lineSamples : list (num * num) :=
  map (fun k => (ofNat (20 + k), Num 148)) (seq 0 257).

Definition squareSamples : list (num * num) :=
  flat_map (fun a => map (fun b => (ofNat (84 + 2 * a), ofNat (84 + 2 * b)))
                         (seq 0 65))
           (seq 0 65).

(** [Math.max(Math.ceil(dist / 2), 1)] *)
Definition kochSteps (a b : R * R) : nat :=
  let (x1, y1) := a in
  let (x2, y2) := b in
  let dist := sqrt ((x2 - x1) ^ 2 + (y2 - y1) ^ 2) in
  Z.to_nat (Z.max (ceilZ (dist / 2)) 1).

Definition segmentSamples (a b : R * R) : list (num * num) :=
  let (x1, y1) := a in
  let (x2, y2) := b in
  let steps := kochSteps a b in
  map (fun s =>
         let t := INR s / INR steps in
         (Num (x1 + t * (x2 - x1)), Num (y1 + t * (y2 - y1))))
      (seq 0 (S steps)).

Definition kochSamples (points : list (R * R)) : list (num * num) :=
  flat_map (fun i => segmentSamples (pointAt points i) (pointAt points (S i)))
           (seq 0 (length points - 1)).

(** The three-way branch on [shapeType]; any other string visits nothing. *)
Definition samplesOf (shapeType : string) : list (num * num) :=
  if String.eqb shapeType "line" then lineSamples
  else if String.eqb shapeType "square" then squareSamples
  else if String.eqb shapeType "koch" then kochSamples kochPoints
  else [].

(** [occupiedBoxes] of [countBoxes] when it returns. *)
Definition occupiedBoxes (shapeType : string) (size : num)
  : list (num * num) :=
  let numBoxes := nfloor (ndiv (Num 256) size) in
  fold_left (fun occupied xy =>
               let box := boxOf size xy in
               if inGrid numBoxes box then setAdd occupied box else occupied)
            (samplesOf shapeType) [].

Definition countBoxes (shapeType : string) (size : num) : nat :=
  length (occupiedBoxes shapeType size).

(** [counts[s]] for a size [s] that [boxCounts] has stored, and the slope
    [calculateFD] computes from that object. *)
Definition boxCounts (shape : string) (s : nat) : nat :=
  countBoxes shape (ofNat s).

Definition fdOf (shape : string) : num := calculateFD (boxCounts shape).

(** [occupiedSet] of the render pass, which adds every box unguarded. *)
Definition occupiedSet (shape : string) (boxSize : num) : list (num * num) :=
  fold_left (fun occupied xy => setAdd occupied (boxOf boxSize xy))
            (samplesOf shape) [].

(** The grid boxes [(i, j)] pushed by the render pass for a side of
    [numBoxes] boxes.  [None]: with [numBoxes] infinite the loop does not
    end. *)
Definition gridBoxes (boxSize : num) : option (list (nat * nat)) :=
  match nfloor (ndiv (Num 256) boxSize) with
  | Num nb => let n := Z.to_nat (Int_part nb) in
              Some (cellList n (fun _ => seq 0 n))
  | PInf => None
  | NInf | NaN => Some []
  end.

(** [isOccupied] of a drawn box. *)
Definition isOccupied (shape : string) (boxSize : num) (ij : nat * nat)
  : bool :=
  setHas (occupiedSet shape boxSize) (ofNat (fst ij), ofNat (snd ij)).

(** ** Box indices, stated over the integers *)

(** The index along one axis of the box of side [sz] that holds the
    coordinate [u], and the number of boxes along a side of the grid. *)
Definition boxIndex (sz u : R) : Z := Int_part ((u - 20) / sz).

Definition gridSide (sz : R) : Z := Int_part (256 / sz).

(** The key of the box with integer indices [(i, j)]. *)
Definition keyOf (ij : Z * Z) : num * num :=
  (Num (IZR (fst ij)), Num (IZR (snd ij))).

(** The side of the grid as a count; 0 unless the size is a positive
    number. *)
Definition sideOf (size : num) : nat :=
  match size with
  | Num sz => if Rltb 0 sz then Z.to_nat (gridSide sz) else 0%nat
  | _ => 0%nat
  end.

(** The box of twice the side that contains a box, and the four boxes of
    half the side that it contains. *)
Definition parentBox (ij : Z * Z) : Z * Z := (fst ij / 2, snd ij / 2)%Z.

Definition childBoxes (ij : Z * Z) : list (Z * Z) :=
  [(2 * fst ij, 2 * snd ij); (2 * fst ij, 2 * snd ij + 1);
   (2 * fst ij + 1, 2 * snd ij); (2 * fst ij + 1, 2 * snd ij + 1)]%Z.

(** The integer indices of a key. *)
Definition indicesOf (key : num * num) : Z * Z :=
  match key with
  | (Num a, Num b) => (Int_part a, Int_part b)
  | _ => (0, 0)%Z
  end.

(** ** The Koch polyline, stated by its segments *)

(** The squared length of the segment from [a] to [b]. *)
Definition sqDist (a b : R * R) : R :=
  (fst b - fst a) ^ 2 + (snd b - snd a) ^ 2.

(** Every segment of the polyline has squared length [D]. *)
Fixpoint evenlySpaced (D : R) (points : list (R * R)) : Prop :=
  match points with
  | a :: (b :: _) as rest => sqDist a b = D /\ evenlySpaced D rest
  | _ => True
  end.

(** ** Test signals ([generateSignal], RQAVisualization.jsx) *)

(** The double nearest to an integer, ties to even: a double holds 53
    significant bits, so an integer of more bits loses its low ones.  The
    generators below multiply a 31-bit seed by a 31-bit constant. *)
Definition roundToDouble (z : Z) : Z :=
  let a := Z.abs z in
  let bits := (Z.log2 a + 1)%Z in
  if (bits <=? 53)%Z then z
  else
    let shift := (bits - 53)%Z in
    let q := Z.shiftr a shift in
    let rest := Z.land a (Z.ones shift) in
    let half := Z.shiftl 1 (shift - 1) in
    let q' := if (half <? rest)%Z || ((rest =? half)%Z && Z.odd q)
              then (q + 1)%Z else q in
    (Z.sgn z * Z.shiftl q' shift)%Z.

(** The 32-bit signed integer a bitwise operator reads from a whole
    number. *)
Definition toInt32 (z : Z) : Z := ((z + 2 ^ 31) mod 2 ^ 32 - 2 ^ 31)%Z.

(** [seed = (seed * 1103515245 + 12345) & 0x7fffffff] *)
Definition nextSeed (seed : Z) : Z :=
  Z.land (toInt32 (roundToDouble (roundToDouble (seed * 1103515245) + 12345)))
         2147483647.

(** [random()]: the new seed and the value returned. *)
Definition random (seed : Z) : Z * R :=
  let seed' := nextSeed seed in
  (seed', IZR seed' / 2147483647).

(** The loop body of the logistic map on [(x, data)]. *)
Definition chaoticStep (st : R * list R) (i : nat) : R * list R :=
  let (x, data) := st in
  let x' := 39 / 10 * x * (1 - x) in
  (x', data ++ [x' * 2 - 1]).

(** The loop body of the laminar signal on [(seed, value, data)]. *)
Definition laminarStep (st : Z * R * list R) (i : nat) : Z * R * list R :=
  let '(seed, value, data) := st in
  let (seed1, u1) := random seed in
  let (seed2, value') :=
    if Rltb u1 (5 / 100)
    then let (s, u2) := random seed1 in (s, u2 * 2 - 1)
    else (seed1, value) in
  let (seed3, u3) := random seed2 in
  (seed3, value', data ++ [value' + (u3 - 1 / 2) * (1 / 10)]).

(** [Array.from({ length }, () => random() * 2 - 1)], element by element. *)
Definition randomStep (st : Z * list R) (i : nat) : Z * list R :=
  let (seed, data) := st in
  let (seed', u) := random seed in
  (seed', data ++ [u * 2 - 1]).

Definition generateSignal (type : string) (len : nat) : list R :=
  if String.eqb type "periodic" then
    map (fun i => sin (INR i * (3 / 10)) * (8 / 10)) (seq 0 len)
  else if String.eqb type "chaotic" then
    snd (fold_left chaoticStep (seq 0 len) (1 / 10, []))
  else if String.eqb type "drift" then
    map (fun i => sin (INR i * (25 / 100)) * (6 / 10)
                  + sin (INR i * (2 / 100)) * (3 / 10))
        (seq 0 len)
  else if String.eqb type "laminar" then
    snd (fold_left laminarStep (seq 0 len) (12345%Z, 1 / 2, []))
  else if String.eqb type "random" then
    snd (fold_left randomStep (seq 0 len) (54321%Z, []))
  else
    map (fun i => sin (INR i * (3 / 10))) (seq 0 len).

(** ** Hovering over the plot ([RecurrencePlotVisualization],
    RQAVisualization.jsx) *)

(** [const cellSize = Math.min(4, 240 / n)] *)
Definition cellSize (n : nat) : num :=
  nmin (Num 4) (ndiv (Num 240) (ofNat n)).

(** The hovered point the mouse handler sets for a pointer at [(x, y)] in
    view-box units, once past the throttle: [{ i, j }], or [None] for
    [null]. *)
Definition hoveredCell (n : nat) (x y : num) : option (num * num) :=
  let j := nfloor (ndiv (nsub x (Num 20)) (cellSize n)) in
  let i := nfloor (ndiv (nsub y (Num 20)) (cellSize n)) in
  if nge i (Num 0) && nlt i (ofNat n) && nge j (Num 0) && nlt j (ofNat n)
  then Some (i, j)
  else None.

(** The square in which cell [(i, j)] is drawn: its left and top edge, and
    the side of the cell. *)
Definition underCell (cs : R) (i j : nat) (x y : R) : Prop :=
  20 + INR j * cs <= x < 20 + (INR j + 1) * cs
  /\ 20 + INR i * cs <= y < 20 + (INR i + 1) * cs.

(* ================================================================== *)
(** * Part II: properties *)
(* ================================================================== *)

(** ** Arithmetic of the number model *)

Section NumFacts.

Lemma Rltb_true (x y : R) : Rltb x y = true <-> x < y.
Proof. unfold Rltb; destruct (Rlt_dec x y); split; intros; congruence || lra. Qed.

Lemma Rltb_false (x y : R) : Rltb x y = false <-> y <= x.
Proof. unfold Rltb; destruct (Rlt_dec x y); split; intros; congruence || lra. Qed.

Lemma Rleb_true (x y : R) : Rleb x y = true <-> x <= y.
Proof. unfold Rleb; destruct (Rle_dec x y); split; intros; congruence || lra. Qed.

Lemma Rleb_false (x y : R) : Rleb x y = false <-> y < x.
Proof. unfold Rleb; destruct (Rle_dec x y); split; intros; congruence || lra. Qed.

Lemma Reqb_true (x y : R) : Reqb x y = true <-> x = y.
Proof. unfold Reqb; destruct (Req_dec_T x y); split; intros; congruence. Qed.

Lemma Reqb_false (x y : R) : Reqb x y = false <-> x <> y.
Proof. unfold Reqb; destruct (Req_dec_T x y); split; intros; congruence. Qed.

Lemma nsub_swap (a b : num) : nsub a b = nneg (nsub b a).
Proof.
  destruct a, b; simpl; try reflexivity.
  f_equal; ring.
Qed.

Lemma npow2_nneg (a : num) : npow2 (nneg a) = npow2 a.
Proof.
  destruct a; simpl; try reflexivity.
  f_equal; ring.
Qed.

(** A squared difference does not depend on the order of its operands. *)
Lemma sqdiff_sym (a b : num) : npow2 (nsub a b) = npow2 (nsub b a).
Proof. rewrite (nsub_swap a b). apply npow2_nneg. Qed.

Lemma sqdiff_self (x : R) : npow2 (nsub (Num x) (Num x)) = Num 0.
Proof. simpl. f_equal. ring. Qed.

Lemma ndiv_pos (x y : R) : y <> 0 -> ndiv (Num x) (Num y) = Num (x / y).
Proof.
  intros Hy. simpl. apply Reqb_false in Hy. now rewrite Hy.
Qed.

Lemma ndiv_zero_zero : ndiv (Num 0) (Num 0) = NaN.
Proof.
  simpl. unfold signedInf.
  assert (H : Reqb 0 0 = true) by now apply Reqb_true.
  now rewrite H.
Qed.

Lemma INR_pos_neq (n : nat) : (0 < n)%nat -> INR n <> 0.
Proof. intros H. apply not_0_INR. lia. Qed.

Lemma ndiv_nat (a b : nat) :
  (0 < b)%nat -> ndiv (ofNat a) (ofNat b) = Num (INR a / INR b).
Proof. intros H. apply ndiv_pos. now apply INR_pos_neq. Qed.

End NumFacts.

(** ** Rounding to a double *)

Section Rounding.

Lemma floor_unique (x : R) (z : Z) :
  IZR z <= x < IZR z + 1 -> Int_part x = z.
Proof.
  intros [H1 H2]. symmetry. apply Int_part_spec. lra.
Qed.

Lemma floor_bounds (x : R) : IZR (Int_part x) <= x < IZR (Int_part x) + 1.
Proof. destruct (base_Int_part x). lra. Qed.

Lemma floor_IZR (z : Z) : Int_part (IZR z) = z.
Proof. apply floor_unique. lra. Qed.

(** [nearestEven] from the integer and the fractional part. *)
Lemma nearestEven_eq (t : R) (f : Z) (d : R) :
  t = IZR f + d -> 0 <= d < 1 ->
  nearestEven t
  = if Rltb d (1 / 2) then f
    else if Rltb (1 / 2) d then (f + 1)%Z
         else if Z.even f then f else (f + 1)%Z.
Proof.
  intros Ht Hd. unfold nearestEven. cbv zeta.
  assert (Hf : Int_part t = f) by (apply floor_unique; lra).
  rewrite Hf. replace (t - IZR f) with d by lra. reflexivity.
Qed.

Lemma nearestEven_split (t : R) :
  exists f d, t = IZR f + d /\ 0 <= d < 1.
Proof.
  exists (Int_part t), (t - IZR (Int_part t)).
  pose proof (floor_bounds t). split; lra.
Qed.

(** Rounding to the nearest integer commutes with the change of sign. *)
Lemma nearestEven_opp (t : R) : nearestEven (- t) = (- nearestEven t)%Z.
Proof.
  destruct (nearestEven_split t) as (f & d & Ht & Hd).
  rewrite (nearestEven_eq t f d Ht Hd).
  destruct (Req_dec_T d 0) as [Hz | Hnz].
  - rewrite (nearestEven_eq (- t) (- f) 0);
      [| rewrite opp_IZR; lra | lra].
    assert (H0 : Rltb 0 (1 / 2) = true) by (apply Rltb_true; lra).
    subst d. now rewrite H0.
  - rewrite (nearestEven_eq (- t) (- f - 1) (1 - d));
      [| rewrite minus_IZR, opp_IZR; lra | lra].
    destruct (Rltb d (1 / 2)) eqn:Hlow.
    + apply Rltb_true in Hlow.
      assert (H1 : Rltb (1 - d) (1 / 2) = false) by (apply Rltb_false; lra).
      assert (H2 : Rltb (1 / 2) (1 - d) = true) by (apply Rltb_true; lra).
      rewrite H1, H2. lia.
    + apply Rltb_false in Hlow.
      destruct (Rltb (1 / 2) d) eqn:Hhigh.
      * apply Rltb_true in Hhigh.
        assert (H1 : Rltb (1 - d) (1 / 2) = true) by (apply Rltb_true; lra).
        rewrite H1. lia.
      * apply Rltb_false in Hhigh.
        assert (H1 : Rltb (1 - d) (1 / 2) = false) by (apply Rltb_false; lra).
        assert (H2 : Rltb (1 / 2) (1 - d) = false) by (apply Rltb_false; lra).
        rewrite H1, H2.
        replace (- f - 1)%Z with (- f + -1)%Z by lia.
        rewrite Z.even_add, Z.even_opp. cbn [Z.even].
        destruct (Z.even f); cbn [Bool.eqb]; lia.
Qed.

Lemma quantumOf_opp (x : R) : quantumOf (- x) = quantumOf x.
Proof. unfold quantumOf, exponentOf. now rewrite Rabs_Ropp. Qed.

Lemma quantumOf_pos (x : R) : 0 < quantumOf x.
Proof. unfold quantumOf. apply powerRZ_lt. lra. Qed.

Lemma roundToBinary64_opp (x : R) :
  roundToBinary64 (- x) = nneg (roundToBinary64 x).
Proof.
  unfold roundToBinary64.
  destruct (Reqb x 0) eqn:Hx.
  - apply Reqb_true in Hx. subst x.
    assert (H : Reqb (- 0) 0 = true) by (apply Reqb_true; lra).
    rewrite H. simpl. f_equal. lra.
  - apply Reqb_false in Hx.
    assert (H : Reqb (- x) 0 = false) by (apply Reqb_false; lra).
    rewrite H. cbv zeta. rewrite quantumOf_opp.
    pose proof (quantumOf_pos x) as Hq.
    replace (- x / quantumOf x) with (- (x / quantumOf x)) by (field; lra).
    rewrite nearestEven_opp, opp_IZR.
    replace (- IZR (nearestEven (x / quantumOf x)) * quantumOf x)
      with (- (IZR (nearestEven (x / quantumOf x)) * quantumOf x)) by ring.
    rewrite Rabs_Ropp.
    destruct (Rleb (powerRZ 2 1024) _).
    + destruct (Rltb 0 x) eqn:Hpos.
      * apply Rltb_true in Hpos.
        assert (H' : Rltb 0 (- x) = false) by (apply Rltb_false; lra).
        now rewrite H'.
      * apply Rltb_false in Hpos.
        assert (H' : Rltb 0 (- x) = true) by (apply Rltb_true; lra).
        now rewrite H'.
    + reflexivity.
Qed.

Lemma fl_opp (a : num) : fl (nneg a) = nneg (fl a).
Proof.
  destruct a as [x | | |]; try reflexivity. apply roundToBinary64_opp.
Qed.

Lemma nabs_nneg (a : num) : nabs (nneg a) = nabs a.
Proof.
  destruct a as [x | | |]; try reflexivity. simpl. now rewrite Rabs_Ropp.
Qed.

(** The computed size of a difference does not depend on the order of its
    operands. *)
Lemma fsub_swap (a b : num) : nabs (fsub a b) = nabs (fsub b a).
Proof.
  unfold fsub. rewrite (nsub_swap a b), fl_opp. apply nabs_nneg.
Qed.

Lemma fl_zero : fl (Num 0) = Num 0.
Proof.
  simpl. unfold roundToBinary64.
  assert (H : Reqb 0 0 = true) by now apply Reqb_true.
  now rewrite H.
Qed.

Lemma fsub_self (x : R) : fsub (Num x) (Num x) = Num 0.
Proof.
  unfold fsub. simpl nsub. replace (x + - x) with 0 by ring. apply fl_zero.
Qed.

(** The size of a rounded number is a real [>= 0] or [+Infinity]. *)
Lemma nabs_fl_nonneg (x : R) : nonnegNum (nabs (fl (Num x))).
Proof.
  simpl. unfold roundToBinary64.
  destruct (Reqb x 0); [simpl; rewrite Rabs_R0; lra |].
  cbv zeta. destruct (Rleb _ _).
  - destruct (Rltb 0 x); exact I.
  - simpl. apply Rabs_pos.
Qed.

(** *** The larger of two numbers that are not negative *)

Lemma nmax_nonneg (a b : num) :
  nonnegNum a -> nonnegNum b -> nonnegNum (nmax a b).
Proof.
  destruct a as [x | | |], b as [y | | |]; simpl; try tauto.
  intros Hx Hy. destruct (Rltb x y); simpl; assumption.
Qed.

Lemma nmax_zero_r (a : num) : nonnegNum a -> nmax a (Num 0) = a.
Proof.
  destruct a as [x | | |]; simpl; try tauto.
  intros Hx. assert (H : Rltb x 0 = false) by (apply Rltb_false; lra).
  now rewrite H.
Qed.

Lemma nmax_Rmax (a b : R) : nmax (Num a) (Num b) = Num (Rmax a b).
Proof.
  simpl. unfold Rmax. destruct (Rltb a b) eqn:E; destruct (Rle_dec a b) as [H | H];
    try reflexivity.
  - apply Rltb_true in E. lra.
  - apply Rltb_false in E. f_equal. lra.
Qed.

Lemma nmax_assoc (a b c : num) :
  nonnegNum a -> nonnegNum b -> nonnegNum c ->
  nmax a (nmax b c) = nmax (nmax a b) c.
Proof.
  destruct a as [x | | |], b as [y | | |], c as [z | | |];
    try (simpl; tauto); intros _ _ _;
    try (now rewrite !nmax_Rmax, Rmax_assoc);
    simpl;
    repeat match goal with
           | |- context [Rltb ?u ?v] => destruct (Rltb u v); simpl
           end;
    reflexivity.
Qed.

(** The test-and-replace of a running maximum is [Math.max]. *)
Lemma running_step (acc d : num) :
  nonnegNum acc -> nonnegNum d ->
  (if ngt d acc then d else acc) = nmax acc d.
Proof.
  destruct acc as [x | | |], d as [y | | |]; simpl; tauto || reflexivity.
Qed.

(** [a < r] for the larger of two numbers is [a < r] for both. *)
Lemma nlt_nmax (a b : num) (r : R) :
  nonnegNum a -> nonnegNum b ->
  nlt (nmax a b) (Num r) = nlt a (Num r) && nlt b (Num r).
Proof.
  destruct a as [x | | |], b as [y | | |]; simpl; try tauto; intros _ _.
  - destruct (Rltb x y) eqn:Hxy; cbn [nlt];
      destruct (Rltb x r) eqn:Hx, (Rltb y r) eqn:Hy; try reflexivity;
      rewrite ?Rltb_true, ?Rltb_false in *; lra.
  - now rewrite andb_false_r.
Qed.

Lemma nlt_nonneg_positive (a : num) (r : R) :
  nonnegNum a -> nlt a (Num r) = true -> 0 < r.
Proof.
  destruct a as [x | | |]; simpl; try tauto; try discriminate.
  intros Hx Hlt. apply Rltb_true in Hlt. lra.
Qed.

Lemma nlt_nonneg_false (a : num) (r : R) :
  nonnegNum a -> r <= 0 -> nlt a (Num r) = false.
Proof.
  destruct a as [x | | |]; simpl; try tauto; intros Hx Hr.
  apply Rltb_false. lra.
Qed.

Lemma nlt_weaken (a : num) (r1 r2 : R) :
  r1 <= r2 -> nlt a (Num r1) = true -> nlt a (Num r2) = true.
Proof.
  destruct a as [x | | |]; simpl; try discriminate; try reflexivity.
  intros Hr H. apply Rltb_true in H. apply Rltb_true. lra.
Qed.

(** *** The binary exponent of a number between two powers of 2 *)

Lemma ln_powerRZ_2 (k : Z) : ln (powerRZ 2 k) = IZR k * ln 2.
Proof.
  destruct k as [| p | p]; simpl.
  - rewrite ln_1. ring.
  - rewrite ln_pow by lra. now rewrite INR_IZR_INZ, positive_nat_Z.
  - rewrite ln_Rinv by (apply pow_lt; lra). rewrite ln_pow by lra.
    rewrite INR_IZR_INZ, positive_nat_Z.
    change (IZR (Z.neg p)) with (IZR (- Z.pos p)). rewrite opp_IZR. ring.
Qed.

Lemma exponentOf_between (x : R) (k : Z) :
  powerRZ 2 k <= Rabs x < powerRZ 2 (k + 1) -> exponentOf x = k.
Proof.
  intros [Hlo Hhi]. unfold exponentOf. apply floor_unique.
  assert (Hln2 : 0 < ln 2) by (pose proof ln_lt_2; lra).
  assert (Hpk : 0 < powerRZ 2 k) by (apply powerRZ_lt; lra).
  assert (Hx : 0 < Rabs x) by lra.
  assert (H1 : ln (powerRZ 2 k) <= ln (Rabs x)).
  { destruct Hlo as [Hlt | Heq]; [left; now apply ln_increasing | rewrite Heq; lra]. }
  assert (H2 : ln (Rabs x) < ln (powerRZ 2 (k + 1)))
    by (now apply ln_increasing).
  rewrite ln_powerRZ_2 in H1, H2. rewrite plus_IZR in H2.
  split.
  - apply Rmult_le_reg_r with (ln 2); [exact Hln2 |].
    unfold Rdiv. rewrite Rmult_assoc, Rinv_l by lra. lra.
  - apply Rmult_lt_reg_r with (ln 2); [exact Hln2 |].
    unfold Rdiv. rewrite Rmult_assoc, Rinv_l by lra. lra.
Qed.

(** *** Accuracy of the rounding *)

(** The nearest integer is at most a half away. *)
Lemma nearestEven_near (t : R) : Rabs (IZR (nearestEven t) - t) <= 1 / 2.
Proof.
  destruct (nearestEven_split t) as (f & d & Ht & Hd).
  rewrite (nearestEven_eq t f d Ht Hd). subst t.
  assert (Hup : Rabs (IZR (f + 1) - (IZR f + d)) <= 1 / 2 \/ d < 1 / 2).
  { destruct (Rle_lt_dec (1 / 2) d) as [H | H]; [left | now right].
    rewrite plus_IZR. apply Rabs_le. lra. }
  assert (Hdown : Rabs (IZR f - (IZR f + d)) <= 1 / 2 \/ 1 / 2 < d).
  { destruct (Rle_lt_dec d (1 / 2)) as [H | H]; [left | now right].
    apply Rabs_le. lra. }
  destruct (Rltb d (1 / 2)) eqn:H1.
  - apply Rltb_true in H1. destruct Hdown; [assumption | lra].
  - apply Rltb_false in H1. destruct (Rltb (1 / 2) d) eqn:H2.
    + destruct Hup; [assumption | lra].
    + apply Rltb_false in H2. destruct (Z.even f).
      * destruct Hdown; [assumption | lra].
      * destruct Hup; [assumption | lra].
Qed.

(** The multiple of the spacing that the rounding picks is at most half a
    spacing away from the number. *)
Lemma nearest_multiple_near (x : R) :
  Rabs (IZR (nearestEven (x / quantumOf x)) * quantumOf x - x)
  <= quantumOf x / 2.
Proof.
  pose proof (quantumOf_pos x) as Hq.
  pose proof (nearestEven_near (x / quantumOf x)) as Hn.
  replace (IZR (nearestEven (x / quantumOf x)) * quantumOf x - x)
    with ((IZR (nearestEven (x / quantumOf x)) - x / quantumOf x)
          * quantumOf x) by (field; lra).
  rewrite Rabs_mult, (Rabs_pos_eq (quantumOf x)) by lra.
  nra.
Qed.

Lemma roundToBinary64_near (x v : R) :
  roundToBinary64 x = Num v -> Rabs (v - x) <= quantumOf x / 2.
Proof.
  unfold roundToBinary64. destruct (Reqb x 0) eqn:Hx.
  - apply Reqb_true in Hx. intros [= <-]. subst x.
    replace (0 - 0) with 0 by ring. rewrite Rabs_R0.
    pose proof (quantumOf_pos 0). lra.
  - cbv zeta. destruct (Rleb _ _); [destruct (Rltb 0 x); discriminate |].
    intros [= <-]. apply nearest_multiple_near.
Qed.

Lemma powerRZ_2_mono (k k' : Z) :
  (k <= k')%Z -> powerRZ 2 k <= powerRZ 2 k'.
Proof.
  intros Hk. replace k' with (k + Z.of_nat (Z.to_nat (k' - k)))%Z by lia.
  rewrite powerRZ_add by lra. rewrite <- pow_powerRZ.
  pose proof (pow_R1_Rle 2 (Z.to_nat (k' - k)) ltac:(lra)).
  assert (0 < powerRZ 2 k) by (apply powerRZ_lt; lra).
  nra.
Qed.

(** Below 1 the spacing of the doubles is at most [2^-53]. *)
Lemma quantumOf_below_1 (x : R) :
  x <> 0 -> Rabs x < 1 -> quantumOf x <= powerRZ 2 (-53).
Proof.
  intros Hx Hlt. unfold quantumOf. apply powerRZ_2_mono.
  assert (He : (exponentOf x < 0)%Z).
  { unfold exponentOf. apply lt_IZR.
    assert (Hln2 : 0 < ln 2) by (pose proof ln_lt_2; lra).
    assert (Hpos : 0 < Rabs x) by now apply Rabs_pos_lt.
    assert (Hln : ln (Rabs x) < 0)
      by (rewrite <- ln_1; now apply ln_increasing).
    pose proof (floor_bounds (ln (Rabs x) / ln 2)) as [Hf _].
    assert (ln (Rabs x) / ln 2 < 0).
    { unfold Rdiv. apply Rmult_lt_reg_r with (ln 2); [exact Hln2 |].
      rewrite Rmult_assoc, Rinv_l by lra. lra. }
    lra. }
  lia.
Qed.

Lemma no_overflow_below_1 (v : R) :
  Rabs v < 1 -> Rleb (powerRZ 2 1024) (Rabs v) = false.
Proof.
  intros Hv. apply Rleb_false.
  change 1024%Z with (Z.of_nat 1024). rewrite <- pow_powerRZ.
  pose proof (pow_R1_Rle 2 1024 ltac:(lra)). lra.
Qed.

(** A number of size at most 1/2 rounds to a number of size below 1. *)
Lemma round_below_1 (x : R) :
  Rabs x <= 1 / 2 -> exists v, fl (Num x) = Num v /\ Rabs v < 1.
Proof.
  intros Hx. simpl. unfold roundToBinary64.
  destruct (Reqb x 0) eqn:H0.
  - exists 0. split; [reflexivity |]. rewrite Rabs_R0. lra.
  - apply Reqb_false in H0. cbv zeta.
    pose proof (nearest_multiple_near x) as Hnear.
    pose proof (quantumOf_below_1 x H0 ltac:(lra)) as Hq.
    pose proof (powerRZ_2_mono (-53) (-1) ltac:(lia)) as Hhalf.
    assert (H1 : powerRZ 2 (-1) = 1 / 2) by (simpl; lra).
    set (v := IZR (nearestEven (x / quantumOf x)) * quantumOf x) in *.
    assert (Hv : Rabs v < 1).
    { replace v with ((v - x) + x) by ring.
      pose proof (Rabs_triang (v - x) x). lra. }
    rewrite no_overflow_below_1 by exact Hv.
    exists v. now split.
Qed.

End Rounding.

(** ** Delay embedding and recurrence matrix *)

Section Recurrence.

Lemma upto_length (n : Z) : length (upto n) = Z.to_nat n.
Proof. apply length_seq. Qed.

Lemma upto_In (n : Z) (i : nat) : In i (upto n) <-> (i < Z.to_nat n)%nat.
Proof. unfold upto. rewrite in_seq. lia. Qed.

Lemma nth_error_map_seq {A : Type} (f : nat -> A) (n i : nat) :
  (i < n)%nat -> nth_error (map f (seq 0 n)) i = Some (f i).
Proof.
  intros Hi. rewrite nth_error_map, nth_error_seq.
  destruct (Nat.ltb_spec i n); [reflexivity | lia].
Qed.

Lemma nth_map_seq {A : Type} (f : nat -> A) (n i : nat) (d : A) :
  (i < n)%nat -> nth i (map f (seq 0 n)) d = f i.
Proof.
  intros Hi. apply nth_error_nth. now apply nth_error_map_seq.
Qed.

Lemma embed_length (signal : list R) (m tau : Z) :
  length (embed signal m tau) = Z.to_nat (embedCount signal m tau).
Proof. unfold embed. now rewrite length_map, upto_length. Qed.

Lemma coord_embed (signal : list R) (m tau : Z) (i d : nat) :
  (i < Z.to_nat (embedCount signal m tau))%nat -> (d < Z.to_nat m)%nat ->
  coord (embed signal m tau) i d
  = readZ signal (Z.of_nat i + Z.of_nat d * tau).
Proof.
  intros Hi Hd. unfold coord, embed, upto.
  rewrite (nth_map_seq _ _ _ _ Hi).
  now rewrite (nth_map_seq _ _ _ _ Hd).
Qed.

(** With [m >= 1] and [tau >= 1] every read of the embedding loop lands
    inside the signal. *)
Lemma embed_index_in_range (signal : list R) (m tau : Z) (i d : nat) :
  (1 <= m)%Z -> (1 <= tau)%Z ->
  (i < Z.to_nat (embedCount signal m tau))%nat -> (d < Z.to_nat m)%nat ->
  (i + d * Z.to_nat tau < length signal)%nat.
Proof.
  unfold embedCount. intros Hm Ht Hi Hd.
  assert (Hd' : (Z.of_nat d <= m - 1)%Z) by lia.
  assert (Hmul : (Z.of_nat d * tau <= (m - 1) * tau)%Z) by nia.
  apply Nat2Z.inj_lt.
  rewrite Nat2Z.inj_add, Nat2Z.inj_mul, Z2Nat.id by lia.
  lia.
Qed.

Lemma readZ_in_range (signal : list R) (k : nat) :
  (k < length signal)%nat ->
  readZ signal (Z.of_nat k) = Num (nth k signal 0).
Proof.
  intros Hk. unfold readZ, readNat.
  destruct (Z.ltb_spec (Z.of_nat k) 0); [lia |].
  rewrite Nat2Z.id.
  now rewrite (nth_error_nth' signal 0 Hk).
Qed.

Lemma embed_coord_sample (signal : list R) (m tau : Z) (i d : nat) :
  (1 <= m)%Z -> (1 <= tau)%Z ->
  (i < Z.to_nat (embedCount signal m tau))%nat -> (d < Z.to_nat m)%nat ->
  coord (embed signal m tau) i d = Num (nth (i + d * Z.to_nat tau) signal 0).
Proof.
  intros Hm Ht Hi Hd.
  rewrite coord_embed by assumption.
  rewrite <- readZ_in_range by now apply embed_index_in_range with (m := m).
  f_equal. rewrite Nat2Z.inj_add, Nat2Z.inj_mul, Z2Nat.id by lia. reflexivity.
Qed.

(** C6. The embedding stage yields exactly [n = N - (m-1) tau] vectors; the
    [i]-th one lists the samples [x_i, x_(i+tau), ..., x_(i+(m-1)tau)], each
    an actual sample of the signal (nothing padded, nothing wrapped); with
    [m = 1] the vectors are the samples themselves, in order, as
    one-element vectors. *)
Theorem embed_delay_vectors (signal : list R) (m tau : Z) :
  (1 <= m)%Z -> (1 <= tau)%Z ->
  ((m - 1) * tau < Z.of_nat (length signal))%Z ->
  let vectors := embed signal m tau in
  Z.of_nat (length vectors) = (Z.of_nat (length signal) - (m - 1) * tau)%Z
  /\ (forall i, (i < length vectors)%nat ->
        exists xs : list R,
          nth_error vectors i = Some (map Num xs)
          /\ Z.of_nat (length xs) = m
          /\ forall d, (d < length xs)%nat ->
               nth_error signal (i + d * Z.to_nat tau) = Some (nth d xs 0))
  /\ (m = 1%Z -> vectors = map (fun x => [Num x]) signal).
Proof.
  intros Hm Ht HN vectors.
  assert (Hlen : length vectors = Z.to_nat (embedCount signal m tau))
    by apply embed_length.
  split; [| split].
  - rewrite Hlen. unfold embedCount. lia.
  - intros i Hi. rewrite Hlen in Hi.
    exists (map (fun d => nth (i + d * Z.to_nat tau) signal 0)
                (seq 0 (Z.to_nat m))).
    split; [| split].
    + unfold vectors, embed, upto at 1.
      rewrite (nth_error_map_seq _ _ _ Hi). f_equal.
      unfold upto. rewrite map_map. apply map_ext_in.
      intros d Hd. apply in_seq in Hd.
      pose proof (embed_index_in_range signal m tau i d Hm Ht Hi) as Hr.
      rewrite <- readZ_in_range by (apply Hr; lia).
      f_equal. rewrite Nat2Z.inj_add, Nat2Z.inj_mul, Z2Nat.id by lia.
      reflexivity.
    + rewrite length_map, length_seq. lia.
    + intros d Hd. rewrite length_map, length_seq in Hd.
      rewrite (nth_map_seq _ _ _ _ Hd).
      apply nth_error_nth'.
      now apply embed_index_in_range with (m := m).
  - intros ->. unfold vectors, embed, embedCount, upto.
    replace (Z.to_nat (Z.of_nat (length signal) - (1 - 1) * tau))
      with (length signal) by lia.
    apply nth_error_ext. intros i.
    rewrite !nth_error_map, nth_error_seq.
    destruct (Nat.ltb_spec i (length signal)) as [Hi | Hi].
    + simpl. rewrite (nth_error_nth' signal 0 Hi). simpl. do 2 f_equal.
      rewrite <- (readZ_in_range signal i Hi). f_equal. lia.
    + apply nth_error_None in Hi. now rewrite Hi.
Qed.

(** Witness of C6: three samples, dimension 2, delay 1. *)
Lemma embed_delay_vectors_witness :
  let vectors := embed [1; 2; 3] 2 1 in
  Z.of_nat (length vectors) = (Z.of_nat (length [1; 2; 3]) - (2 - 1) * 1)%Z
  /\ (forall i, (i < length vectors)%nat ->
        exists xs : list R,
          nth_error vectors i = Some (map Num xs)
          /\ Z.of_nat (length xs) = 2%Z
          /\ forall d, (d < length xs)%nat ->
               nth_error [1; 2; 3] (i + d * Z.to_nat 1) = Some (nth d xs 0))
  /\ (2%Z = 1%Z -> vectors = map (fun x => [Num x]) [1; 2; 3]).
Proof.
  apply (embed_delay_vectors [1; 2; 3] 2 1); simpl; lia.
Defined.

Lemma fold_left_ext_in {A B : Type} (f g : A -> B -> A) (l : list B) (a : A) :
  (forall x y, In y l -> f x y = g x y) -> fold_left f l a = fold_left g l a.
Proof.
  revert a. induction l as [| b l IH]; intros a H; simpl; [reflexivity |].
  rewrite H by now left. apply IH. intros x y Hy. apply H. now right.
Qed.

Lemma distance_sym (vectors : list (list num)) (m : Z) (i j : nat) :
  distance vectors m i j = distance vectors m j i.
Proof.
  unfold distance. f_equal. apply fold_left_ext_in.
  intros acc d _. now rewrite sqdiff_sym.
Qed.

Lemma computeRecurrenceMatrix_length (signal : list R) (eps : R) (m tau : Z) :
  length (computeRecurrenceMatrix signal eps m tau)
  = Z.to_nat (embedCount signal m tau).
Proof. unfold computeRecurrenceMatrix. now rewrite length_map, upto_length. Qed.

Lemma computeRecurrenceMatrix_square (signal : list R) (eps : R) (m tau : Z) :
  isSquare (computeRecurrenceMatrix signal eps m tau)
           (Z.to_nat (embedCount signal m tau)).
Proof.
  split; [apply computeRecurrenceMatrix_length |].
  intros r Hr. unfold computeRecurrenceMatrix in Hr.
  apply in_map_iff in Hr. destruct Hr as [i [<- _]].
  now rewrite length_map, upto_length.
Qed.

Lemma entry_computeRecurrenceMatrix (signal : list R) (eps : R) (m tau : Z)
      (i j : nat) :
  (i < Z.to_nat (embedCount signal m tau))%nat ->
  (j < Z.to_nat (embedCount signal m tau))%nat ->
  entry (computeRecurrenceMatrix signal eps m tau) i j
  = if nle (distance (embed signal m tau) m i j) (Num eps)
    then 1%nat else 0%nat.
Proof.
  intros Hi Hj. unfold entry, computeRecurrenceMatrix, upto.
  rewrite (nth_map_seq _ _ _ _ Hi).
  now rewrite (nth_map_seq _ _ _ _ Hj).
Qed.

Lemma entry_out_of_range (matrix : list (list nat)) (n i j : nat) :
  isSquare matrix n -> (n <= i)%nat \/ (n <= j)%nat -> entry matrix i j = 0%nat.
Proof.
  intros [Hlen Hrows] Hij. unfold entry.
  destruct (Nat.lt_ge_cases i n) as [Hi | Hi].
  - destruct Hij as [Hij | Hj]; [lia |].
    apply nth_overflow. rewrite Hrows; [exact Hj |].
    apply nth_In. lia.
  - rewrite (nth_overflow matrix) by lia. now destruct j.
Qed.

(** The sum of squares that [distance] takes the root of, when the two
    vectors are the same one. *)
Lemma self_distance_zero (signal : list R) (m tau : Z) (i : nat) :
  (1 <= m)%Z -> (1 <= tau)%Z ->
  (i < Z.to_nat (embedCount signal m tau))%nat ->
  distance (embed signal m tau) m i i = Num 0.
Proof.
  intros Hm Ht Hi. unfold distance.
  assert (Hsum : forall ds acc,
             (forall d, In d ds -> (d < Z.to_nat m)%nat) ->
             fold_left
               (fun dist d =>
                  nadd dist (npow2 (nsub (coord (embed signal m tau) i d)
                                         (coord (embed signal m tau) i d))))
               ds (Num acc) = Num acc).
  { induction ds as [| d ds IH]; intros acc Hds; simpl; [reflexivity |].
    rewrite (embed_coord_sample signal m tau i d Hm Ht Hi)
      by (apply Hds; now left).
    rewrite sqdiff_self. simpl nadd. rewrite Rplus_0_r.
    apply IH. intros d' Hd'. apply Hds. now right. }
  rewrite Hsum by (intros d Hd; now apply upto_In).
  simpl. destruct (Rltb 0 0) eqn:E.
  - apply Rltb_true in E. lra.
  - now rewrite sqrt_0.
Qed.

(** C1. For a threshold [eps >= 0], dimension [m >= 1] and delay [tau >= 1]
    the matrix returned by [computeRecurrenceMatrix] is square, symmetric
    ([R[i][j] = R[j][i]] at all valid indices) and has 1 everywhere on its
    main diagonal. *)
Theorem recurrence_symmetric_unit_diagonal
        (signal : list R) (eps : R) (m tau : Z) :
  0 <= eps -> (1 <= m)%Z -> (1 <= tau)%Z ->
  let matrix := computeRecurrenceMatrix signal eps m tau in
  let n := length matrix in
  isSquare matrix n
  /\ (forall i j, (i < n)%nat -> (j < n)%nat ->
        entry matrix i j = entry matrix j i)
  /\ (forall i, (i < n)%nat -> entry matrix i i = 1%nat).
Proof.
  intros Heps Hm Ht matrix n.
  assert (Hn : n = Z.to_nat (embedCount signal m tau))
    by apply computeRecurrenceMatrix_length.
  split; [| split].
  - rewrite Hn. apply computeRecurrenceMatrix_square.
  - intros i j Hi Hj. rewrite Hn in Hi, Hj. unfold matrix.
    rewrite !entry_computeRecurrenceMatrix by assumption.
    now rewrite distance_sym.
  - intros i Hi. rewrite Hn in Hi. unfold matrix.
    rewrite entry_computeRecurrenceMatrix by assumption.
    rewrite self_distance_zero by assumption.
    simpl. apply Rleb_true in Heps. now rewrite Heps.
Qed.

(** Witness of C1: the signal 0, 1 at threshold 1/2. *)
Lemma recurrence_symmetric_unit_diagonal_witness :
  let matrix := computeRecurrenceMatrix [0; 1] (1 / 2) 1 1 in
  let n := length matrix in
  isSquare matrix n
  /\ (forall i j, (i < n)%nat -> (j < n)%nat ->
        entry matrix i j = entry matrix j i)
  /\ (forall i, (i < n)%nat -> entry matrix i i = 1%nat).
Proof.
  apply (recurrence_symmetric_unit_diagonal [0; 1] (1 / 2) 1 1); [lra | lia | lia].
Defined.

Lemma nle_threshold_mono (d : num) (eps1 eps2 : R) :
  eps1 <= eps2 -> nle d (Num eps1) = true -> nle d (Num eps2) = true.
Proof.
  intros He. destruct d; simpl; try congruence.
  rewrite !Rleb_true. lra.
Qed.

(** Raising the threshold never clears an entry. *)
Lemma entry_threshold_mono (signal : list R) (m tau : Z) (eps1 eps2 : R)
      (i j : nat) :
  eps1 <= eps2 ->
  (entry (computeRecurrenceMatrix signal eps1 m tau) i j
   <= entry (computeRecurrenceMatrix signal eps2 m tau) i j)%nat.
Proof.
  intros He.
  set (n := Z.to_nat (embedCount signal m tau)).
  destruct (Nat.lt_ge_cases i n) as [Hi | Hi];
    [destruct (Nat.lt_ge_cases j n) as [Hj | Hj] |].
  - rewrite !entry_computeRecurrenceMatrix by assumption.
    destruct (nle _ (Num eps1)) eqn:E1.
    + now rewrite (nle_threshold_mono _ _ _ He E1).
    + lia.
  - rewrite (entry_out_of_range _ n i j) by
        (auto using computeRecurrenceMatrix_square).
    lia.
  - rewrite (entry_out_of_range _ n i j) by
        (auto using computeRecurrenceMatrix_square).
    lia.
Qed.

End Recurrence.

(** *** The matrix of a two-sample signal *)

Section RecurrenceExample.

Lemma threshold_test (s eps : R) :
  0 <= s -> nle (nsqrt (Num s)) (Num eps) = Rleb (sqrt s) eps.
Proof.
  intros Hs. simpl. assert (H : Rltb s 0 = false) by (apply Rltb_false; lra).
  now rewrite H.
Qed.

(** Samples 0 and 1 are further apart than 1/2: only the diagonal recurs. *)
Example recurrence_two_samples :
  computeRecurrenceMatrix [0; 1] (1 / 2) 1 1 = [[1; 0]; [0; 1]]%nat.
Proof.
  unfold computeRecurrenceMatrix, embedCount, embed, distance, upto, coord.
  vm_compute Z.to_nat.
  cbn [length map seq nth fold_left readZ readNat nth_error Z.of_nat Z.ltb
       Z.add Z.mul Z.compare Z.to_nat Pos.to_nat Pos.iter_op Nat.add
       Pos.of_succ_nat Pos.succ Pos.mul Pos.add Pos.compare Pos.compare_cont].
  change (Pos.to_nat 1) with 1%nat.
  cbn [readNat nth_error nsub nneg nadd npow2 nmul].
  replace (0 + (0 + - 0) * (0 + - 0)) with 0 by ring.
  replace (0 + (0 + - (1)) * (0 + - (1))) with 1 by ring.
  replace (0 + (1 + - 0) * (1 + - 0)) with 1 by ring.
  replace (0 + (1 + - (1)) * (1 + - (1))) with 0 by ring.
  rewrite !threshold_test by lra. rewrite sqrt_0, sqrt_1.
  assert (H0 : Rleb 0 (1 / 2) = true) by (apply Rleb_true; lra).
  assert (H1 : Rleb 1 (1 / 2) = false) by (apply Rleb_false; lra).
  now rewrite H0, H1.
Qed.

(** A read past the end of the signal poisons the distance: with a negative
    delay the last vector holds NaN and does not even recur with itself. *)
Example recurrence_negative_delay :
  embed [0; 1] 2 (-1) = [[Num 0; NaN]; [Num 1; Num 0]; [NaN; Num 1]]
  /\ entry (computeRecurrenceMatrix [0; 1] 5 2 (-1)) 0 0 = 0%nat.
Proof.
  split; [reflexivity |].
  rewrite entry_computeRecurrenceMatrix by (vm_compute; lia).
  reflexivity.
Qed.

End RecurrenceExample.

(** ** Line-structure extraction *)

Section Scan.

Variable matrix : list (list nat).
Variable minLength : Z.
Variable mkLine : option (nat * nat) -> nat -> Line.t.
Hypothesis minLength_pos : (1 <= minLength)%Z.

Local Abbreviation emitOne := (emitLine minLength mkLine).

Lemma pushIfLong_emitOne (st : ScanState) :
  pushIfLong minLength mkLine st
  = lines st ++ emitOne (lineStart st) (lineLength st).
Proof.
  unfold pushIfLong, emitOne.
  destruct (minLength <=? Z.of_nat (lineLength st))%Z;
    [reflexivity | now rewrite app_nil_r].
Qed.

Lemma emitOne_zero (s : option (nat * nat)) : emitOne s 0 = [].
Proof.
  unfold emitOne. destruct (Z.leb_spec minLength (Z.of_nat 0)); [lia | reflexivity].
Qed.

Lemma segments_cons (r : nat * nat * nat) (rs : list (nat * nat * nat)) :
  segments minLength mkLine (r :: rs)
  = emitOne (Some (fst r)) (snd r) ++ segments minLength mkLine rs.
Proof.
  unfold segments, emitOne. simpl.
  now destruct (minLength <=? Z.of_nat (snd r))%Z.
Qed.

Lemma segments_optCons (h : option (nat * nat * nat)) rs :
  segments minLength mkLine (optCons h rs)
  = match h with
    | Some r => emitOne (Some (fst r)) (snd r)
    | None => []
    end ++ segments minLength mkLine rs.
Proof. destruct h; simpl; [apply segments_cons | reflexivity]. Qed.

(** The scan resumed in any state: the lines already pushed, then the
    pending run joined with the run at the left end of the remaining cells,
    then the remaining runs. *)
Lemma scan_from_state (cells : list (nat * nat)) :
  forall (c : nat) (s : option (nat * nat)) (acc : list Line.t),
    pushIfLong minLength mkLine
      (fold_left (scanCell matrix minLength mkLine) cells (mkScan c s acc))
    = acc ++
      match c with
      | O => segments minLength mkLine (maximalRuns matrix cells)
      | S _ =>
          emitOne s (c + headLength (fst (splitRuns matrix cells)))
          ++ segments minLength mkLine (snd (splitRuns matrix cells))
      end.
Proof.
  induction cells as [| ij rest IH]; intros c s acc.
  - simpl. rewrite pushIfLong_emitOne. simpl.
    destruct c; [now rewrite emitOne_zero |].
    now rewrite Nat.add_0_r, app_nil_r.
  - simpl fold_left. unfold scanCell at 2. simpl lineLength. simpl lineStart.
    simpl lines. unfold maximalRuns. simpl splitRuns.
    destruct (splitRuns matrix rest) as [h rs] eqn:Hsplit.
    destruct (isOne matrix ij) eqn:Hone.
    + rewrite IH. simpl fst. simpl snd. f_equal.
      destruct c as [| c'].
      * simpl Nat.eqb. cbv iota. simpl optCons. rewrite segments_cons. simpl.
        destruct h as [[? ?] |]; reflexivity.
      * simpl Nat.eqb. cbv iota.
        replace (S (S c') + headLength h)%nat
          with (S c' + S (headLength h))%nat by lia.
        destruct h as [[? ?] |]; reflexivity.
    + rewrite IH. unfold maximalRuns. rewrite Hsplit.
      rewrite pushIfLong_emitOne. simpl lines. simpl lineStart.
      simpl lineLength. simpl fst. simpl snd.
      rewrite <- app_assoc. f_equal.
      destruct c as [| c'].
      * now rewrite emitOne_zero.
      * simpl headLength. now rewrite Nat.add_0_r.
Qed.

Lemma scanLine_segments (cells : list (nat * nat)) (acc : list Line.t) :
  scanLine matrix minLength mkLine cells acc
  = acc ++ segments minLength mkLine (maximalRuns matrix cells).
Proof. unfold scanLine. apply scan_from_state. Qed.

End Scan.

Section Runs.

(** *** Maximal runs in a bit sequence, one bit at a time *)

Lemma maximalRun_shift (b : bool) (bits : list bool) (s l : nat) :
  isMaximalRun (b :: bits) (S (S s)) l <-> isMaximalRun bits (S s) l.
Proof.
  unfold isMaximalRun. split; intros (H1 & H2 & H3 & H4).
  - repeat split; [exact H1 | | | exact H4].
    + intros p Hp. apply (H2 (S p)). lia.
    + intros p Hp. apply (H3 (S p)). lia.
  - repeat split; [exact H1 | | | exact H4].
    + intros [| p] Hp; [lia |]. simpl. apply H2. lia.
    + intros [| p] Hp; [lia |]. simpl. apply H3. lia.
Qed.

Lemma maximalRun_after_first (b : bool) (bits : list bool) (l : nat) :
  isMaximalRun (b :: bits) 1 l <-> b = false /\ isMaximalRun bits 0 l.
Proof.
  unfold isMaximalRun. split.
  - intros (H1 & H2 & H3 & H4). split; [apply (H3 0%nat); reflexivity |].
    repeat split; [exact H1 | | | exact H4].
    + intros p Hp. apply (H2 (S p)). lia.
    + intros p Hp. lia.
  - intros (Hb & H1 & H2 & H3 & H4).
    repeat split; [exact H1 | | | exact H4].
    + intros [| p] Hp; [lia |]. simpl. apply H2. lia.
    + intros p Hp. assert (p = 0%nat) by lia. subst p. exact Hb.
Qed.

Lemma maximalRun_at_first (b : bool) (bits : list bool) (l : nat) :
  isMaximalRun (b :: bits) 0 l <->
  b = true /\ ((l = 1%nat /\ nth 0 bits false = false)
               \/ exists l', l = S l' /\ isMaximalRun bits 0 l').
Proof.
  unfold isMaximalRun. split.
  - intros (H1 & H2 & H3 & H4). split; [apply (H2 0%nat); lia |].
    destruct l as [| [| l']]; [lia | left | right].
    + split; [reflexivity | exact H4].
    + exists (S l'). split; [reflexivity |].
      repeat split; [lia | | | exact H4].
      * intros p Hp. apply (H2 (S p)). lia.
      * intros p Hp. lia.
  - intros (Hb & [[-> H0] | (l' & -> & H1 & H2 & H3 & H4)]).
    + repeat split; [lia | | | exact H0].
      * intros p Hp. assert (p = 0%nat) by lia. subst p. exact Hb.
      * intros p Hp. lia.
    + repeat split; [lia | | | exact H4].
      * intros [| p] Hp; [exact Hb |]. simpl. apply H2. lia.
      * intros p Hp. lia.
Qed.

Variable matrix : list (list nat).

Local Abbreviation bitsOf cells := (map (isOne matrix) cells).

Lemma splitRuns_head_none (cells : list (nat * nat)) :
  fst (splitRuns matrix cells) = None <-> nth 0 (bitsOf cells) false = false.
Proof.
  destruct cells as [| ij rest]; simpl; [tauto |].
  destruct (splitRuns matrix rest) as [h rs].
  destruct (isOne matrix ij); simpl; split; congruence.
Qed.

(** The first component of [splitRuns] is the maximal run at position 0. *)
Lemma splitRuns_head (cells : list (nat * nat)) :
  forall ij l,
    fst (splitRuns matrix cells) = Some (ij, l) <->
    nth_error cells 0 = Some ij /\ isMaximalRun (bitsOf cells) 0 l.
Proof.
  induction cells as [| c rest IH]; intros ij l.
  - simpl. split; [discriminate | intros [H _]; discriminate].
  - pose proof (splitRuns_head_none rest) as Hnone.
    simpl map. rewrite maximalRun_at_first. simpl nth_error. simpl splitRuns.
    destruct (splitRuns matrix rest) as [h rs] eqn:Hsplit. simpl fst in *.
    destruct (isOne matrix c) eqn:Hone; simpl fst.
    + split.
      * intros Heq. inversion Heq; subst. split; [reflexivity |].
        split; [reflexivity |].
        destruct h as [[ij' l'] |].
        -- right. exists l'. split; [reflexivity |]. now apply (IH ij' l').
        -- left. split; [reflexivity |]. now apply Hnone.
      * intros (Hij & _ & [[-> H0] | (l' & -> & Hrun)]).
        -- apply Hnone in H0. subst h. congruence.
        -- assert (Hfirst : exists ij', nth_error rest 0 = Some ij').
           { destruct rest as [| ij' rest']; [| now exists ij'].
             destruct Hrun as (Hl & Hall & _). specialize (Hall 0%nat).
             simpl in Hall. assert (false = true) by (apply Hall; lia).
             discriminate. }
           destruct Hfirst as [ij' Hij'].
           assert (Hh : h = Some (ij', l')) by (apply IH; now split).
           subst h. congruence.
    + split; [discriminate | intros (_ & Hb & _); discriminate].
Qed.

(** The second component holds the maximal runs at the later positions. *)
Lemma splitRuns_tail (cells : list (nat * nat)) :
  forall ij l,
    In (ij, l) (snd (splitRuns matrix cells)) <->
    exists s, nth_error cells (S s) = Some ij
              /\ isMaximalRun (bitsOf cells) (S s) l.
Proof.
  induction cells as [| c rest IH]; intros ij l.
  - simpl. split; [tauto | intros [s [H _]]; discriminate].
  - pose proof (splitRuns_head rest ij l) as Hhead.
    simpl splitRuns. simpl map.
    destruct (splitRuns matrix rest) as [h rs] eqn:Hsplit.
    simpl fst in *. simpl snd in *.
    destruct (isOne matrix c) eqn:Hone; simpl snd.
    + rewrite IH. split.
      * intros (s & Hs & Hrun). exists (S s). split; [exact Hs |].
        now apply (proj2 (maximalRun_shift _ _ _ _)).
      * intros ([| s] & Hs & Hrun).
        -- apply (proj1 (maximalRun_after_first _ _ _)) in Hrun. destruct Hrun; discriminate.
        -- exists s. split; [exact Hs |]. now apply (proj1 (maximalRun_shift _ _ _ _)) in Hrun.
    + split.
      * intros Hin.
        assert (Hcases : h = Some (ij, l) \/ In (ij, l) rs).
        { destruct h; simpl in Hin; [destruct Hin as [-> | Hin] |]; auto. }
        destruct Hcases as [Hh | Hrs].
        -- apply Hhead in Hh. destruct Hh as [Hij Hrun].
           exists 0%nat. split; [exact Hij |].
           apply (proj2 (maximalRun_after_first _ _ _)). now split.
        -- apply IH in Hrs. destruct Hrs as (s & Hs & Hrun).
           exists (S s). split; [exact Hs |]. now apply (proj2 (maximalRun_shift _ _ _ _)).
      * intros ([| s] & Hs & Hrun).
        -- apply (proj1 (maximalRun_after_first _ _ _)) in Hrun. destruct Hrun as [_ Hrun].
           assert (Hh : h = Some (ij, l)) by (apply Hhead; now split).
           subst h. now left.
        -- apply (proj1 (maximalRun_shift _ _ _ _)) in Hrun.
           assert (Hrs : In (ij, l) rs) by (apply IH; now exists s).
           destruct h; [now right | exact Hrs].
Qed.

(** [maximalRuns] lists exactly the maximal runs of the cell sequence. *)
Lemma maximalRuns_spec (cells : list (nat * nat)) (ij : nat * nat) (l : nat) :
  In (ij, l) (maximalRuns matrix cells) <->
  exists s, nth_error cells s = Some ij /\ isMaximalRun (bitsOf cells) s l.
Proof.
  unfold maximalRuns.
  pose proof (splitRuns_head cells ij l) as Hhead.
  pose proof (splitRuns_tail cells ij l) as Htail.
  destruct (splitRuns matrix cells) as [h rs]. simpl fst in *. simpl snd in *.
  split.
  - intros Hin.
    assert (Hcases : h = Some (ij, l) \/ In (ij, l) rs).
    { destruct h; simpl in Hin; [destruct Hin as [-> | Hin] |]; auto. }
    destruct Hcases as [Hh | Hrs].
    + exists 0%nat. now apply Hhead.
    + apply Htail in Hrs. destruct Hrs as (s & Hs). now exists (S s).
  - intros ([| s] & Hs & Hrun).
    + assert (Hh : h = Some (ij, l)) by (apply Hhead; now split).
      subst h. now left.
    + assert (Hrs : In (ij, l) rs) by (apply Htail; now exists s).
      destruct h; [now right | exact Hrs].
Qed.

End Runs.

Section Segments.

Variable matrix : list (list nat).
Variable minLength : Z.

(** Membership in [segments] is the relation [isSegment]. *)
Lemma In_segments (mkLine : option (nat * nat) -> nat -> Line.t)
      (cells : list (nat * nat)) (line : Line.t) :
  In line (segments minLength mkLine (maximalRuns matrix cells))
  <-> isSegment matrix minLength mkLine cells line.
Proof.
  unfold segments, isSegment. rewrite in_map_iff. split.
  - intros ([ij l] & <- & Hin). apply filter_In in Hin.
    destruct Hin as [Hrun Hlen]. simpl in Hlen. apply Z.leb_le in Hlen.
    apply maximalRuns_spec in Hrun. destruct Hrun as (s & Hs & Hrun).
    exists s, l, ij. auto.
  - intros (s & l & ij & Hrun & Hlen & Hs & ->).
    exists (ij, l). split; [reflexivity |].
    apply filter_In. split.
    + apply maximalRuns_spec. now exists s.
    + simpl. now apply Z.leb_le.
Qed.

(** A maximal run fits in its cell sequence. *)
Lemma maximalRun_within (bits : list bool) (s l : nat) :
  isMaximalRun bits s l -> (s + l <= length bits)%nat.
Proof.
  intros (Hl & Hall & _).
  destruct (Nat.le_gt_cases (s + l) (length bits)) as [H | H]; [exact H |].
  specialize (Hall (s + l - 1)%nat).
  rewrite nth_overflow in Hall by lia.
  assert (false = true) by (apply Hall; lia). discriminate.
Qed.

Lemma segment_length_bound (mkLine : option (nat * nat) -> nat -> Line.t)
      (cells : list (nat * nat)) (line : Line.t) :
  isSegment matrix minLength mkLine cells line ->
  (minLength <= Z.of_nat (length cells))%Z.
Proof.
  intros (s & l & ij & Hrun & Hlen & _).
  apply maximalRun_within in Hrun. rewrite length_map in Hrun. lia.
Qed.

(** *** Each run is reported once *)

Lemma run_start_in_cells (cells : list (nat * nat)) (r : nat * nat * nat) :
  In r (maximalRuns matrix cells) -> In (fst r) cells.
Proof.
  destruct r as [ij l]. intros Hin. apply maximalRuns_spec in Hin.
  destruct Hin as (s & Hs & _). simpl. now apply nth_error_In in Hs.
Qed.

Lemma NoDup_optCons_tail {A : Type} (f : A -> nat * nat) (h : option A) rs :
  NoDup (map f (optCons h rs)) -> NoDup (map f rs).
Proof.
  destruct h; simpl; [| tauto]. intros H. now inversion H.
Qed.

Lemma maximalRuns_starts_NoDup (cells : list (nat * nat)) :
  NoDup cells -> NoDup (map fst (maximalRuns matrix cells)).
Proof.
  induction cells as [| c rest IH]; intros Hnd.
  - simpl. constructor.
  - inversion Hnd as [| ? ? Hnotin Hrest]; subst.
    specialize (IH Hrest).
    pose proof (run_start_in_cells rest) as Hstarts.
    unfold maximalRuns in *. simpl splitRuns.
    destruct (splitRuns matrix rest) as [h rs]. simpl fst in *. simpl snd in *.
    destruct (isOne matrix c); simpl fst; simpl snd.
    + simpl. constructor.
      * intros Hin. apply in_map_iff in Hin. destruct Hin as (r & Hr & Hin).
        apply Hnotin. rewrite <- Hr. apply Hstarts.
        destruct h; [now right | exact Hin].
      * now apply NoDup_optCons_tail in IH.
    + exact IH.
Qed.

Lemma NoDup_map_fst_filter {A B : Type} (P : A * B -> bool) (l : list (A * B)) :
  NoDup (map fst l) -> NoDup (map fst (filter P l)).
Proof.
  induction l as [| x l IH]; simpl; intros H; [constructor |].
  inversion H as [| ? ? Hnotin Hl]; subst.
  destruct (P x); [| now apply IH].
  simpl. constructor; [| now apply IH].
  intros Hin. apply Hnotin. apply in_map_iff in Hin.
  destruct Hin as (y & Hy & Hin). apply filter_In in Hin.
  rewrite <- Hy. apply in_map. tauto.
Qed.

Lemma NoDup_map_Some {A : Type} (l : list A) : NoDup l -> NoDup (map Some l).
Proof.
  induction 1 as [| x l Hnotin Hl IH]; simpl; constructor; [| exact IH].
  intros Hin. apply in_map_iff in Hin. destruct Hin as (y & Hy & Hin).
  congruence.
Qed.

Lemma segments_NoDup (mkLine : option (nat * nat) -> nat -> Line.t)
      (cells : list (nat * nat)) :
  (forall s l, Line.start (mkLine s l) = s) ->
  NoDup cells ->
  NoDup (segments minLength mkLine (maximalRuns matrix cells)).
Proof.
  intros Hstart Hnd. apply (NoDup_map_inv Line.start).
  unfold segments. rewrite map_map.
  rewrite (map_ext _ (fun r => Some (fst r))) by (intros r; apply Hstart).
  rewrite <- map_map. apply NoDup_map_Some.
  apply NoDup_map_fst_filter. now apply maximalRuns_starts_NoDup.
Qed.

Lemma NoDup_flat_map_disjoint {A B : Type} (f : A -> list B) (ks : list A) :
  NoDup ks ->
  (forall k, In k ks -> NoDup (f k)) ->
  (forall k k' x, In k ks -> In k' ks -> In x (f k) -> In x (f k') -> k = k') ->
  NoDup (flat_map f ks).
Proof.
  induction 1 as [| k ks Hnotin Hks IH]; intros Hnd Hdisj; simpl.
  - constructor.
  - apply NoDup_app.
    + apply Hnd. now left.
    + apply IH.
      * intros k' Hk'. apply Hnd. now right.
      * intros k1 k2 x H1 H2. apply Hdisj; now right.
    + intros x Hx Hin. apply in_flat_map in Hin. destruct Hin as (k' & Hk' & Hx').
      assert (k = k') by (apply (Hdisj k k' x); auto using in_eq, in_cons).
      subst k'. contradiction.
Qed.

Lemma NoDup_map_seq {A : Type} (f : nat -> A) (start len : nat) :
  (forall a b, f a = f b -> a = b) -> NoDup (map f (seq start len)).
Proof.
  intros Hinj. revert start. induction len as [| len IH]; intros start; simpl.
  - constructor.
  - constructor; [| apply IH].
    intros Hin. apply in_map_iff in Hin. destruct Hin as (b & Hb & Hin).
    apply Hinj in Hb. apply in_seq in Hin. lia.
Qed.

Lemma column_NoDup (n j : nat) : NoDup (column n j).
Proof. apply NoDup_map_seq. intros a b H. now inversion H. Qed.

Lemma row_NoDup (n i : nat) : NoDup (row n i).
Proof. apply NoDup_map_seq. intros a b H. now inversion H. Qed.

Lemma upperDiag_NoDup (n k : nat) : NoDup (upperDiag n k).
Proof. apply NoDup_map_seq. intros a b H. now inversion H. Qed.

Lemma lowerDiag_NoDup (n k : nat) : NoDup (lowerDiag n k).
Proof. apply NoDup_map_seq. intros a b H. now inversion H. Qed.

Lemma segment_start_in_cells (mkLine : option (nat * nat) -> nat -> Line.t)
      (cells : list (nat * nat)) (line : Line.t) :
  (forall s l, Line.start (mkLine s l) = s) ->
  isSegment matrix minLength mkLine cells line ->
  exists ij, Line.start line = Some ij /\ In ij cells.
Proof.
  intros Hstart (s & l & ij & _ & _ & Hs & ->).
  exists ij. split; [apply Hstart | now apply nth_error_In in Hs].
Qed.

End Segments.

Section Extractors.

Variable matrix : list (list nat).
Variable minLength : Z.
Hypothesis minLength_pos : (1 <= minLength)%Z.

Local Abbreviation n := (length matrix).

(** An outer loop of scans appends, scan after scan, the segments of the
    scanned cell sequences. *)
Lemma scans_flat_map {K : Type} (mk : K -> option (nat * nat) -> nat -> Line.t)
      (cellsOf : K -> list (nat * nat)) (ks : list K) :
  forall acc,
    fold_left (fun acc k => scanLine matrix minLength (mk k) (cellsOf k) acc)
              ks acc
    = acc ++ flat_map (fun k => segments minLength (mk k)
                                         (maximalRuns matrix (cellsOf k))) ks.
Proof.
  induction ks as [| k ks IH]; intros acc; simpl.
  - now rewrite app_nil_r.
  - rewrite IH, scanLine_segments by exact minLength_pos.
    now rewrite app_assoc.
Qed.

Lemma findVerticalLines_runs :
  findVerticalLines matrix minLength
  = flat_map (fun j => segments minLength vertLine
                                (maximalRuns matrix (column n j)))
             (seq 0 n).
Proof.
  unfold findVerticalLines.
  exact (scans_flat_map (fun _ => vertLine) (column n) (seq 0 n) []).
Qed.

Lemma findHorizontalLines_runs :
  findHorizontalLines matrix minLength
  = flat_map (fun i => segments minLength horizLine
                                (maximalRuns matrix (row n i)))
             (seq 0 n).
Proof.
  unfold findHorizontalLines.
  exact (scans_flat_map (fun _ => horizLine) (row n) (seq 0 n) []).
Qed.

Lemma findDiagonalLines_runs :
  findDiagonalLines matrix minLength
  = flat_map (fun k => segments minLength (diagLine (Z.of_nat k))
                                (maximalRuns matrix (upperDiag n k)))
             (seq 1 (n - 1))
    ++ flat_map (fun k => segments minLength (diagLine (- Z.of_nat k))
                                   (maximalRuns matrix (lowerDiag n k)))
                (seq 1 (n - 1)).
Proof.
  unfold findDiagonalLines.
  rewrite (scans_flat_map (fun k => diagLine (- Z.of_nat k)) (lowerDiag n)).
  f_equal.
  exact (scans_flat_map (fun k => diagLine (Z.of_nat k)) (upperDiag n)
                        (seq 1 (n - 1)) []).
Qed.

Lemma In_flat_map_segments {K : Type}
      (mk : K -> option (nat * nat) -> nat -> Line.t)
      (cellsOf : K -> list (nat * nat)) (ks : list K) (line : Line.t) :
  In line (flat_map (fun k => segments minLength (mk k)
                                       (maximalRuns matrix (cellsOf k))) ks)
  <-> exists k, In k ks /\ isSegment matrix minLength (mk k) (cellsOf k) line.
Proof.
  rewrite in_flat_map. split; intros (k & Hk & H); exists k; split; auto;
    now apply In_segments.
Qed.

Lemma vertical_lines_NoDup : NoDup (findVerticalLines matrix minLength).
Proof.
  rewrite findVerticalLines_runs. apply NoDup_flat_map_disjoint.
  - apply seq_NoDup.
  - intros j _. apply segments_NoDup; [reflexivity | apply column_NoDup].
  - intros j j' line _ _ H H'. apply In_segments in H, H'.
    apply segment_start_in_cells in H; [| reflexivity].
    apply segment_start_in_cells in H'; [| reflexivity].
    destruct H as (ij & Hs & Hin), H' as (ij' & Hs' & Hin').
    unfold column in Hin, Hin'. apply in_map_iff in Hin, Hin'.
    destruct Hin as (a & <- & _), Hin' as (a' & <- & _). congruence.
Qed.

Lemma horizontal_lines_NoDup : NoDup (findHorizontalLines matrix minLength).
Proof.
  rewrite findHorizontalLines_runs. apply NoDup_flat_map_disjoint.
  - apply seq_NoDup.
  - intros i _. apply segments_NoDup; [reflexivity | apply row_NoDup].
  - intros i i' line _ _ H H'. apply In_segments in H, H'.
    apply segment_start_in_cells in H; [| reflexivity].
    apply segment_start_in_cells in H'; [| reflexivity].
    destruct H as (ij & Hs & Hin), H' as (ij' & Hs' & Hin').
    unfold row in Hin, Hin'. apply in_map_iff in Hin, Hin'.
    destruct Hin as (a & <- & _), Hin' as (a' & <- & _). congruence.
Qed.

Lemma segment_k (k : Z) (cells : list (nat * nat)) (line : Line.t) :
  isSegment matrix minLength (diagLine k) cells line -> Line.k line = Some k.
Proof. intros (s & l & ij & _ & _ & _ & ->). reflexivity. Qed.

Lemma diagonal_lines_NoDup : NoDup (findDiagonalLines matrix minLength).
Proof.
  rewrite findDiagonalLines_runs. apply NoDup_app.
  - apply NoDup_flat_map_disjoint.
    + apply seq_NoDup.
    + intros k _. apply segments_NoDup; [reflexivity | apply upperDiag_NoDup].
    + intros k k' line _ _ H H'. apply In_segments in H, H'.
      apply segment_k in H, H'. rewrite H in H'. inversion H'. lia.
  - apply NoDup_flat_map_disjoint.
    + apply seq_NoDup.
    + intros k _. apply segments_NoDup; [reflexivity | apply lowerDiag_NoDup].
    + intros k k' line _ _ H H'. apply In_segments in H, H'.
      apply segment_k in H, H'. rewrite H in H'. inversion H'. lia.
  - intros line H H'. apply In_flat_map_segments in H, H'.
    destruct H as (k & Hk & H), H' as (k' & Hk' & H').
    apply segment_k in H, H'. rewrite H in H'. inversion H'.
    apply in_seq in Hk, Hk'. lia.
Qed.

Lemma extractors_spec : extractsMaximalRuns matrix minLength.
Proof.
  unfold extractsMaximalRuns. repeat split.
  - rewrite findDiagonalLines_runs, in_app_iff, !In_flat_map_segments.
    intros [(k & Hk & H) | (k & Hk & H)]; exists k; apply in_seq in Hk;
      (split; [lia | tauto]).
  - rewrite findDiagonalLines_runs, in_app_iff, !In_flat_map_segments.
    intros (k & Hk & [H | H]); [left | right]; exists k;
      (split; [apply in_seq; lia | exact H]).
  - rewrite findVerticalLines_runs, In_flat_map_segments.
    intros (j & Hj & H). exists j. apply in_seq in Hj. split; [lia | exact H].
  - rewrite findVerticalLines_runs, In_flat_map_segments.
    intros (j & Hj & H). exists j. split; [apply in_seq; lia | exact H].
  - rewrite findHorizontalLines_runs, In_flat_map_segments.
    intros (i & Hi & H). exists i. apply in_seq in Hi. split; [lia | exact H].
  - rewrite findHorizontalLines_runs, In_flat_map_segments.
    intros (i & Hi & H). exists i. split; [apply in_seq; lia | exact H].
  - exact diagonal_lines_NoDup.
  - exact vertical_lines_NoDup.
  - exact horizontal_lines_NoDup.
Qed.

End Extractors.

Lemma empty_of_no_member {A : Type} (l : list A) :
  (forall x, ~ In x l) -> l = [].
Proof.
  destruct l as [| x l]; [reflexivity |].
  intros H. exfalso. apply (H x). now left.
Qed.

Lemma cells_lengths (n k : nat) :
  length (column n k) = n /\ length (row n k) = n
  /\ (length (upperDiag n k) <= n)%nat /\ (length (lowerDiag n k) <= n)%nat.
Proof.
  unfold column, row, upperDiag, lowerDiag.
  rewrite !length_map, !length_seq. lia.
Qed.

(** C7.  For every matrix and every minimum length from 1 on (the
    component offers 2 to 5), each extractor returns exactly the segments of
    the maximal runs of 1s of length at least [minLength] along its
    orientation (diagonals at every offset [k] on both sides, columns,
    rows), each once; a run counts only as a whole, closed by a 0 or by the
    end of the scan.  Hence no segment is returned when [minLength] exceeds
    the size of the matrix. *)
Theorem extractors_return_maximal_runs
        (matrix : list (list nat)) (minLength : Z) :
  (1 <= minLength)%Z ->
  extractsMaximalRuns matrix minLength
  /\ ((Z.of_nat (length matrix) < minLength)%Z ->
      findDiagonalLines matrix minLength = []
      /\ findVerticalLines matrix minLength = []
      /\ findHorizontalLines matrix minLength = []).
Proof.
  intros Hmin.
  pose proof (extractors_spec matrix minLength Hmin) as Hspec.
  split; [exact Hspec |].
  intros Hbig. destruct Hspec as (Hd & Hv & Hh & _).
  repeat split; apply empty_of_no_member; intros line Hin.
  - apply Hd in Hin. destruct Hin as (k & _ & [H | H]);
      apply segment_length_bound in H;
      pose proof (cells_lengths (length matrix) k); lia.
  - apply Hv in Hin. destruct Hin as (j & _ & H).
    apply segment_length_bound in H.
    pose proof (cells_lengths (length matrix) j); lia.
  - apply Hh in Hin. destruct Hin as (i & _ & H).
    apply segment_length_bound in H.
    pose proof (cells_lengths (length matrix) i); lia.
Qed.

(** Witness of C7: a 3 by 3 matrix with two diagonal lines of length 2,
    [minLength = 2]. *)
Lemma extractors_return_maximal_runs_witness :
  let M := [[1; 1; 0]; [1; 1; 1]; [0; 1; 1]]%nat in
  findDiagonalLines M 2
  = [diagLine 1 (Some (0, 1)%nat) 2; diagLine (-1) (Some (1, 0)%nat) 2]
  /\ extractsMaximalRuns M 2
  /\ ((Z.of_nat (length M) < 2)%Z ->
      findDiagonalLines M 2 = []
      /\ findVerticalLines M 2 = []
      /\ findHorizontalLines M 2 = []).
Proof.
  split; [reflexivity |].
  apply (extractors_return_maximal_runs
           [[1; 1; 0]; [1; 1; 1]; [0; 1; 1]]%nat 2).
  lia.
Defined.

(** *** The extractors on a 3 by 3 matrix *)

Example findDiagonalLines_3x3 :
  findDiagonalLines [[1; 1; 0]; [1; 1; 1]; [0; 1; 1]]%nat 2
  = [diagLine 1 (Some (0, 1)%nat) 2; diagLine (-1) (Some (1, 0)%nat) 2].
Proof. reflexivity. Qed.

Example findVerticalLines_3x3 :
  findVerticalLines [[1; 1; 0]; [1; 1; 1]; [0; 1; 1]]%nat 2
  = [vertLine (Some (0, 0)%nat) 2; vertLine (Some (0, 1)%nat) 3;
     vertLine (Some (1, 2)%nat) 2].
Proof. reflexivity. Qed.

Example findHorizontalLines_3x3 :
  findHorizontalLines [[1; 1; 0]; [1; 1; 1]; [0; 1; 1]]%nat 3
  = [horizLine (Some (1, 0)%nat) 3].
Proof. reflexivity. Qed.

(** The component offers minimum lengths 2 to 5.  With [minLength = 0],
    outside that range, every closed scan position pushes a line, also where
    no run is pending. *)
Example findVerticalLines_zero_minLength :
  findVerticalLines [[1; 0]; [0; 1]]%nat 0
  = [vertLine (Some (0, 0)%nat) 1; vertLine (Some (0, 0)%nat) 0;
     vertLine None 0; vertLine (Some (1, 1)%nat) 1].
Proof. reflexivity. Qed.

(** ** RQA measures *)

Section Counting.

Lemma count_inner (test : nat * nat -> bool) (i : nat) (js : list nat) :
  forall acc,
    fold_left (fun acc j => if test (i, j) then S acc else acc) js acc
    = (acc + length (filter test (map (pair i) js)))%nat.
Proof.
  induction js as [| j js IH]; intros acc; simpl; [lia |].
  rewrite IH. destruct (test (i, j)); simpl; lia.
Qed.

(** A counting loop nest counts the cells of its cell list that pass the
    test. *)
Lemma countCells_filter (test : nat * nat -> bool) (n : nat)
      (cols : nat -> list nat) :
  countCells test n cols = length (filter test (cellList n cols)).
Proof.
  unfold countCells, cellList.
  assert (H : forall idxs acc,
             fold_left
               (fun acc i =>
                  fold_left (fun acc j => if test (i, j) then S acc else acc)
                            (cols i) acc) idxs acc
             = (acc + length (filter test
                                     (flat_map (fun i => map (pair i) (cols i)) idxs)))%nat).
  { induction idxs as [| i idxs IH]; intros acc; simpl; [lia |].
    rewrite IH, count_inner, filter_app, length_app. lia. }
  now rewrite H.
Qed.

Lemma cellList_length_full (n : nat) :
  length (cellList n (fun _ => seq 0 n)) = (n * n)%nat.
Proof.
  unfold cellList. rewrite length_flat_map.
  assert (H : forall idxs : list nat, list_sum (map (fun i : nat => length (map (pair i) (seq 0 n))) idxs)
                         = (length idxs * n)%nat).
  { induction idxs as [| i idxs IH]; simpl; [reflexivity |].
    rewrite IH, length_map, length_seq. lia. }
  rewrite H, length_seq. reflexivity.
Qed.

Lemma filter_length_le {A : Type} (f : A -> bool) (l : list A) :
  (length (filter f l) <= length l)%nat.
Proof.
  induction l as [| x l IH]; simpl; [lia |]. destruct (f x); simpl; lia.
Qed.

(** Counting with a test that implies another, over the same cells. *)
Lemma filter_length_mono {A : Type} (f g : A -> bool) (l : list A) :
  (forall x, f x = true -> g x = true) ->
  (length (filter f l) <= length (filter g l))%nat.
Proof.
  intros Hfg. induction l as [| x l IH]; simpl; [lia |].
  destruct (f x) eqn:Hf.
  - rewrite (Hfg x Hf). simpl. lia.
  - destruct (g x); simpl; lia.
Qed.

(** Counting over a duplicate-free cell list that lies inside another. *)
Lemma filter_length_incl {A : Type} (f : A -> bool) (l l' : list A) :
  NoDup l -> incl l l' ->
  (length (filter f l) <= length (filter f l'))%nat.
Proof.
  intros Hnd Hincl. apply NoDup_incl_length.
  - now apply NoDup_filter.
  - intros x Hx. apply filter_In in Hx. apply filter_In.
    split; [apply Hincl |]; tauto.
Qed.

Lemma sumLengths_list_sum (ls : list Line.t) :
  sumLengths ls = list_sum (map Line.length ls).
Proof.
  unfold sumLengths.
  assert (H : forall acc,
             fold_left (fun sum line => (sum + Line.length line)%nat) ls acc
             = (acc + list_sum (map Line.length ls))%nat).
  { induction ls as [| l ls IH]; intros acc; simpl; [lia |].
    rewrite IH. lia. }
  now rewrite H.
Qed.

Lemma sumLengths_app (l1 l2 : list Line.t) :
  sumLengths (l1 ++ l2) = (sumLengths l1 + sumLengths l2)%nat.
Proof. now rewrite !sumLengths_list_sum, map_app, list_sum_app. Qed.

End Counting.

Section RunTotals.

Variable matrix : list (list nat).
Variable minLength : Z.

(** The maximal runs of a cell sequence cover its 1-cells, each once. *)
Lemma maximalRuns_total (cells : list (nat * nat)) :
  list_sum (map snd (maximalRuns matrix cells))
  = length (filter (isOne matrix) cells).
Proof.
  unfold maximalRuns.
  assert (H : forall h rs,
             list_sum (map snd (optCons h rs))
             = (headLength h + list_sum (map snd rs))%nat).
  { intros [[ij l] |] rs; reflexivity. }
  induction cells as [| c rest IH]; [reflexivity |].
  simpl splitRuns. simpl filter. rewrite H in IH.
  destruct (splitRuns matrix rest) as [h rs]. simpl fst in *. simpl snd in *.
  destruct (isOne matrix c); simpl fst; simpl snd.
  - simpl. rewrite <- IH. destruct h as [[? ?] |]; simpl; lia.
  - simpl. rewrite <- IH. destruct h as [[? ?] |]; simpl; lia.
Qed.

Lemma segments_sum_le (mkLine : option (nat * nat) -> nat -> Line.t)
      (runs : list (nat * nat * nat)) :
  (forall s l, Line.length (mkLine s l) = l) ->
  (sumLengths (segments minLength mkLine runs) <= list_sum (map snd runs))%nat.
Proof.
  intros Hlen. rewrite sumLengths_list_sum. unfold segments.
  induction runs as [| r runs IH]; simpl; [lia |].
  destruct (minLength <=? Z.of_nat (snd r))%Z; simpl; [rewrite Hlen |]; lia.
Qed.

(** The lines of a family of scans hold no more cells than the scanned
    sequences hold 1-cells. *)
Lemma flat_map_segments_sum_le {K : Type}
      (mk : K -> option (nat * nat) -> nat -> Line.t)
      (cellsOf : K -> list (nat * nat)) (ks : list K) :
  (forall k s l, Line.length (mk k s l) = l) ->
  (sumLengths (flat_map (fun k => segments minLength (mk k)
                                           (maximalRuns matrix (cellsOf k))) ks)
   <= length (filter (isOne matrix) (flat_map cellsOf ks)))%nat.
Proof.
  intros Hlen. induction ks as [| k ks IH]; simpl; [apply Nat.le_refl |].
  rewrite sumLengths_app, filter_app, length_app.
  pose proof (segments_sum_le (mk k) (maximalRuns matrix (cellsOf k)) (Hlen k)) as H.
  rewrite maximalRuns_total in H. lia.
Qed.

End RunTotals.

Section Bounds.

Lemma filter_all {A : Type} (P : A -> bool) (l : list A) :
  (forall x, In x l -> P x = true) -> filter P l = l.
Proof.
  induction l as [| x l IH]; intros H; simpl; [reflexivity |].
  rewrite (H x) by now left. f_equal. apply IH. intros y Hy. apply H. now right.
Qed.

Lemma filter_none {A : Type} (P : A -> bool) (l : list A) :
  (forall x, In x l -> P x = false) -> filter P l = [].
Proof.
  induction l as [| x l IH]; intros H; simpl; [reflexivity |].
  rewrite (H x) by now left. apply IH. intros y Hy. apply H. now right.
Qed.

Variable matrix : list (list nat).
Variable minLength : Z.
Hypothesis minLength_pos : (1 <= minLength)%Z.

Local Abbreviation n := (length matrix).

(** The filter [line.k > 0] keeps the lines of the first diagonal loop and
    drops those of the second. *)
Lemma upper_diagonal_lines :
  filter kPositive (findDiagonalLines matrix minLength)
  = flat_map (fun k => segments minLength (diagLine (Z.of_nat k))
                                (maximalRuns matrix (upperDiag n k)))
             (seq 1 (n - 1)).
Proof.
  rewrite findDiagonalLines_runs by exact minLength_pos.
  rewrite filter_app, filter_all, filter_none; [apply app_nil_r | |].
  - intros line Hin. apply In_flat_map_segments in Hin.
    destruct Hin as (k & Hk & H). apply segment_k in H.
    unfold kPositive. rewrite H. apply in_seq in Hk.
    apply Z.ltb_ge. lia.
  - intros line Hin. apply In_flat_map_segments in Hin.
    destruct Hin as (k & Hk & H). apply segment_k in H.
    unfold kPositive. rewrite H. apply in_seq in Hk.
    apply Z.ltb_lt. lia.
Qed.

Lemma upper_diagonals_NoDup : NoDup (flat_map (upperDiag n) (seq 1 (n - 1))).
Proof.
  apply NoDup_flat_map_disjoint.
  - apply seq_NoDup.
  - intros k _. apply upperDiag_NoDup.
  - intros k k' [i j] _ _ H H'. unfold upperDiag in H, H'.
    apply in_map_iff in H, H'.
    destruct H as (a & Ha & _), H' as (a' & Ha' & _).
    inversion Ha. inversion Ha'. lia.
Qed.

Lemma upper_diagonals_incl :
  incl (flat_map (upperDiag n) (seq 1 (n - 1)))
       (cellList n (fun i => seq (S i) (n - S i))).
Proof.
  intros [i j] Hin. apply in_flat_map in Hin. destruct Hin as (k & Hk & Hin).
  unfold upperDiag in Hin. apply in_map_iff in Hin.
  destruct Hin as (a & Ha & Hin). injection Ha as <- <-.
  apply in_seq in Hk, Hin.
  unfold cellList. apply in_flat_map. exists a. split.
  - apply in_seq. lia.
  - apply in_map. apply in_seq. lia.
Qed.

Lemma columns_NoDup : NoDup (flat_map (column n) (seq 0 n)).
Proof.
  apply NoDup_flat_map_disjoint.
  - apply seq_NoDup.
  - intros j _. apply column_NoDup.
  - intros j j' [a b] _ _ H H'. unfold column in H, H'.
    apply in_map_iff in H, H'.
    destruct H as (x & Hx & _), H' as (x' & Hx' & _).
    inversion Hx. inversion Hx'. lia.
Qed.

Lemma columns_incl :
  incl (flat_map (column n) (seq 0 n)) (cellList n (fun _ => seq 0 n)).
Proof.
  intros [i j] Hin. apply in_flat_map in Hin. destruct Hin as (c & Hc & Hin).
  unfold column in Hin. apply in_map_iff in Hin.
  destruct Hin as (a & Ha & Hin). injection Ha as <- <-.
  unfold cellList. apply in_flat_map. exists a. split; [exact Hin |].
  now apply in_map.
Qed.

(** Cells on qualifying upper diagonals are recurrence points above the
    main diagonal. *)
Lemma diagonal_points_le_upper_triangle :
  (sumLengths (filter kPositive (findDiagonalLines matrix minLength))
   <= countCells (isOne matrix) n (fun i => seq (S i) (n - S i)))%nat.
Proof.
  rewrite upper_diagonal_lines, countCells_filter.
  etransitivity.
  - apply (flat_map_segments_sum_le matrix minLength
             (fun k => diagLine (Z.of_nat k)) (upperDiag n)).
    reflexivity.
  - apply filter_length_incl;
      [apply upper_diagonals_NoDup | apply upper_diagonals_incl].
Qed.

(** Cells on qualifying vertical lines are recurrence points. *)
Lemma vertical_points_le_all :
  (sumLengths (findVerticalLines matrix minLength)
   <= countCells (isOne matrix) n (fun _ => seq 0 n))%nat.
Proof.
  rewrite findVerticalLines_runs by exact minLength_pos.
  rewrite countCells_filter.
  etransitivity.
  - apply (flat_map_segments_sum_le matrix minLength
             (fun _ => vertLine) (column n)).
    reflexivity.
  - apply filter_length_incl; [apply columns_NoDup | apply columns_incl].
Qed.

End Bounds.

Lemma all_points_le_total (matrix : list (list nat)) :
  (countCells (isOne matrix) (length matrix) (fun _ => seq 0 (length matrix))
   <= length matrix * length matrix)%nat.
Proof.
  rewrite countCells_filter, <- cellList_length_full. apply filter_length_le.
Qed.

Lemma ratio_inUnit (a b : nat) :
  (a <= b)%nat -> (0 < b)%nat -> inUnit (ndiv (ofNat a) (ofNat b)).
Proof.
  intros Hab Hb. rewrite ndiv_nat by exact Hb.
  exists (INR a / INR b). split; [reflexivity |].
  assert (Hb' : 0 < INR b) by (apply lt_0_INR; lia).
  assert (Ha' : 0 <= INR a) by apply pos_INR.
  assert (Hab' : INR a <= INR b) by now apply le_INR.
  split.
  - apply Rmult_le_pos; [exact Ha' |]. left. now apply Rinv_0_lt_compat.
  - apply Rmult_le_reg_r with (r := INR b); [exact Hb' |].
    unfold Rdiv. rewrite Rmult_assoc, Rinv_l by lra. lra.
Qed.

Lemma zero_inUnit : inUnit (Num 0).
Proof. exists 0. split; [reflexivity | lra]. Qed.

(** C2. On a matrix of size [n >= 1], with the diagonal and vertical lines
    extracted from it at a minimum length of at least 2 (1 is enough), the
    measures RR, DET and LAM each lie between 0 and 1. *)
Theorem rqa_ratios_in_unit_interval (matrix : list (list nat)) (minLength : Z) :
  (1 <= length matrix)%nat -> (1 <= minLength)%Z ->
  let ms := measuresOfMatrix matrix minLength in
  inUnit (RR ms) /\ inUnit (DET ms) /\ inUnit (LAM ms).
Proof.
  intros Hn Hmin ms. unfold ms, measuresOfMatrix, rqaMeasures. simpl.
  split; [| split].
  - apply ratio_inUnit; [apply all_points_le_total | nia].
  - destruct (Nat.ltb_spec 0 (countCells (isOne matrix) (length matrix)
                                         (fun i => seq (S i) (length matrix - S i))));
      [| apply zero_inUnit].
    apply ratio_inUnit; [| assumption].
    now apply diagonal_points_le_upper_triangle.
  - destruct (Nat.ltb_spec 0 (countCells (isOne matrix) (length matrix)
                                         (fun _ => seq 0 (length matrix))));
      [| apply zero_inUnit].
    apply ratio_inUnit; [| assumption].
    now apply vertical_points_le_all.
Qed.

(** Witness of C2: the 2 by 2 identity matrix with [minLength = 2]. *)
Lemma rqa_ratios_in_unit_interval_witness :
  let ms := measuresOfMatrix [[1; 0]; [0; 1]]%nat 2 in
  inUnit (RR ms) /\ inUnit (DET ms) /\ inUnit (LAM ms).
Proof.
  apply (rqa_ratios_in_unit_interval [[1; 0]; [0; 1]]%nat 2); simpl; lia.
Defined.

Ltac unfold_measures :=
  unfold measuresOfSignal, measuresOfMatrix, rqaMeasures;
  cbn [RR DET LAM avgDiagLength avgVertLength maxDiagLength entropy
       recurrentPoints upperTriangleRecurrentPoints numDiagLines numVertLines].

Section WellDefined.

Lemma guarded_ratio_finite (a b : nat) :
  isFinite (if (0 <? b)%nat then ndiv (ofNat a) (ofNat b) else Num 0).
Proof.
  destruct (Nat.ltb_spec 0 b) as [Hb | Hb].
  - rewrite ndiv_nat by exact Hb. now eexists.
  - now eexists.
Qed.

Lemma guarded_ratio_zero (a : nat) :
  (if (0 <? 0)%nat then ndiv (ofNat a) (ofNat 0) else Num 0) = Num 0.
Proof. reflexivity. Qed.

Lemma nmax_finite (x y : R) : isFinite (nmax (Num x) (Num y)).
Proof. simpl. destruct (Rltb x y); now eexists. Qed.

Lemma maxOf_finite (ls : list nat) :
  (0 < length ls)%nat -> isFinite (maxOf (map ofNat ls)).
Proof.
  unfold maxOf.
  assert (H : forall l x, isFinite (fold_left nmax (map ofNat l) (Num x))).
  { induction l as [| a l IH]; intros x; cbn [fold_left map]; [now eexists |].
    destruct (nmax_finite x (INR a)) as [y Hy].
    change (ofNat a) with (Num (INR a)). rewrite Hy. apply IH. }
  destruct ls as [| a ls]; simpl; [lia |]. intros _. apply H.
Qed.

Lemma entropy_step_finite (e : R) (count total : nat) :
  (0 < total)%nat ->
  isFinite (let p := ndiv (ofNat count) (ofNat total) in
            if ngt p (Num 0) then nsub (Num e) (nmul p (nlog p)) else Num e).
Proof.
  intros Ht. cbv zeta. rewrite ndiv_nat by exact Ht.
  set (p := INR count / INR total).
  unfold ngt. simpl nlt. destruct (Rltb 0 p) eqn:Hp; [| now eexists].
  apply Rltb_true in Hp. simpl nlog.
  assert (H1 : Rltb p 0 = false) by (apply Rltb_false; lra).
  assert (H2 : Reqb p 0 = false) by (apply Reqb_false; lra).
  rewrite H1, H2. simpl. now eexists.
Qed.

Lemma entropyOf_finite (counts : list nat) (total : nat) :
  (0 < total)%nat -> isFinite (entropyOf counts total).
Proof.
  intros Ht. unfold entropyOf.
  assert (H : forall l e,
             isFinite
               (fold_left
                  (fun e count =>
                     let p := ndiv (ofNat count) (ofNat total) in
                     if ngt p (Num 0) then nsub e (nmul p (nlog p)) else e)
                  l (Num e))).
  { induction l as [| c l IH]; intros e; cbn [fold_left]; [now eexists |].
    destruct (entropy_step_finite e c total Ht) as [e' He'].
    cbv zeta in He'. rewrite He'. apply IH. }
  apply H.
Qed.

(** Every measure other than RR is a finite number, whatever the matrix and
    the lines; RR is one as soon as the matrix has a row. *)
Lemma rqa_measures_finite (matrix : list (list nat))
      (diagonalLines verticalLines : list Line.t) :
  let ms := rqaMeasures matrix diagonalLines verticalLines in
  isFinite (DET ms) /\ isFinite (LAM ms)
  /\ isFinite (avgDiagLength ms) /\ isFinite (avgVertLength ms)
  /\ isFinite (maxDiagLength ms) /\ isFinite (entropy ms)
  /\ ((1 <= length matrix)%nat -> isFinite (RR ms)).
Proof.
  unfold_measures.
  repeat split; try apply guarded_ratio_finite.
  - destruct (Nat.ltb_spec 0 (length (filter kPositive diagonalLines)));
      [| now eexists].
    rewrite <- map_map. apply maxOf_finite. now rewrite length_map.
  - destruct (Nat.ltb_spec 0 (length (filter kPositive diagonalLines)));
      [| now eexists].
    now apply entropyOf_finite.
  - intros Hn. rewrite ndiv_nat by nia. now eexists.
Qed.

(** With nothing to divide by, each guarded measure is 0. *)
Lemma rqa_measures_degenerate (matrix : list (list nat))
      (diagonalLines verticalLines : list Line.t) :
  let ms := rqaMeasures matrix diagonalLines verticalLines in
  (upperTriangleRecurrentPoints ms = 0%nat -> DET ms = Num 0)
  /\ (recurrentPoints ms = 0%nat -> LAM ms = Num 0)
  /\ (numDiagLines ms = 0%nat ->
      avgDiagLength ms = Num 0 /\ maxDiagLength ms = Num 0
      /\ entropy ms = Num 0)
  /\ (numVertLines ms = 0%nat -> avgVertLength ms = Num 0).
Proof.
  unfold_measures.
  split; [| split; [| split]]; intros H; rewrite H; repeat split; reflexivity.
Qed.

(** On the empty matrix the recurrence rate is computed as [0 / 0] with no
    guard, which is NaN, while every other measure is guarded by a test of
    its denominator. *)
Lemma rr_of_empty_matrix_is_NaN (minLength : Z) (eps : R) :
  RR (measuresOfMatrix [] minLength) = NaN
  /\ ~ isFinite (RR (measuresOfMatrix [] minLength))
  /\ RR (measuresOfSignal [] eps 1 1 minLength) = NaN.
Proof.
  assert (H : RR (measuresOfMatrix [] minLength) = NaN) by apply ndiv_zero_zero.
  split; [exact H | split].
  - rewrite H. intros [r Hr]. discriminate.
  - unfold measuresOfSignal.
    replace (computeRecurrenceMatrix [] eps 1 1) with (@nil (list nat));
      [exact H |].
    symmetry. apply length_zero_iff_nil.
    now rewrite computeRecurrenceMatrix_length.
Qed.

(** C3 as stated, with the empty 0 by 0 matrix included, fails there: the
    recurrence rate of the empty matrix is no number. *)
Lemma empty_matrix_rate_counterexample :
  ~ isFinite (RR (measuresOfMatrix [] 2)).
Proof.
  assert (H : RR (measuresOfMatrix [] 2) = NaN) by apply ndiv_zero_zero.
  rewrite H. intros [r Hr]. discriminate.
Qed.

(** C3, amended to matrices with at least one row, which are the ones the
    component builds.  Whatever the matrix and the lines, degenerate or
    not, each of the seven measures is a finite number, and each ratio
    whose denominator is zero is 0: DET without upper-triangle points, LAM
    without recurrence points, L, L_max and ENTR without upper diagonal
    lines, TT without vertical lines.  The denominator of RR is [n * n],
    which is not zero. *)
Theorem rqa_measures_defined (matrix : list (list nat))
        (diagonalLines verticalLines : list Line.t) :
  (1 <= length matrix)%nat ->
  let ms := rqaMeasures matrix diagonalLines verticalLines in
  (isFinite (RR ms) /\ isFinite (DET ms) /\ isFinite (LAM ms)
   /\ isFinite (avgDiagLength ms) /\ isFinite (avgVertLength ms)
   /\ isFinite (maxDiagLength ms) /\ isFinite (entropy ms))
  /\ (upperTriangleRecurrentPoints ms = 0%nat -> DET ms = Num 0)
  /\ (recurrentPoints ms = 0%nat -> LAM ms = Num 0)
  /\ (numDiagLines ms = 0%nat ->
      avgDiagLength ms = Num 0 /\ maxDiagLength ms = Num 0
      /\ entropy ms = Num 0)
  /\ (numVertLines ms = 0%nat -> avgVertLength ms = Num 0).
Proof.
  intros Hn ms.
  destruct (rqa_measures_finite matrix diagonalLines verticalLines)
    as (H1 & H2 & H3 & H4 & H5 & H6 & H7).
  fold ms in H1, H2, H3, H4, H5, H6, H7.
  split; [repeat split; auto |].
  exact (rqa_measures_degenerate matrix diagonalLines verticalLines).
Qed.

(** Witness of the amended C3: a matrix of one row without any recurrence
    point and without lines. *)
Lemma rqa_measures_defined_witness :
  let ms := rqaMeasures [[0%nat]] [] [] in
  (isFinite (RR ms) /\ isFinite (DET ms) /\ isFinite (LAM ms)
   /\ isFinite (avgDiagLength ms) /\ isFinite (avgVertLength ms)
   /\ isFinite (maxDiagLength ms) /\ isFinite (entropy ms))
  /\ (upperTriangleRecurrentPoints ms = 0%nat -> DET ms = Num 0)
  /\ (recurrentPoints ms = 0%nat -> LAM ms = Num 0)
  /\ (numDiagLines ms = 0%nat ->
      avgDiagLength ms = Num 0 /\ maxDiagLength ms = Num 0
      /\ entropy ms = Num 0)
  /\ (numVertLines ms = 0%nat -> avgVertLength ms = Num 0).
Proof.
  apply (rqa_measures_defined [[0%nat]] [] []). simpl. lia.
Defined.

End WellDefined.

Section Monotone.

Lemma isOne_entry (matrix : list (list nat)) (i j : nat) :
  isOne matrix (i, j) = Nat.eqb (entry matrix i j) 1.
Proof.
  unfold isOne, entry. simpl.
  destruct (nth_error matrix i) as [r |] eqn:Hr.
  - rewrite (nth_error_nth _ _ _ Hr).
    destruct (nth_error r j) as [v |] eqn:Hv.
    + now rewrite (nth_error_nth _ _ _ Hv).
    + apply nth_error_None in Hv. now rewrite nth_overflow.
  - apply nth_error_None in Hr. rewrite (nth_overflow matrix) by exact Hr.
    now destruct j.
Qed.

Variables (signal : list R) (m tau : Z) (eps1 eps2 : R).
Hypothesis eps_le : eps1 <= eps2.

Local Abbreviation M1 := (computeRecurrenceMatrix signal eps1 m tau).
Local Abbreviation M2 := (computeRecurrenceMatrix signal eps2 m tau).

Lemma isOne_threshold_mono (ij : nat * nat) :
  isOne M1 ij = true -> isOne M2 ij = true.
Proof.
  destruct ij as [i j]. rewrite !isOne_entry, !Nat.eqb_eq. intros H1.
  pose proof (entry_threshold_mono signal m tau eps1 eps2 i j eps_le) as Hle.
  set (n := Z.to_nat (embedCount signal m tau)).
  destruct (Nat.lt_ge_cases i n) as [Hi | Hi];
    [destruct (Nat.lt_ge_cases j n) as [Hj | Hj] |].
  - rewrite H1 in Hle.
    rewrite entry_computeRecurrenceMatrix in Hle |- * by assumption.
    destruct (nle _ (Num eps2)); [reflexivity | lia].
  - rewrite (entry_out_of_range _ n i j) in H1
      by (auto using computeRecurrenceMatrix_square).
    discriminate.
  - rewrite (entry_out_of_range _ n i j) in H1
      by (auto using computeRecurrenceMatrix_square).
    discriminate.
Qed.

Lemma recurrent_points_mono (dl1 vl1 dl2 vl2 : list Line.t) :
  (recurrentPoints (rqaMeasures M1 dl1 vl1)
   <= recurrentPoints (rqaMeasures M2 dl2 vl2))%nat.
Proof.
  unfold_measures.
  rewrite !computeRecurrenceMatrix_length, !countCells_filter.
  apply filter_length_mono. exact isOne_threshold_mono.
Qed.

End Monotone.

(** C5. With the signal, dimension and delay fixed and [eps1 <= eps2], every
    entry of the matrix at [eps1] is at most the entry at [eps2], and the
    recurrence rate does not decrease: RR at [eps1] is equal to or less than
    RR at [eps2], RR at [eps2] is never below RR at [eps1], and whenever the
    matrix has a row the two rates are real numbers in that order (on the
    empty matrix both rates are the same NaN). *)
Theorem recurrence_rate_monotone
        (signal : list R) (m tau minLength : Z) (eps1 eps2 : R) :
  eps1 <= eps2 ->
  let M1 := computeRecurrenceMatrix signal eps1 m tau in
  let M2 := computeRecurrenceMatrix signal eps2 m tau in
  let rr1 := RR (measuresOfSignal signal eps1 m tau minLength) in
  let rr2 := RR (measuresOfSignal signal eps2 m tau minLength) in
  (forall i j, (entry M1 i j <= entry M2 i j)%nat)
  /\ (rr1 = rr2 \/ nlt rr1 rr2 = true)
  /\ nlt rr2 rr1 = false
  /\ ((1 <= length M1)%nat ->
      nle rr1 rr2 = true
      /\ exists r1 r2, rr1 = Num r1 /\ rr2 = Num r2 /\ r1 <= r2).
Proof.
  intros He M1 M2 rr1 rr2.
  split; [intros i j; now apply entry_threshold_mono |].
  pose proof (recurrent_points_mono signal m tau eps1 eps2 He
                (findDiagonalLines M1 minLength) (findVerticalLines M1 minLength)
                (findDiagonalLines M2 minLength) (findVerticalLines M2 minLength))
    as Hcount.
  unfold rr1, rr2. unfold_measures.
  unfold rqaMeasures in Hcount. cbn [recurrentPoints] in Hcount.
  fold M1 M2 in Hcount |- *.
  assert (Hlen : length M2 = length M1)
    by (unfold M1, M2; now rewrite !computeRecurrenceMatrix_length).
  rewrite Hlen in *.
  set (c1 := countCells (isOne M1) (length M1) (fun _ => seq 0 (length M1))) in *.
  set (c2 := countCells (isOne M2) (length M1) (fun _ => seq 0 (length M1))) in *.
  destruct (Nat.eq_dec (length M1) 0) as [Hz | Hnz].
  - assert (Hc2 : c2 = 0%nat).
    { pose proof (all_points_le_total M2) as H. rewrite Hlen in H.
      fold c2 in H. nia. }
    assert (Hc1 : c1 = 0%nat) by lia.
    rewrite Hz, Hc1, Hc2. simpl Nat.mul. unfold ofNat. simpl INR.
    rewrite ndiv_zero_zero. split; [now left | split; [reflexivity | lia]].
  - assert (Hpos : (0 < length M1 * length M1)%nat) by nia.
    rewrite !ndiv_nat by exact Hpos. simpl.
    assert (Hle : INR c1 / INR (length M1 * length M1)
                  <= INR c2 / INR (length M1 * length M1)).
    { apply Rmult_le_compat_r.
      - left. apply Rinv_0_lt_compat. apply lt_0_INR. exact Hpos.
      - now apply le_INR. }
    split; [| split].
    + destruct (Nat.eq_dec c1 c2) as [-> | Hne]; [now left | right].
      apply Rltb_true. apply Rmult_lt_compat_r.
      * apply Rinv_0_lt_compat. apply lt_0_INR. exact Hpos.
      * apply lt_INR. lia.
    + apply Rltb_false. exact Hle.
    + intros _. split; [apply Rleb_true; exact Hle |].
      eexists _, _. repeat split. exact Hle.
Qed.

(** Witness of C5: the signal 0, 1 at thresholds 0 and 1. *)
Lemma recurrence_rate_monotone_witness :
  let M1 := computeRecurrenceMatrix [0; 1] 0 1 1 in
  let M2 := computeRecurrenceMatrix [0; 1] 1 1 1 in
  let rr1 := RR (measuresOfSignal [0; 1] 0 1 1 2) in
  let rr2 := RR (measuresOfSignal [0; 1] 1 1 1 2) in
  (forall i j, (entry M1 i j <= entry M2 i j)%nat)
  /\ (rr1 = rr2 \/ nlt rr1 rr2 = true)
  /\ nlt rr2 rr1 = false
  /\ ((1 <= length M1)%nat ->
      nle rr1 rr2 = true
      /\ exists r1 r2, rr1 = Num r1 /\ rr2 = Num r2 /\ r1 <= r2).
Proof.
  apply (recurrence_rate_monotone [0; 1] 1 1 2 0 1). lra.
Defined.

(** *** The counters of [rqaMeasures] on a 3 by 3 matrix *)

Example rqa_counters_3x3 :
  let ms := measuresOfMatrix [[1; 1; 0]; [1; 1; 1]; [0; 1; 1]]%nat 2 in
  (recurrentPoints ms, recurrentPointsExcludingLOI ms,
   upperTriangleRecurrentPoints ms, diagPointsInLines ms,
   vertPointsInLines ms, totalPoints ms, numDiagLines ms, numVertLines ms)
  = (7, 4, 2, 2, 7, 9, 1, 3)%nat.
Proof. reflexivity. Qed.

(** The three ratios in terms of the counters. *)
Lemma ratios_of_counters (matrix : list (list nat))
      (diagonalLines verticalLines : list Line.t) :
  let ms := rqaMeasures matrix diagonalLines verticalLines in
  RR ms = ndiv (ofNat (recurrentPoints ms)) (ofNat (totalPoints ms))
  /\ DET ms = (if (0 <? upperTriangleRecurrentPoints ms)%nat
              then ndiv (ofNat (diagPointsInLines ms))
                        (ofNat (upperTriangleRecurrentPoints ms))
              else Num 0)
  /\ LAM ms = (if (0 <? recurrentPoints ms)%nat
              then ndiv (ofNat (vertPointsInLines ms))
                        (ofNat (recurrentPoints ms))
              else Num 0).
Proof. repeat split. Qed.

Example rqa_ratios_3x3 :
  let ms := measuresOfMatrix [[1; 1; 0]; [1; 1; 1]; [0; 1; 1]]%nat 2 in
  RR ms = Num (7 / 9) /\ DET ms = Num 1 /\ LAM ms = Num 1.
Proof.
  intros ms.
  destruct (ratios_of_counters
              [[1; 1; 0]; [1; 1; 1]; [0; 1; 1]]%nat
              (findDiagonalLines [[1; 1; 0]; [1; 1; 1]; [0; 1; 1]]%nat 2)
              (findVerticalLines [[1; 1; 0]; [1; 1; 1]; [0; 1; 1]]%nat 2))
    as (Hrr & Hdet & Hlam).
  fold (measuresOfMatrix [[1; 1; 0]; [1; 1; 1]; [0; 1; 1]]%nat 2) in Hrr, Hdet, Hlam.
  fold ms in Hrr, Hdet, Hlam.
  rewrite Hrr, Hdet, Hlam.
  change (recurrentPoints ms) with 7%nat.
  change (totalPoints ms) with 9%nat.
  change (upperTriangleRecurrentPoints ms) with 2%nat.
  change (diagPointsInLines ms) with 2%nat.
  change (vertPointsInLines ms) with 7%nat.
  cbn [Nat.ltb Nat.leb]. rewrite !ndiv_nat by lia. simpl INR.
  repeat split; f_equal; field.
Qed.

(** ** Sample entropy *)

Section SampEn.

Variable signal : list R.
Variable m : nat.
Variable r : R.

Local Abbreviation N := (length signal).

Lemma readNat_sample (k : nat) :
  (k < N)%nat -> readNat signal k = Num (sample signal k).
Proof.
  intros Hk. unfold readNat, sample. now rewrite (nth_error_nth' signal 0 Hk).
Qed.

Lemma sampleDiff_nonneg (p q : nat) : nonnegNum (sampleDiff signal p q).
Proof. apply nabs_fl_nonneg. Qed.

Lemma fold_nmax_nonneg (ds : list num) :
  (forall d, In d ds -> nonnegNum d) ->
  nonnegNum (fold_right nmax (Num 0) ds).
Proof.
  induction ds as [| d ds IH]; intros H; cbn [fold_right]; [simpl; lra |].
  apply nmax_nonneg; [apply H; now left | apply IH].
  intros e He. apply H. now right.
Qed.

Lemma chebyshev_nonneg (i j : nat) : nonnegNum (chebyshev signal m i j).
Proof.
  apply fold_nmax_nonneg. intros d Hd. apply in_map_iff in Hd.
  destruct Hd as (k & <- & _). apply sampleDiff_nonneg.
Qed.

Lemma nmax_zero_l (a : num) : nonnegNum a -> nmax (Num 0) a = a.
Proof.
  destruct a as [x | | |]; simpl; try tauto; intros Hx.
  destruct (Rltb 0 x) eqn:E; [reflexivity |].
  apply Rltb_false in E. f_equal. lra.
Qed.

(** The running maximum of the [k] loop is the largest difference. *)
Lemma running_max (g : nat -> num) (ks : list nat) :
  (forall k, nonnegNum (g k)) ->
  forall a,
    nonnegNum a ->
    fold_left (fun maxDiff k => if ngt (g k) maxDiff then g k else maxDiff)
              ks a
    = nmax a (fold_right nmax (Num 0) (map g ks)).
Proof.
  intros Hg. induction ks as [| k ks IH]; intros a Ha;
    cbn [fold_left fold_right map].
  - symmetry. now apply nmax_zero_r.
  - rewrite running_step by auto. rewrite IH by (apply nmax_nonneg; auto).
    symmetry. apply nmax_assoc; auto.
    apply fold_nmax_nonneg. intros d Hd. apply in_map_iff in Hd.
    destruct Hd as (k' & <- & _). apply Hg.
Qed.

Lemma windowMaxDiff_chebyshev (i j : nat) :
  (i + m <= N)%nat -> (j + m <= N)%nat ->
  windowMaxDiff signal (Z.of_nat m) i j = chebyshev signal m i j.
Proof.
  intros Hi Hj. unfold windowMaxDiff, chebyshev, upto. rewrite Nat2Z.id.
  rewrite (fold_left_ext_in _
             (fun maxDiff k =>
                if ngt (sampleDiff signal (i + k) (j + k)) maxDiff
                then sampleDiff signal (i + k) (j + k) else maxDiff)).
  - rewrite (running_max (fun k => sampleDiff signal (i + k) (j + k)))
      by (try (intros k; apply sampleDiff_nonneg); simpl; lra).
    apply nmax_zero_l. apply fold_nmax_nonneg.
    intros d Hd. apply in_map_iff in Hd. destruct Hd as (k & <- & _).
    apply sampleDiff_nonneg.
  - intros acc k Hk. apply in_seq in Hk. cbv zeta.
    rewrite !readNat_sample by lia. reflexivity.
Qed.

(** The body of the [j] loop, on a pair inside the loop bounds. *)
Lemma sampEnPair_spec (i j : nat) (acc : nat * nat) :
  (i < N - m)%nat -> (j < N - m)%nat ->
  sampEnPair signal (Z.of_nat m) r i acc j
  = if isMatch signal m r (i, j)
    then (S (fst acc),
          if isExtendedMatch signal m r (i, j) then S (snd acc) else snd acc)
    else acc.
Proof.
  intros Hi Hj. unfold sampEnPair, isExtendedMatch, isMatch. cbv zeta.
  rewrite windowMaxDiff_chebyshev by lia. cbn [fst snd].
  destruct (nlt (chebyshev signal m i j) (Num r)) eqn:Hd; [| reflexivity].
  destruct (Z.ltb_spec (Z.of_nat i + Z.of_nat m) (Z.of_nat N)); [| lia].
  destruct (Z.ltb_spec (Z.of_nat j + Z.of_nat m) (Z.of_nat N)); [| lia].
  cbn [andb].
  rewrite <- !Nat2Z.inj_add, !readZ_in_range by lia.
  change (nabs (fsub (Num (nth (i + m) signal 0)) (Num (nth (j + m) signal 0))))
    with (sampleDiff signal (i + m) (j + m)).
  destruct (nlt (nmax _ _) (Num r)); reflexivity.
Qed.

(** Counting with the two tests over any list of pairs. *)
Lemma count_matches (P Q : nat * nat -> bool) (l : list (nat * nat)) :
  forall acc,
    fold_left (fun acc ij =>
                 if P ij
                 then (S (fst acc), if Q ij then S (snd acc) else snd acc)
                 else acc) l acc
    = ((fst acc + length (filter P l))%nat,
       (snd acc + length (filter (fun ij => P ij && Q ij) l))%nat).
Proof.
  induction l as [| ij l IH]; intros [b a]; simpl.
  - f_equal; lia.
  - rewrite IH. destruct (P ij), (Q ij); simpl; f_equal; lia.
Qed.

Lemma fold_pairs {A : Type} (f : nat -> A -> nat -> A) (n : nat)
      (cols : nat -> list nat) (a : A) :
  fold_left (fun acc i => fold_left (f i) (cols i) acc) (seq 0 n) a
  = fold_left (fun acc ij => f (fst ij) acc (snd ij)) (cellList n cols) a.
Proof.
  unfold cellList. generalize (seq 0 n). intros idxs. revert a.
  induction idxs as [| i idxs IH]; intros a; simpl; [reflexivity |].
  rewrite fold_left_app, IH. f_equal.
  generalize (cols i). intros js. revert a.
  induction js as [| j js IHj]; intros a; simpl; [reflexivity | apply IHj].
Qed.

Lemma orderedPairs_In (n i j : nat) :
  In (i, j) (orderedPairs n) <-> (i < j < n)%nat.
Proof.
  unfold orderedPairs, cellList. rewrite in_flat_map. split.
  - intros (a & Ha & Hin). apply in_map_iff in Hin.
    destruct Hin as (b & Hb & Hin). injection Hb as <- <-.
    apply in_seq in Ha, Hin. lia.
  - intros Hij. exists i. split; [apply in_seq; lia |].
    apply in_map. apply in_seq. lia.
Qed.

Lemma isExtendedMatch_and (ij : nat * nat) :
  isExtendedMatch signal m r ij
  = isMatch signal m r ij && isExtendedMatch signal m r ij.
Proof. unfold isExtendedMatch. now destruct (isMatch signal m r ij). Qed.

(** The two loops count the [m]-matches and the [m+1]-matches. *)
Lemma sampEnCounts_spec :
  sampEnCounts signal (Z.of_nat m) r = (countB signal m r, countA signal m r).
Proof.
  unfold sampEnCounts, countA, countB.
  replace (Z.to_nat (Z.of_nat N - Z.of_nat m)) with (N - m)%nat by lia.
  rewrite (fold_pairs (sampEnPair signal (Z.of_nat m) r)).
  fold (orderedPairs (N - m)).
  rewrite (fold_left_ext_in _
             (fun acc ij =>
                if isMatch signal m r ij
                then (S (fst acc),
                      if isExtendedMatch signal m r ij
                      then S (snd acc) else snd acc)
                else acc)).
  - rewrite count_matches. simpl. f_equal.
    f_equal. apply filter_ext. intros ij. symmetry. apply isExtendedMatch_and.
  - intros acc [i j] Hin. apply orderedPairs_In in Hin.
    apply sampEnPair_spec; lia.
Qed.

Lemma countA_le_countB : (countA signal m r <= countB signal m r)%nat.
Proof.
  unfold countA, countB. apply filter_length_mono.
  intros ij H. unfold isExtendedMatch in H. now apply andb_prop in H.
Qed.

Lemma calculateSampEn_spec :
  calculateSampEn signal (Z.of_nat m) r = sampEnSpec signal m r.
Proof.
  unfold calculateSampEn, sampEnSpec. rewrite sampEnCounts_spec. cbv zeta.
  destruct (Nat.eqb_spec (countB signal m r) 0) as [HB | HB]; [reflexivity |].
  destruct (Nat.eqb_spec (countA signal m r) 0) as [HA | HA]; [reflexivity |].
  simpl orb. cbv iota.
  rewrite ndiv_nat by lia.
  assert (Hpos : 0 < INR (countA signal m r) / INR (countB signal m r)).
  { apply Rdiv_lt_0_compat; apply lt_0_INR; lia. }
  simpl nlog.
  assert (H1 : Rltb (INR (countA signal m r) / INR (countB signal m r)) 0 = false)
    by (apply Rltb_false; lra).
  assert (H2 : Reqb (INR (countA signal m r) / INR (countB signal m r)) 0 = false)
    by (apply Reqb_false; lra).
  now rewrite H1, H2.
Qed.

End SampEn.


Example orderedPairs_3 : orderedPairs 3 = [(0, 1); (0, 2); (1, 2)]%nat.
Proof. reflexivity. Qed.

Lemma sampleDiff_equal (signal : list R) (p q : nat) :
  sample signal p = sample signal q -> sampleDiff signal p q = Num 0.
Proof.
  intros H. unfold sampleDiff. rewrite H.
  replace (sample signal q - sample signal q) with 0 by ring.
  rewrite fl_zero. simpl. now rewrite Rabs_R0.
Qed.

(** Three equal samples: the one pair of windows matches and extends, so
    the entropy is [-ln(1/1) = 0]. *)
Example sampEn_constant_signal : calculateSampEn [0; 0; 0] 1 1 = Num 0.
Proof.
  pose proof (calculateSampEn_spec [0; 0; 0] 1%nat 1) as Hspec.
  change (Z.of_nat 1) with 1%Z in Hspec. rewrite Hspec.
  unfold sampEnSpec, countA, countB.
  change (orderedPairs (length [0; 0; 0] - 1)) with [(0, 1)%nat].
  assert (Hd : chebyshev [0; 0; 0] 1 0 1 = Num 0).
  { unfold chebyshev. cbn [seq map fold_right].
    rewrite sampleDiff_equal by reflexivity. rewrite nmax_Rmax.
    f_equal. apply Rmax_left. lra. }
  assert (H01 : Rltb 0 1 = true) by (apply Rltb_true; lra).
  assert (HB : isMatch [0; 0; 0] 1 1 (0, 1)%nat = true).
  { unfold isMatch. cbn [fst snd]. rewrite Hd. exact H01. }
  assert (HA : isExtendedMatch [0; 0; 0] 1 1 (0, 1)%nat = true).
  { unfold isExtendedMatch. rewrite HB. cbn [fst snd]. rewrite Hd.
    rewrite sampleDiff_equal by reflexivity. rewrite nmax_Rmax.
    rewrite Rmax_left by lra. exact H01. }
  cbn [filter]. rewrite HA, HB. cbn [length Nat.eqb orb]. simpl INR.
  f_equal. replace (1 / 1) with 1 by field. rewrite ln_1. ring.
Qed.

(** *** A difference that rounds up to the tolerance

    The doubles written 0.1, 0.3 and 0.4 are [3602879701896397 / 2^55],
    [5404319552844595 / 2^54] and [3602879701896397 / 2^53].  The exact
    difference of 0.5 and the first
    is below the second, half a spacing below: the subtraction rounds it
    up to the second, so the pair is not a match under the tolerance 0.4
    and the entropy is the sentinel. *)

Example difference_rounds_up_to_tolerance :
  let x01 := 3602879701896397 / 36028797018963968 in
  let x04 := 3602879701896397 / 9007199254740992 in
  let signal := [1 / 2; x01; 5404319552844595 / 18014398509481984] in
  Rabs (1 / 2 - x01) < x04
  /\ sampleDiff signal 0 1 = Num x04
  /\ calculateSampEn signal 1 x04 = Num sampEnSentinel.
Proof.
  intros x01 x04 signal.
  assert (Hexact : Rabs (1 / 2 - x01) < x04).
  { unfold x01, x04. rewrite Rabs_pos_eq; lra. }
  assert (Hdiff : sampleDiff signal 0 1 = Num x04).
  { unfold sampleDiff, sample, signal. cbn [nth fl].
    set (x := 1 / 2 - x01).
    assert (Hx : x = 14411518807585587 / 36028797018963968)
      by (unfold x, x01; lra).
    assert (He : exponentOf x = (-2)%Z).
    { apply exponentOf_between. rewrite Rabs_pos_eq by lra.
      simpl. lra. }
    assert (Hq : quantumOf x = / 18014398509481984).
    { unfold quantumOf. rewrite He. simpl. lra. }
    assert (Hn : nearestEven (x / quantumOf x) = 7205759403792794%Z).
    { rewrite (nearestEven_eq _ 7205759403792793 (1 / 2));
        [| rewrite Hq, Hx; lra | lra].
      assert (H : Rltb (1 / 2) (1 / 2) = false) by (apply Rltb_false; lra).
      rewrite H. reflexivity. }
    unfold roundToBinary64.
    assert (Hnz : Reqb x 0 = false) by (apply Reqb_false; lra).
    rewrite Hnz. cbv zeta. rewrite Hn, Hq.
    replace (7205759403792794 * / 18014398509481984) with x04
      by (unfold x04; lra).
    rewrite no_overflow_below_1 by (rewrite Rabs_pos_eq; unfold x04; lra).
    simpl. f_equal. apply Rabs_pos_eq. unfold x04. lra. }
  split; [exact Hexact | split; [exact Hdiff |]].
  pose proof (calculateSampEn_spec signal 1%nat x04) as Hspec.
  change (Z.of_nat 1) with 1%Z in Hspec. rewrite Hspec.
  unfold sampEnSpec, countB.
  change (orderedPairs (length signal - 1)) with [(0, 1)%nat].
  assert (HB : isMatch signal 1 x04 (0, 1)%nat = false).
  { unfold isMatch, chebyshev. cbn [fst snd seq map fold_right].
    change (0 + 0)%nat with 0%nat. change (1 + 0)%nat with 1%nat.
    rewrite Hdiff, nmax_Rmax. cbn [nlt]. apply Rltb_false.
    rewrite Rmax_left by (unfold x04; lra). lra. }
  cbn [filter]. rewrite HB. reflexivity.
Qed.

(** ** Box-counting slope *)

Section LogLog.

Lemma nlog_pos (x : R) : 0 < x -> nlog (Num x) = Num (ln x).
Proof.
  intros Hx. simpl.
  assert (H1 : Rltb x 0 = false) by (apply Rltb_false; lra).
  assert (H2 : Reqb x 0 = false) by (apply Reqb_false; lra).
  now rewrite H1, H2.
Qed.

Lemma log_size (s : nat) :
  (1 <= s)%nat -> nlog (ndiv (Num 1) (ofNat s)) = Num (logInvSize s).
Proof.
  intros Hs. assert (Hpos : 0 < INR s) by (apply lt_0_INR; lia).
  unfold ofNat. rewrite ndiv_pos by lra.
  apply nlog_pos. now apply Rdiv_lt_0_compat; [lra |].
Qed.

Lemma log_count (c : nat) :
  nlog (nmax (ofNat c) (Num 1)) = Num (ln (Rmax (INR c) 1)).
Proof.
  unfold ofNat. rewrite nmax_Rmax. apply nlog_pos.
  eapply Rlt_le_trans; [apply Rlt_0_1 | apply Rmax_r].
Qed.

End LogLog.

(** ** Divergence demonstration *)

Section Divergence.

Lemma nmin_Rmin (a b : R) : nmin (Num a) (Num b) = Num (Rmin a b).
Proof.
  simpl. unfold Rmin. destruct (Rltb b a) eqn:E; destruct (Rle_dec a b) as [H | H];
    try reflexivity.
  - apply Rltb_true in E. lra.
  - apply Rltb_false in E. f_equal. lra.
Qed.

Lemma time_over_ten (time : R) : ndiv (Num time) (Num 10) = Num (time / 10).
Proof. apply ndiv_pos. lra. Qed.

(** Before the clamp the code computes the analytic curve. *)
Lemma rawSeparation_analytic (trajectoryType : string) (t : R) :
  fst (rawSeparation trajectoryType (Num t))
  = Num (analyticSeparation trajectoryType t).
Proof.
  unfold rawSeparation, analyticSeparation.
  destruct (String.eqb trajectoryType "chaotic"); [reflexivity |].
  destruct (String.eqb trajectoryType "periodic"); reflexivity.
Qed.

Lemma getTrajectories_clamped (trajectoryType : string) (time : R) :
  separation (getTrajectories trajectoryType time)
  = Num (Rmin (analyticSeparation trajectoryType (time / 10)) 2).
Proof.
  unfold getTrajectories. rewrite time_over_ten.
  pose proof (rawSeparation_analytic trajectoryType (time / 10)) as H.
  destruct (rawSeparation trajectoryType (Num (time / 10))) as [sep l].
  simpl in H. subst sep. simpl separation. apply nmin_Rmin.
Qed.

(** The path loop draws the same clamped curve at its integer steps. *)
Lemma pathSeparation_clamped (trajectoryType : string) (i : nat) :
  pathSeparation trajectoryType i
  = Num (Rmin (analyticSeparation trajectoryType (INR i / 10)) 2).
Proof.
  unfold pathSeparation, analyticSeparation, ofNat. rewrite time_over_ten.
  destruct (String.eqb trajectoryType "chaotic"); [apply nmin_Rmin |].
  destruct (String.eqb trajectoryType "periodic"); apply nmin_Rmin.
Qed.

Lemma exp_nonpos_le_1 (x : R) : x <= 0 -> exp x <= 1.
Proof.
  intros [Hlt | ->]; [| rewrite exp_0; lra].
  rewrite <- exp_0. left. now apply exp_increasing.
Qed.

(** Away from the expanding regime the curve stays below the clamp. *)
Lemma bounded_regimes_below_clamp (trajectoryType : string) (t : R) :
  trajectoryType <> "chaotic"%string -> 0 <= t ->
  analyticSeparation trajectoryType t <= 2.
Proof.
  intros Hty Ht. unfold analyticSeparation, initialSeparation.
  apply String.eqb_neq in Hty. rewrite Hty.
  destruct (String.eqb trajectoryType "periodic").
  - pose proof (SIN_bound t). lra.
  - assert (exp (- (1 / 2) * t) <= 1) by (apply exp_nonpos_le_1; lra). lra.
Qed.

Lemma exp_9_large : 512 < exp 9.
Proof.
  assert (H1 : 2 < exp 1) by (pose proof (exp_ineq1 1); lra).
  assert (H2 : 4 < exp 2).
  { replace 2 with (1 + 1) by lra. rewrite exp_plus. nra. }
  assert (H4 : 16 < exp 4).
  { replace 4 with (2 + 2) by lra. rewrite exp_plus. nra. }
  assert (H8 : 256 < exp 8).
  { replace 8 with (4 + 4) by lra. rewrite exp_plus. nra. }
  replace 9 with (8 + 1) by lra. rewrite exp_plus. nra.
Qed.

End Divergence.

(** C9 as stated fails in the expanding regime: at the end of the time
    range, [t = 10], the curve [0.01 * exp(0.9 t)] is above 5 and the code
    returns the clamp value 2. *)
Lemma expanding_regime_clamped_counterexample :
  ~ followsAnalyticCurve "chaotic".
Proof.
  intros H. specialize (H 100). unfold maxTime in H.
  rewrite getTrajectories_clamped in H.
  assert (Hbig : 2 < analyticSeparation "chaotic" (100 / 10)).
  { unfold analyticSeparation, initialSeparation. simpl.
    replace (9 / 10 * (100 / 10)) with 9 by lra.
    pose proof exp_9_large. lra. }
  rewrite Rmin_right in H by lra.
  assert (H2 : Num 2 = Num (analyticSeparation "chaotic" (100 / 10)))
    by (apply H; lra).
  injection H2 as H2. lra.
Qed.

(** C9, amended.  At every time of the range the separation is the analytic
    curve of the regime clamped at 2: [min(d0 exp(lambda t), 2)] for the
    expanding and the contracting regime, [min(d0 (1 + 0.5 sin t), 2)] for
    the regime of exponent 0.  It is the curve itself wherever the curve is
    at most 2, which is everywhere in the contracting and the zero-exponent
    regime; the path loop draws the same values. *)
Theorem separation_is_clamped_curve (trajectoryType : string) (time : R) :
  0 <= time <= maxTime ->
  let curve := analyticSeparation trajectoryType (time / 10) in
  let shown := separation (getTrajectories trajectoryType time) in
  shown = Num (Rmin curve 2)
  /\ (curve <= 2 -> shown = Num curve)
  /\ (trajectoryType <> "chaotic"%string -> shown = Num curve)
  /\ (forall i, pathSeparation trajectoryType i
                = separation (getTrajectories trajectoryType (INR i))).
Proof.
  intros Ht curve shown. unfold shown, curve.
  rewrite getTrajectories_clamped.
  split; [reflexivity | split; [| split]].
  - intros Hle. now rewrite Rmin_left.
  - intros Hty. rewrite Rmin_left; [reflexivity |].
    apply bounded_regimes_below_clamp; [exact Hty | lra].
  - intros i. now rewrite pathSeparation_clamped, getTrajectories_clamped.
Qed.

(** Witness of the amended C9: the contracting regime at time 50. *)
Lemma separation_is_clamped_curve_witness :
  let curve := analyticSeparation "stable" (50 / 10) in
  let shown := separation (getTrajectories "stable" 50) in
  shown = Num (Rmin curve 2)
  /\ (curve <= 2 -> shown = Num curve)
  /\ ("stable"%string <> "chaotic"%string -> shown = Num curve)
  /\ (forall i, pathSeparation "stable" i
                = separation (getTrajectories "stable" (INR i))).
Proof.
  apply (separation_is_clamped_curve "stable" 50). unfold maxTime. lra.
Defined.

(** ** Calls with malformed parameters *)

Section Malformed.

(** A Euclidean distance is never below a negative threshold: it is a
    non-negative number, or infinite, or NaN. *)
Lemma nsqrt_not_le_negative (a : num) (eps : R) :
  eps < 0 -> nle (nsqrt a) (Num eps) = false.
Proof.
  intros He. destruct a as [x | | |]; simpl; try reflexivity.
  destruct (Rltb x 0); simpl; [reflexivity |].
  apply Rleb_false. pose proof (sqrt_pos x). lra.
Qed.

Lemma negative_threshold_entries (signal : list R) (eps : R) (m tau : Z)
      (i j : nat) :
  eps < 0 -> entry (computeRecurrenceMatrix signal eps m tau) i j = 0%nat.
Proof.
  intros He.
  set (n := Z.to_nat (embedCount signal m tau)).
  destruct (Nat.lt_ge_cases i n) as [Hi | Hi];
    [destruct (Nat.lt_ge_cases j n) as [Hj | Hj] |].
  - rewrite entry_computeRecurrenceMatrix by assumption.
    unfold distance. now rewrite nsqrt_not_le_negative.
  - apply (entry_out_of_range _ n); auto using computeRecurrenceMatrix_square.
  - apply (entry_out_of_range _ n); auto using computeRecurrenceMatrix_square.
Qed.

Lemma empty_signal_matrix (eps : R) (m tau : Z) :
  (1 <= m)%Z -> (1 <= tau)%Z -> computeRecurrenceMatrix [] eps m tau = [].
Proof.
  intros Hm Ht. apply length_zero_iff_nil.
  rewrite computeRecurrenceMatrix_length. unfold embedCount. simpl length.
  assert (0 <= (m - 1) * tau)%Z by nia. lia.
Qed.

(** With [embeddingDim <= 0] the vectors are empty and all at distance 0. *)
Lemma zero_dimension_entries (signal : list R) (eps : R) (m tau : Z)
      (i j : nat) :
  (m <= 0)%Z -> 0 <= eps ->
  (i < Z.to_nat (embedCount signal m tau))%nat ->
  (j < Z.to_nat (embedCount signal m tau))%nat ->
  entry (computeRecurrenceMatrix signal eps m tau) i j = 1%nat.
Proof.
  intros Hm He Hi Hj. rewrite entry_computeRecurrenceMatrix by assumption.
  unfold distance, upto. replace (Z.to_nat m) with 0%nat by lia.
  simpl. assert (H0 : Rltb 0 0 = false) by (apply Rltb_false; lra).
  rewrite H0, sqrt_0. simpl. apply Rleb_true in He. now rewrite He.
Qed.

(** The running maximum of the [k] loop is never negative, also when some
    read falls outside the signal. *)
Lemma windowMaxDiff_nonneg (signal : list R) (m : Z) (i j : nat) :
  nonnegNum (windowMaxDiff signal m i j).
Proof.
  unfold windowMaxDiff. generalize (upto m). intros ks.
  assert (H : forall a, nonnegNum a ->
             nonnegNum
               (fold_left
                  (fun maxDiff k =>
                     let diff := nabs (fsub (readNat signal (i + k))
                                            (readNat signal (j + k))) in
                     if ngt diff maxDiff then diff else maxDiff)
                  ks a)).
  { induction ks as [| k ks IH]; intros a Ha; cbn [fold_left]; [exact Ha |].
    apply IH. cbv zeta. unfold readNat.
    destruct (nth_error signal (i + k)) as [x |];
      destruct (nth_error signal (j + k)) as [y |];
      try (destruct a; exact Ha).
    pose proof (nabs_fl_nonneg (x + - y)) as Hd.
    change (nabs (fsub (Num x) (Num y))) with (nabs (fl (Num (x + - y)))).
    destruct (ngt _ a); assumption. }
  apply H. simpl. lra.
Qed.

Lemma sampEnPair_nonpositive_tolerance (signal : list R) (m : Z) (r : R)
      (i j : nat) (acc : nat * nat) :
  r <= 0 -> sampEnPair signal m r i acc j = acc.
Proof.
  intros Hr. unfold sampEnPair. cbv zeta.
  now rewrite (nlt_nonneg_false _ r (windowMaxDiff_nonneg signal m i j) Hr).
Qed.

Lemma fold_left_id {A B : Type} (f : A -> B -> A) (l : list B) (a : A) :
  (forall x y, f x y = x) -> fold_left f l a = a.
Proof.
  intros H. induction l as [| b l IH]; simpl; [reflexivity |].
  now rewrite H.
Qed.

Lemma nonpositive_tolerance_sentinel (signal : list R) (m : Z) (r : R) :
  r <= 0 -> calculateSampEn signal m r = Num sampEnSentinel.
Proof.
  intros Hr. unfold calculateSampEn, sampEnCounts.
  rewrite fold_left_id; [reflexivity |].
  intros acc i. apply fold_left_id. intros acc' j.
  now apply sampEnPair_nonpositive_tolerance.
Qed.

Lemma empty_signal_sentinel (m : Z) (r : R) :
  (0 <= m)%Z -> calculateSampEn [] m r = Num sampEnSentinel.
Proof.
  intros Hm. unfold calculateSampEn, sampEnCounts. simpl length.
  replace (Z.to_nat (Z.of_nat 0 - m)) with 0%nat by lia. reflexivity.
Qed.

End Malformed.

(** C10 as stated fails: a negative threshold is not rejected, the call
    returns a matrix. *)
Lemma malformed_not_rejected_counterexample : ~ rejectsMalformed.
Proof.
  intros [Hrec _].
  specialize (Hrec [1] (-1) 1%Z 1%Z).
  assert (Hbad : malformedRecurrenceArgs [1] (-1) 1 1).
  { unfold malformedRecurrenceArgs. right. right. left. lra. }
  specialize (Hrec Hbad). discriminate.
Qed.

(** C10, amended.  The functions validate nothing; a call with malformed
    parameters returns an ordinary value.  [computeRecurrenceMatrix] returns
    the all-zero matrix for a negative threshold, the empty matrix for an
    empty sequence (with [m, tau >= 1]) and, for a dimension [m <= 0] and a
    threshold [eps >= 0], a matrix of 1s; [calculateSampEn] returns its
    sentinel for a tolerance [r <= 0] and for an empty sequence;
    [calculateFD] takes no list of box sizes, its six sizes are fixed. *)
Theorem malformed_calls_return_values :
  (forall signal eps m tau,
      callComputeRecurrenceMatrix signal eps m tau
      = Returned (computeRecurrenceMatrix signal eps m tau))
  /\ (forall signal eps m tau i j,
         eps < 0 -> entry (computeRecurrenceMatrix signal eps m tau) i j = 0%nat)
  /\ (forall eps m tau,
         (1 <= m)%Z -> (1 <= tau)%Z -> computeRecurrenceMatrix [] eps m tau = [])
  /\ (forall signal eps m tau i j,
         (m <= 0)%Z -> 0 <= eps ->
         (i < Z.to_nat (embedCount signal m tau))%nat ->
         (j < Z.to_nat (embedCount signal m tau))%nat ->
         entry (computeRecurrenceMatrix signal eps m tau) i j = 1%nat)
  /\ (forall signal m r,
         r <= 0 -> callCalculateSampEn signal m r = Returned (Num sampEnSentinel))
  /\ (forall m r,
         (0 <= m)%Z -> callCalculateSampEn [] m r = Returned (Num sampEnSentinel))
  /\ (forall counts, callCalculateFD counts = Returned (slopeOver sizes counts))
  /\ length sizes = 6%nat.
Proof.
  repeat split.
  - intros. now apply negative_threshold_entries.
  - intros. now apply empty_signal_matrix.
  - intros. now apply zero_dimension_entries.
  - intros. unfold callCalculateSampEn. f_equal.
    now apply nonpositive_tolerance_sentinel.
  - intros. unfold callCalculateSampEn. f_equal.
    now apply empty_signal_sentinel.
Qed.

(* ================================================================== *)
(** * Part III: further properties of the two components *)
(* ================================================================== *)

(** ** The matrix of the step-by-step builder *)

Section StepBuilder.

Variable signal : list R.
Variable threshold : R.

Local Abbreviation size := (length signal).

Lemma stepMatrix_square : isSquare (stepMatrix signal threshold) size.
Proof.
  unfold stepMatrix. split; [apply length_map |].
  intros row Hrow. apply in_map_iff in Hrow. destruct Hrow as (vi & <- & _).
  apply length_map.
Qed.

Lemma entry_stepMatrix (i j : nat) :
  (i < size)%nat -> (j < size)%nat ->
  entry (stepMatrix signal threshold) i j
  = if nle (nabs (fsub (Num (nth i signal 0)) (Num (nth j signal 0))))
           (Num threshold)
    then 1%nat else 0%nat.
Proof.
  intros Hi Hj. unfold entry, stepMatrix.
  rewrite (nth_indep _ [] (map (fun vj => if nle (nabs (fsub (Num 0) (Num vj)))
                                               (Num threshold)
                                          then 1%nat else 0%nat) signal))
    by now rewrite length_map.
  rewrite (map_nth (fun vi => map (fun vj => if nle (nabs (fsub (Num vi) (Num vj)))
                                                   (Num threshold)
                                             then 1%nat else 0%nat) signal)
                   signal 0 i).
  rewrite (nth_indep _ 0%nat
             (if nle (nabs (fsub (Num (nth i signal 0)) (Num 0))) (Num threshold)
              then 1%nat else 0%nat))
    by now rewrite length_map.
  now rewrite (map_nth (fun vj => if nle (nabs (fsub (Num (nth i signal 0)) (Num vj)))
                                        (Num threshold)
                                  then 1%nat else 0%nat)
                       signal 0 j).
Qed.

End StepBuilder.

(** X1. The matrix the step-by-step builder computes is a recurrence
    matrix in its own right: it is square of the size of the signal and
    symmetric, and for a threshold that is not negative its main diagonal
    is all 1s, while a negative threshold leaves no 1 at all.  The
    difference of two samples is taken rounded, as the subtraction rounds
    it. *)
Theorem stepMatrix_symmetric_unit_diagonal (signal : list R) (threshold : R) :
  let M := stepMatrix signal threshold in
  let n := length signal in
  isSquare M n
  /\ (forall i j, entry M i j = entry M j i)
  /\ (0 <= threshold -> forall i, (i < n)%nat -> entry M i i = 1%nat)
  /\ (threshold < 0 -> forall i j, entry M i j = 0%nat).
Proof.
  intros M n. pose proof (stepMatrix_square signal threshold) as Hsq.
  fold M n in Hsq.
  assert (Hout : forall i j, (n <= i)%nat \/ (n <= j)%nat -> entry M i j = 0%nat)
    by (intros i j; apply entry_out_of_range; exact Hsq).
  split; [exact Hsq | split; [| split]].
  - intros i j.
    destruct (Nat.lt_ge_cases i n) as [Hi | Hi];
      [destruct (Nat.lt_ge_cases j n) as [Hj | Hj] |].
    + unfold M. rewrite !entry_stepMatrix by assumption.
      now rewrite fsub_swap.
    + now rewrite !Hout by auto.
    + now rewrite !Hout by auto.
  - intros Hth i Hi. unfold M. rewrite entry_stepMatrix by assumption.
    rewrite fsub_self. simpl. rewrite Rabs_R0.
    apply Rleb_true in Hth. now rewrite Hth.
  - intros Hth i j.
    destruct (Nat.lt_ge_cases i n) as [Hi | Hi];
      [destruct (Nat.lt_ge_cases j n) as [Hj | Hj] |]; auto.
    unfold M. rewrite entry_stepMatrix by assumption.
    pose proof (nabs_fl_nonneg (nth i signal 0 + - nth j signal 0)) as Hd.
    change (nabs (fsub (Num (nth i signal 0)) (Num (nth j signal 0))))
      with (nabs (fl (Num (nth i signal 0 + - nth j signal 0)))).
    destruct (nabs (fl (Num (nth i signal 0 + - nth j signal 0)))) as [d | | |];
      simpl in Hd |- *; try tauto.
    assert (H : Rleb d threshold = false) by (apply Rleb_false; lra).
    now rewrite H.
Qed.

(** ** Highlighting *)

Section RunCover.

(** Every 1 of a bit sequence lies in a maximal run. *)
Lemma maximalRun_covers (bits : list bool) :
  forall p, nth p bits false = true ->
            exists s len, isMaximalRun bits s len /\ (s <= p < s + len)%nat.
Proof.
  induction bits as [| b rest IH]; intros p Hp.
  - destruct p; discriminate.
  - destruct p as [| p'].
    + simpl in Hp. subst b.
      destruct (nth 0 rest false) eqn:Hhead.
      * destruct (IH 0%nat Hhead) as (s & len & Hrun & Hs).
        assert (s = 0%nat) by lia. subst s.
        exists 0%nat, (S len). split; [| lia].
        apply maximalRun_at_first. split; [reflexivity |]. right. now exists len.
      * exists 0%nat, 1%nat. split; [| lia].
        apply maximalRun_at_first. split; [reflexivity |]. now left.
    + simpl in Hp. destruct (IH p' Hp) as (s & len & Hrun & Hs).
      destruct s as [| s'].
      * destruct b.
        -- exists 0%nat, (S len). split; [| lia].
           apply maximalRun_at_first. split; [reflexivity |]. right.
           now exists len.
        -- exists 1%nat, len. split; [| lia].
           apply (proj2 (maximalRun_after_first _ _ _)). now split.
      * exists (S (S s')), len. split; [| lia].
        now apply (proj2 (maximalRun_shift _ _ _ _)).
Qed.

(** A stretch of 1s lies inside the maximal run through any of its bits. *)
Lemma maximalRun_contains (bits : list bool) (s len s' len' p : nat) :
  isMaximalRun bits s' len' -> (s' <= p < s' + len')%nat ->
  (s <= p < s + len)%nat ->
  (forall q, (s <= q < s + len)%nat -> nth q bits false = true) ->
  (s' <= s /\ s + len <= s' + len')%nat.
Proof.
  intros (Hl & Hall & Hleft & Hright) Hp' Hp Hrun. split.
  - destruct (Nat.le_gt_cases s' s) as [H | H]; [exact H | exfalso].
    destruct s' as [| t]; [lia |].
    assert (Ht : nth t bits false = true) by (apply Hrun; lia).
    rewrite (Hleft t eq_refl) in Ht. discriminate.
  - destruct (Nat.le_gt_cases (s + len) (s' + len')) as [H | H];
      [exact H | exfalso].
    assert (Ht : nth (s' + len') bits false = true) by (apply Hrun; lia).
    rewrite Hright in Ht. discriminate.
Qed.

Variable matrix : list (list nat).
Variable minLength : Z.

(** Lying in a long stretch of 1s is lying in a long maximal run. *)
Lemma inLongRun_maximal (cells : list (nat * nat)) (p : nat) :
  inLongRun matrix minLength cells p <->
  exists s len, isMaximalRun (map (isOne matrix) cells) s len
                /\ (minLength <= Z.of_nat len)%Z /\ (s <= p < s + len)%nat.
Proof.
  split.
  - intros (s & len & Hlen & Hp & Hrun).
    destruct (maximalRun_covers _ p (Hrun p Hp)) as (s' & len' & Hmax & Hp').
    destruct (maximalRun_contains _ s len s' len' p Hmax Hp' Hp Hrun).
    exists s', len'. split; [exact Hmax | split; lia].
  - intros (s & len & (Hl & Hall & _) & Hlen & Hp).
    exists s, len. auto.
Qed.

End RunCover.

Section Highlight.

Lemma someThrowing_existsb {A : Type} (f : A -> Completion bool)
      (g : A -> bool) (l : list A) :
  (forall x, In x l -> f x = Returned (g x)) ->
  someThrowing f l = Returned (existsb g l).
Proof.
  induction l as [| x l IH]; intros H; simpl; [reflexivity |].
  rewrite (H x) by now left.
  destruct (g x); [reflexivity |]. apply IH. intros y Hy. apply H. now right.
Qed.

Variable matrix : list (list nat).
Variable minLength : Z.
Hypothesis minLength_pos : (1 <= minLength)%Z.

Local Abbreviation n := (length matrix).

Lemma nth_error_column (j s : nat) (ij : nat * nat) :
  nth_error (column n j) s = Some ij -> ij = (s, j) /\ (s < n)%nat.
Proof.
  unfold column. intros H.
  destruct (Nat.lt_ge_cases s n) as [Hs | Hs].
  - rewrite nth_error_map_seq in H by exact Hs. now inversion H.
  - assert (Hnone : nth_error (map (fun i => (i, j)) (seq 0 n)) s = None)
      by (apply nth_error_None; now rewrite length_map, length_seq).
    congruence.
Qed.

Lemma nth_error_row (i s : nat) (ij : nat * nat) :
  nth_error (row n i) s = Some ij -> ij = (i, s) /\ (s < n)%nat.
Proof.
  unfold row. intros H.
  destruct (Nat.lt_ge_cases s n) as [Hs | Hs].
  - rewrite nth_error_map_seq in H by exact Hs. now inversion H.
  - assert (Hnone : nth_error (map (fun j => (i, j)) (seq 0 n)) s = None)
      by (apply nth_error_None; now rewrite length_map, length_seq).
    congruence.
Qed.

Lemma nth_error_upperDiag (k s : nat) (ij : nat * nat) :
  nth_error (upperDiag n k) s = Some ij ->
  ij = (s, s + k)%nat /\ (s < n - k)%nat.
Proof.
  unfold upperDiag. intros H.
  destruct (Nat.lt_ge_cases s (n - k)) as [Hs | Hs].
  - rewrite nth_error_map_seq in H by exact Hs. now inversion H.
  - assert (Hnone : nth_error (map (fun i => (i, i + k)%nat) (seq 0 (n - k))) s
                    = None)
      by (apply nth_error_None; now rewrite length_map, length_seq).
    congruence.
Qed.

Lemma nth_error_lowerDiag (k s : nat) (ij : nat * nat) :
  nth_error (lowerDiag n k) s = Some ij ->
  ij = (s + k, s)%nat /\ (s < n - k)%nat.
Proof.
  unfold lowerDiag. intros H.
  destruct (Nat.lt_ge_cases s (n - k)) as [Hs | Hs].
  - rewrite nth_error_map_seq in H by exact Hs. now inversion H.
  - assert (Hnone : nth_error (map (fun j => (j + k, j)%nat) (seq 0 (n - k))) s
                    = None)
      by (apply nth_error_None; now rewrite length_map, length_seq).
    congruence.
Qed.

(** A maximal run starts at a cell of its sequence. *)
Lemma maximalRun_start (cells : list (nat * nat)) (s len : nat) :
  isMaximalRun (map (isOne matrix) cells) s len ->
  exists ij, nth_error cells s = Some ij.
Proof.
  intros Hrun. pose proof (maximalRun_within _ _ _ Hrun) as Hw.
  rewrite length_map in Hw. destruct Hrun as (Hl & _).
  destruct (nth_error cells s) as [ij |] eqn:E; [now exists ij |].
  apply nth_error_None in E. lia.
Qed.

Lemma callbacks_return (i j : nat) (line : Line.t) :
  Line.start line <> None ->
  onVerticalLine i j line = Returned (verticalTest i j line)
  /\ onHorizontalLine i j line = Returned (horizontalTest i j line)
  /\ onDiagonalLine i j line = Returned (diagonalTest i j line).
Proof.
  unfold onVerticalLine, onHorizontalLine, onDiagonalLine, withinFrom,
    verticalTest, horizontalTest, diagonalTest.
  destruct (Line.start line) as [s |]; [| congruence]. intros _.
  repeat split. destruct (Line.k line) as [k |]; [| reflexivity].
  destruct (0 <? k)%Z.
  - now destruct (Z.of_nat j - Z.of_nat i =? k)%Z.
  - now destruct (Z.of_nat i - Z.of_nat j =? - k)%Z.
Qed.

Lemma segment_started (mkLine : option (nat * nat) -> nat -> Line.t)
      (cells : list (nat * nat)) (line : Line.t) :
  (forall s l, Line.start (mkLine s l) = s) ->
  isSegment matrix minLength mkLine cells line -> Line.start line <> None.
Proof.
  intros Hstart (s & l & ij & _ & _ & _ & ->). rewrite Hstart. discriminate.
Qed.

(** With a minimum length of at least 1 every extracted line has a start. *)
Lemma extracted_lines_started (line : Line.t) :
  In line (findDiagonalLines matrix minLength)
  \/ In line (findVerticalLines matrix minLength)
  \/ In line (findHorizontalLines matrix minLength) ->
  Line.start line <> None.
Proof.
  destruct (extractors_spec matrix minLength minLength_pos)
    as (Hd & Hv & Hh & _).
  intros [H | [H | H]].
  - apply Hd in H. destruct H as (k & _ & [H | H]);
      now apply segment_started in H.
  - apply Hv in H. destruct H as (j & _ & H). now apply segment_started in H.
  - apply Hh in H. destruct H as (i & _ & H). now apply segment_started in H.
Qed.

Lemma vertical_highlight (i j : nat) :
  existsb (verticalTest i j) (findVerticalLines matrix minLength) = true
  <-> (j < n)%nat /\ inLongRun matrix minLength (column n j) i.
Proof.
  destruct (extractors_spec matrix minLength minLength_pos) as (_ & Hv & _).
  rewrite existsb_exists, inLongRun_maximal. split.
  - intros (line & Hin & Htest). apply Hv in Hin.
    destruct Hin as (j' & Hj' & s & len & ij & Hrun & Hlen & Hs & ->).
    apply nth_error_column in Hs. destruct Hs as [-> _].
    unfold verticalTest in Htest. simpl in Htest.
    apply andb_prop in Htest. destruct Htest as [Hj Hi].
    apply andb_prop in Hi. destruct Hi as [Hlo Hhi].
    apply Nat.eqb_eq in Hj. apply Nat.leb_le in Hlo. apply Nat.ltb_lt in Hhi.
    subst j'. split; [exact Hj' |]. exists s, len. auto.
  - intros (Hj & s & len & Hrun & Hlen & Hi).
    destruct (maximalRun_start _ _ _ Hrun) as [ij Hs].
    pose proof (nth_error_column _ _ _ Hs) as [-> _].
    exists (vertLine (Some (s, j)) len). split.
    + apply Hv. exists j. split; [exact Hj |]. exists s, len, (s, j). auto.
    + unfold verticalTest. simpl. rewrite Nat.eqb_refl. simpl.
      apply andb_true_intro. split; [apply Nat.leb_le | apply Nat.ltb_lt]; lia.
Qed.

Lemma horizontal_highlight (i j : nat) :
  existsb (horizontalTest i j) (findHorizontalLines matrix minLength) = true
  <-> (i < n)%nat /\ inLongRun matrix minLength (row n i) j.
Proof.
  destruct (extractors_spec matrix minLength minLength_pos) as (_ & _ & Hh & _).
  rewrite existsb_exists, inLongRun_maximal. split.
  - intros (line & Hin & Htest). apply Hh in Hin.
    destruct Hin as (i' & Hi' & s & len & ij & Hrun & Hlen & Hs & ->).
    apply nth_error_row in Hs. destruct Hs as [-> _].
    unfold horizontalTest in Htest. simpl in Htest.
    apply andb_prop in Htest. destruct Htest as [Hi Hj].
    apply andb_prop in Hj. destruct Hj as [Hlo Hhi].
    apply Nat.eqb_eq in Hi. apply Nat.leb_le in Hlo. apply Nat.ltb_lt in Hhi.
    subst i'. split; [exact Hi' |]. exists s, len. auto.
  - intros (Hi & s & len & Hrun & Hlen & Hj).
    destruct (maximalRun_start _ _ _ Hrun) as [ij Hs].
    pose proof (nth_error_row _ _ _ Hs) as [-> _].
    exists (horizLine (Some (i, s)) len). split.
    + apply Hh. exists i. split; [exact Hi |]. exists s, len, (i, s). auto.
    + unfold horizontalTest. simpl. rewrite Nat.eqb_refl. simpl.
      apply andb_true_intro. split; [apply Nat.leb_le | apply Nat.ltb_lt]; lia.
Qed.

Lemma diagonal_highlight (i j : nat) :
  existsb (diagonalTest i j) (findDiagonalLines matrix minLength) = true
  <-> ((i < j)%nat /\ inLongRun matrix minLength (upperDiag n (j - i)) i)
      \/ ((j < i)%nat /\ inLongRun matrix minLength (lowerDiag n (i - j)) j).
Proof.
  destruct (extractors_spec matrix minLength minLength_pos) as (Hd & _).
  rewrite existsb_exists, !inLongRun_maximal. split.
  - intros (line & Hin & Htest). apply Hd in Hin.
    destruct Hin as (k & Hk & [Hseg | Hseg]);
      destruct Hseg as (s & len & ij & Hrun & Hlen & Hs & ->).
    + apply nth_error_upperDiag in Hs. destruct Hs as [-> _].
      unfold diagonalTest in Htest. simpl in Htest.
      destruct (Z.ltb_spec 0 (Z.of_nat k)); [| lia].
      apply andb_prop in Htest. destruct Htest as [Hoff Hi].
      apply andb_prop in Hi. destruct Hi as [Hlo Hhi].
      apply Z.eqb_eq in Hoff. apply Nat.leb_le in Hlo. apply Nat.ltb_lt in Hhi.
      left. split; [lia |]. replace (j - i)%nat with k by lia.
      exists s, len. auto.
    + apply nth_error_lowerDiag in Hs. destruct Hs as [-> _].
      unfold diagonalTest in Htest. simpl in Htest.
      destruct (Z.ltb_spec 0 (- Z.of_nat k)); [lia |].
      apply andb_prop in Htest. destruct Htest as [Hoff Hj].
      apply andb_prop in Hj. destruct Hj as [Hlo Hhi].
      apply Z.eqb_eq in Hoff. apply Nat.leb_le in Hlo. apply Nat.ltb_lt in Hhi.
      right. split; [lia |]. replace (i - j)%nat with k by lia.
      exists s, len. auto.
  - intros [(Hij & s & len & Hrun & Hlen & Hp) | (Hij & s & len & Hrun & Hlen & Hp)].
    + destruct (maximalRun_start _ _ _ Hrun) as [ij Hs].
      pose proof (nth_error_upperDiag _ _ _ Hs) as [-> Hsn].
      exists (diagLine (Z.of_nat (j - i)) (Some (s, s + (j - i))%nat) len). split.
      * apply Hd. exists (j - i)%nat. split; [lia |]. left.
        exists s, len, (s, s + (j - i))%nat. auto.
      * unfold diagonalTest. simpl.
        destruct (Z.ltb_spec 0 (Z.of_nat (j - i))); [| lia].
        apply andb_true_intro. split; [apply Z.eqb_eq; lia |].
        apply andb_true_intro. split; [apply Nat.leb_le | apply Nat.ltb_lt]; lia.
    + destruct (maximalRun_start _ _ _ Hrun) as [ij Hs].
      pose proof (nth_error_lowerDiag _ _ _ Hs) as [-> Hsn].
      exists (diagLine (- Z.of_nat (i - j)) (Some (s + (i - j), s)%nat) len). split.
      * apply Hd. exists (i - j)%nat. split; [lia |]. right.
        exists s, len, (s + (i - j), s)%nat. auto.
      * unfold diagonalTest. simpl.
        destruct (Z.ltb_spec 0 (- Z.of_nat (i - j))); [lia |].
        apply andb_true_intro. split; [apply Z.eqb_eq; lia |].
        apply andb_true_intro. split; [apply Nat.leb_le | apply Nat.ltb_lt]; lia.
Qed.

(** A position in a long run holds a recurrence point. *)
Lemma inLongRun_isOne (cells : list (nat * nat)) (p : nat) :
  inLongRun matrix minLength cells p ->
  exists ij, nth_error cells p = Some ij /\ isOne matrix ij = true.
Proof.
  intros (s & len & _ & Hp & Hrun). specialize (Hrun p Hp).
  destruct (nth_error cells p) as [ij |] eqn:E.
  - exists ij. split; [reflexivity |].
    rewrite <- Hrun. symmetry.
    apply nth_error_nth. now rewrite nth_error_map, E.
  - apply nth_error_None in E.
    rewrite nth_overflow in Hrun by now rewrite length_map.
    discriminate.
Qed.

Lemma highlightSpec_isOne (mode : string) (i j : nat) :
  highlightSpec matrix minLength mode i j -> isOne matrix (i, j) = true.
Proof.
  unfold highlightSpec. cbv zeta.
  destruct (String.eqb mode "diagonal").
  - intros [[Hij H] | [Hij H]]; apply inLongRun_isOne in H;
      destruct H as (ij & Hs & Hone).
    + apply nth_error_upperDiag in Hs. destruct Hs as [-> _].
      now replace (i + (j - i))%nat with j in Hone by lia.
    + apply nth_error_lowerDiag in Hs. destruct Hs as [-> _].
      now replace (j + (i - j))%nat with i in Hone by lia.
  - destruct (String.eqb mode "vertical").
    + intros [_ H]. apply inLongRun_isOne in H. destruct H as (ij & Hs & Hone).
      apply nth_error_column in Hs. now destruct Hs as [-> _].
    + destruct (String.eqb mode "horizontal"); [| contradiction].
      intros [_ H]. apply inLongRun_isOne in H. destruct H as (ij & Hs & Hone).
      apply nth_error_row in Hs. now destruct Hs as [-> _].
Qed.

End Highlight.

(** X2. With a minimum length of at least 1, [isHighlighted] on the
    extracted lines never throws, and it returns [true] for cell [(i, j)]
    exactly when the cell lies, along the orientation of the mode, in a
    stretch of at least [minLength] consecutive recurrence points (off the
    main diagonal in the diagonal mode).  Only recurrence points are
    highlighted, and no cell is in an unknown mode. *)
Theorem highlight_marks_long_runs
        (matrix : list (list nat)) (minLength : Z) (mode : string) (i j : nat) :
  (1 <= minLength)%Z ->
  exists b,
    highlightOf matrix minLength mode i j = Returned b
    /\ (b = true <-> highlightSpec matrix minLength mode i j)
    /\ (b = true -> isOne matrix (i, j) = true).
Proof.
  intros Hmin.
  assert (Hstarted : forall line,
             In line (findDiagonalLines matrix minLength)
             \/ In line (findVerticalLines matrix minLength)
             \/ In line (findHorizontalLines matrix minLength) ->
             Line.start line <> None)
    by (intros line; now apply extracted_lines_started).
  assert (Hmain : exists b,
             highlightOf matrix minLength mode i j = Returned b
             /\ (b = true <-> highlightSpec matrix minLength mode i j)).
  { unfold highlightOf, isHighlighted, highlightSpec. cbv zeta.
    destruct (String.eqb mode "diagonal").
    - exists (existsb (diagonalTest i j) (findDiagonalLines matrix minLength)).
      split; [| now apply diagonal_highlight].
      apply someThrowing_existsb. intros line Hin.
      apply callbacks_return. apply Hstarted. now left.
    - destruct (String.eqb mode "vertical").
      + exists (existsb (verticalTest i j) (findVerticalLines matrix minLength)).
        split; [| now apply vertical_highlight].
        apply someThrowing_existsb. intros line Hin.
        apply callbacks_return. apply Hstarted. right. now left.
      + destruct (String.eqb mode "horizontal").
        * exists (existsb (horizontalTest i j)
                          (findHorizontalLines matrix minLength)).
          split; [| now apply horizontal_highlight].
          apply someThrowing_existsb. intros line Hin.
          apply callbacks_return. apply Hstarted. right. now right.
        * exists false. split; [reflexivity |]. split; [discriminate | tauto]. }
  destruct Hmain as (b & Hret & Hspec).
  exists b. split; [exact Hret | split; [exact Hspec |]].
  intros Hb. apply Hspec in Hb. now apply highlightSpec_isOne in Hb.
Qed.

(** Witness of X2: the 2 by 2 identity matrix, vertical mode. *)
Lemma highlight_marks_long_runs_witness :
  exists b,
    highlightOf [[1; 0]; [0; 1]]%nat 1 "vertical" 0 0 = Returned b
    /\ (b = true <-> highlightSpec [[1; 0]; [0; 1]]%nat 1 "vertical" 0 0)
    /\ (b = true -> isOne [[1; 0]; [0; 1]]%nat (0, 0)%nat = true).
Proof.
  apply (highlight_marks_long_runs [[1; 0]; [0; 1]]%nat 1 "vertical" 0 0). lia.
Defined.

(** With [minLength = 0] the extractors push lines whose start is [null],
    and the vertical callback throws on the first of them it reaches. *)
Example highlight_throws_on_null_start :
  highlightOf [[1; 0]; [0; 1]]%nat 0 "vertical" 1 1 = Thrown.
Proof. reflexivity. Qed.

(** ** Symmetric matrices: mirrored lines and the three counters *)

Section Symmetry.

Lemma mirrorLine_involutive (line : Line.t) :
  mirrorLine (mirrorLine line) = line.
Proof.
  destruct line as [[[a b] |] l t [k |]]; unfold mirrorLine; simpl;
    rewrite ?Z.opp_involutive; reflexivity.
Qed.

(** Every matrix [computeRecurrenceMatrix] returns is symmetric, whatever
    the parameters. *)
Lemma recurrence_isSymmetric (signal : list R) (eps : R) (m tau : Z) :
  isSymmetric (computeRecurrenceMatrix signal eps m tau).
Proof.
  intros i j. rewrite !isOne_entry. f_equal.
  set (n := Z.to_nat (embedCount signal m tau)).
  destruct (Nat.lt_ge_cases i n) as [Hi | Hi];
    [destruct (Nat.lt_ge_cases j n) as [Hj | Hj] |].
  - rewrite !entry_computeRecurrenceMatrix by assumption.
    now rewrite distance_sym.
  - rewrite !(entry_out_of_range _ n)
      by (auto using computeRecurrenceMatrix_square). reflexivity.
  - rewrite !(entry_out_of_range _ n)
      by (auto using computeRecurrenceMatrix_square). reflexivity.
Qed.

Variable matrix : list (list nat).
Hypothesis matrix_symmetric : isSymmetric matrix.

Local Abbreviation n := (length matrix).

Lemma mirrored_bits (k : nat) :
  map (isOne matrix) (upperDiag n k) = map (isOne matrix) (lowerDiag n k).
Proof.
  unfold upperDiag, lowerDiag. rewrite !map_map. apply map_ext.
  intros i. apply matrix_symmetric.
Qed.

Variable minLength : Z.
Hypothesis minLength_pos : (1 <= minLength)%Z.

Lemma mirror_stays (line : Line.t) :
  In line (findDiagonalLines matrix minLength) ->
  In (mirrorLine line) (findDiagonalLines matrix minLength).
Proof.
  destruct (extractors_spec matrix minLength minLength_pos) as (Hd & _).
  intros Hin. apply Hd in Hin. apply Hd.
  destruct Hin as (k & Hk & [Hseg | Hseg]);
    destruct Hseg as (s & len & ij & Hrun & Hlen & Hs & ->); exists k;
    (split; [exact Hk |]).
  - destruct (nth_error_upperDiag matrix k s ij Hs) as [-> Hsn].
    right. exists s, len, (s + k, s)%nat.
    split; [rewrite <- mirrored_bits; exact Hrun |].
    split; [exact Hlen |].
    split; [unfold lowerDiag; now rewrite nth_error_map_seq by exact Hsn | reflexivity].
  - destruct (nth_error_lowerDiag matrix k s ij Hs) as [-> Hsn].
    left. exists s, len, (s, s + k)%nat.
    split; [rewrite mirrored_bits; exact Hrun |].
    split; [exact Hlen |].
    split; [unfold upperDiag; now rewrite nth_error_map_seq by exact Hsn |].
    unfold mirrorLine, diagLine. simpl. now rewrite Z.opp_involutive.
Qed.

End Symmetry.

(** X3. The diagonal lines extracted from a recurrence matrix come in mirror
    pairs: a line is reported at offset [k] from [(i, j)] exactly when the
    line of the same length is reported at offset [-k] from [(j, i)]. *)
Theorem diagonal_lines_mirrored
        (signal : list R) (eps : R) (m tau minLength : Z) (line : Line.t) :
  (1 <= minLength)%Z ->
  let lines :=
    findDiagonalLines (computeRecurrenceMatrix signal eps m tau) minLength in
  In line lines <-> In (mirrorLine line) lines.
Proof.
  intros Hmin lines. unfold lines.
  pose proof (recurrence_isSymmetric signal eps m tau) as Hsym.
  split; intros H.
  - now apply mirror_stays.
  - rewrite <- (mirrorLine_involutive line). now apply mirror_stays.
Qed.

(** The matrix of three equal samples is all 1s. *)
Lemma recurrence_three_equal_samples :
  computeRecurrenceMatrix [0; 0; 0] 0 1 1
  = [[1; 1; 1]; [1; 1; 1]; [1; 1; 1]]%nat.
Proof.
  unfold computeRecurrenceMatrix, embedCount, embed, distance, upto, coord.
  vm_compute Z.to_nat.
  cbn [length map seq nth fold_left readZ readNat nth_error Z.of_nat Z.ltb
       Z.add Z.mul Z.compare Z.to_nat Pos.to_nat Pos.iter_op Nat.add
       Pos.of_succ_nat Pos.succ Pos.mul Pos.add Pos.compare Pos.compare_cont].
  change (Pos.to_nat 1) with 1%nat. change (Pos.to_nat 2) with 2%nat.
  cbn [readNat nth_error nsub nneg nadd npow2 nmul].
  replace (0 + (0 + - 0) * (0 + - 0)) with 0 by ring.
  rewrite !threshold_test by lra. rewrite sqrt_0.
  assert (H0 : Rleb 0 0 = true) by (apply Rleb_true; lra).
  now rewrite H0.
Qed.

(** Witness of X3: three equal samples, whose matrix has the line of length
    2 at offset 1 and its mirror image at offset -1. *)
Lemma diagonal_lines_mirrored_witness :
  let lines := findDiagonalLines (computeRecurrenceMatrix [0; 0; 0] 0 1 1) 2 in
  let line := diagLine 1 (Some (0, 1)%nat) 2 in
  lines = [line; mirrorLine line]
  /\ In line lines
  /\ (In line lines <-> In (mirrorLine line) lines).
Proof.
  assert (Hlines :
            findDiagonalLines (computeRecurrenceMatrix [0; 0; 0] 0 1 1) 2
            = [diagLine 1 (Some (0, 1)%nat) 2;
               mirrorLine (diagLine 1 (Some (0, 1)%nat) 2)])
    by (rewrite recurrence_three_equal_samples; reflexivity).
  split; [exact Hlines | split].
  - cbv zeta. rewrite Hlines. now left.
  - apply (diagonal_lines_mirrored [0; 0; 0] 0 1 1 2). lia.
Defined.

Section PairCounting.

Lemma same_members_length {A : Type} (l1 l2 : list A) :
  NoDup l1 -> NoDup l2 -> (forall x, In x l1 <-> In x l2) ->
  length l1 = length l2.
Proof.
  intros H1 H2 Hiff. apply Nat.le_antisymm; apply NoDup_incl_length;
    try assumption; intros x Hx; now apply Hiff.
Qed.

Lemma NoDup_map_injective {A B : Type} (g : A -> B) (l : list A) :
  (forall a b, g a = g b -> a = b) -> NoDup l -> NoDup (map g l).
Proof.
  intros Hinj. induction 1 as [| x l Hnotin Hl IH]; simpl; constructor;
    [| exact IH].
  intros Hin. apply in_map_iff in Hin. destruct Hin as (y & Hy & Hin).
  apply Hinj in Hy. now subst y.
Qed.

Lemma In_cellList (n : nat) (cols : nat -> list nat) (i j : nat) :
  In (i, j) (cellList n cols) <-> (i < n)%nat /\ In j (cols i).
Proof.
  unfold cellList. rewrite in_flat_map. split.
  - intros (a & Ha & Hin). apply in_map_iff in Hin.
    destruct Hin as (b & Hb & Hin). injection Hb as <- <-.
    apply in_seq in Ha. split; [lia | exact Hin].
  - intros [Hi Hj]. exists i. split; [apply in_seq; lia | now apply in_map].
Qed.

Lemma NoDup_cellList (n : nat) (cols : nat -> list nat) :
  (forall i, NoDup (cols i)) -> NoDup (cellList n cols).
Proof.
  intros Hcols. unfold cellList. apply NoDup_flat_map_disjoint.
  - apply seq_NoDup.
  - intros i _. apply NoDup_map_injective; [| apply Hcols].
    intros a b H. now inversion H.
  - intros i i' [a b] _ _ H H'. apply in_map_iff in H, H'.
    destruct H as (x & Hx & _), H' as (x' & Hx' & _). congruence.
Qed.

Lemma filter_partition {A : Type} (P Q : A -> bool) (l : list A) :
  length (filter P l)
  = (length (filter (fun x => Q x && P x) l)
     + length (filter (fun x => negb (Q x) && P x) l))%nat.
Proof.
  induction l as [| x l IH]; simpl; [reflexivity |].
  destruct (Q x), (P x); simpl; lia.
Qed.

Variable f : nat * nat -> bool.
Variable n : nat.

Local Abbreviation full := (cellList n (fun _ => seq 0 n)).
Local Abbreviation offDiagonal :=
  (fun ij : nat * nat => negb (Nat.eqb (fst ij) (snd ij)) && f ij).

Lemma upper_members (i j : nat) :
  In (i, j) (filter f (orderedPairs n)) <-> (i < j < n)%nat /\ f (i, j) = true.
Proof.
  rewrite filter_In. unfold orderedPairs. rewrite In_cellList, in_seq.
  split; intros [H1 H2]; (split; [lia | exact H2]).
Qed.

Lemma full_NoDup : NoDup full.
Proof. apply NoDup_cellList. intros _. apply seq_NoDup. Qed.

Lemma orderedPairs_NoDup : NoDup (orderedPairs n).
Proof. apply NoDup_cellList. intros i. apply seq_NoDup. Qed.

(** The pairs above the diagonal that pass an off-diagonal count. *)
Lemma offDiagonal_upper_half :
  length (filter (fun ij => Nat.ltb (fst ij) (snd ij) && offDiagonal ij) full)
  = length (filter f (orderedPairs n)).
Proof.
  apply same_members_length.
  - apply NoDup_filter, full_NoDup.
  - apply NoDup_filter, orderedPairs_NoDup.
  - intros [i j]. rewrite upper_members, filter_In, In_cellList, in_seq. simpl.
    rewrite !andb_true_iff, negb_true_iff, Nat.ltb_lt, Nat.eqb_neq.
    split; intros H; repeat split; try tauto; lia.
Qed.

Hypothesis f_symmetric : forall i j, f (i, j) = f (j, i).

(** The pairs below the diagonal are the mirror images of those above. *)
Lemma offDiagonal_lower_half :
  length (filter (fun ij => negb (Nat.ltb (fst ij) (snd ij)) && offDiagonal ij) full)
  = length (filter f (orderedPairs n)).
Proof.
  rewrite <- (length_map (fun ij : nat * nat => (snd ij, fst ij))).
  apply same_members_length.
  - apply NoDup_map_injective; [| apply NoDup_filter, full_NoDup].
    intros [a b] [c d] H. simpl in H. congruence.
  - apply NoDup_filter, orderedPairs_NoDup.
  - intros [i j]. rewrite upper_members, in_map_iff. split.
    + intros ([a b] & Hab & Hin). simpl in Hab. injection Hab as <- <-.
      apply filter_In in Hin. destruct Hin as [Hin Htest].
      apply In_cellList in Hin. rewrite in_seq in Hin. simpl in Htest.
      rewrite !andb_true_iff, !negb_true_iff, Nat.ltb_ge, Nat.eqb_neq in Htest.
      rewrite f_symmetric. split; [lia | tauto].
    + intros [Hij Hf]. exists (j, i). split; [reflexivity |].
      apply filter_In. split.
      * apply In_cellList. rewrite in_seq. lia.
      * simpl. rewrite !andb_true_iff, !negb_true_iff, Nat.ltb_ge, Nat.eqb_neq.
        rewrite f_symmetric. repeat split; try lia. exact Hf.
Qed.

(** A symmetric test holds on twice as many off-diagonal pairs as on pairs
    [i < j]. *)
Lemma offDiagonal_twice_upper :
  length (filter offDiagonal full)
  = (2 * length (filter f (orderedPairs n)))%nat.
Proof.
  rewrite (filter_partition offDiagonal
                            (fun ij => Nat.ltb (fst ij) (snd ij)) full).
  rewrite offDiagonal_upper_half, offDiagonal_lower_half. lia.
Qed.

(** Where the test holds all along the diagonal, it holds on [n] diagonal
    pairs. *)
Lemma diagonal_count :
  (forall i, (i < n)%nat -> f (i, i) = true) ->
  length (filter (fun ij => Nat.eqb (fst ij) (snd ij) && f ij) full) = n.
Proof.
  intros Hdiag.
  transitivity (length (map (fun i : nat => (i, i)) (seq 0 n)));
    [| now rewrite length_map, length_seq].
  apply same_members_length.
  - apply NoDup_filter, full_NoDup.
  - apply NoDup_map_injective; [| apply seq_NoDup].
    intros a b H. now inversion H.
  - intros [i j]. rewrite filter_In, In_cellList, in_map_iff, in_seq. simpl.
    rewrite andb_true_iff, Nat.eqb_eq. split.
    + intros [[Hi Hj] [-> Hf]]. exists j. split; [reflexivity |].
      apply in_seq. lia.
    + intros (a & Ha & Hin). injection Ha as <- <-. apply in_seq in Hin.
      repeat split; try lia. apply Hdiag. lia.
Qed.

Lemma all_is_diagonal_plus_offDiagonal :
  length (filter f full)
  = (length (filter (fun ij => Nat.eqb (fst ij) (snd ij) && f ij) full)
     + length (filter offDiagonal full))%nat.
Proof. apply filter_partition. Qed.

End PairCounting.

Section UnitDiagonal.

Lemma recurrence_unit_diagonal (signal : list R) (eps : R) (m tau : Z) (i : nat) :
  0 <= eps -> (1 <= m)%Z -> (1 <= tau)%Z ->
  (i < length (computeRecurrenceMatrix signal eps m tau))%nat ->
  isOne (computeRecurrenceMatrix signal eps m tau) (i, i) = true.
Proof.
  intros He Hm Ht Hi. rewrite computeRecurrenceMatrix_length in Hi.
  rewrite isOne_entry, entry_computeRecurrenceMatrix by assumption.
  rewrite self_distance_zero by assumption.
  simpl. apply Rleb_true in He. now rewrite He.
Qed.

(** The counters of [rqaMeasures] on a recurrence matrix. *)
Lemma counters_of_recurrence_matrix
      (signal : list R) (eps : R) (m tau minLength : Z) :
  0 <= eps -> (1 <= m)%Z -> (1 <= tau)%Z ->
  let ms := measuresOfSignal signal eps m tau minLength in
  let n := length (computeRecurrenceMatrix signal eps m tau) in
  recurrentPointsExcludingLOI ms = (2 * upperTriangleRecurrentPoints ms)%nat
  /\ recurrentPoints ms = (n + recurrentPointsExcludingLOI ms)%nat.
Proof.
  intros He Hm Ht ms n. unfold ms, measuresOfSignal, measuresOfMatrix, rqaMeasures.
  cbn [recurrentPointsExcludingLOI upperTriangleRecurrentPoints recurrentPoints].
  fold n. rewrite !countCells_filter.
  set (M := computeRecurrenceMatrix signal eps m tau) in *.
  pose proof (recurrence_isSymmetric signal eps m tau) as Hsym. fold M in Hsym.
  split.
  - apply (offDiagonal_twice_upper (isOne M) n). exact Hsym.
  - rewrite (all_is_diagonal_plus_offDiagonal (isOne M) n).
    rewrite diagonal_count; [reflexivity |].
    intros i Hi. now apply recurrence_unit_diagonal.
Qed.

End UnitDiagonal.

(** X4. On a recurrence matrix computed with [eps >= 0] and [m, tau >= 1] the
    three counters of [rqaMeasures] are tied together: the points off the
    line of identity are twice the points of the upper triangle, and all
    points are those plus the [n] points of the line of identity. *)
Theorem recurrence_point_counters
        (signal : list R) (eps : R) (m tau minLength : Z) :
  0 <= eps -> (1 <= m)%Z -> (1 <= tau)%Z ->
  let ms := measuresOfSignal signal eps m tau minLength in
  let n := length (computeRecurrenceMatrix signal eps m tau) in
  recurrentPointsExcludingLOI ms = (2 * upperTriangleRecurrentPoints ms)%nat
  /\ recurrentPoints ms = (n + recurrentPointsExcludingLOI ms)%nat.
Proof.
  intros He Hm Ht ms n.
  unfold ms, measuresOfSignal, measuresOfMatrix, rqaMeasures.
  cbn [recurrentPointsExcludingLOI upperTriangleRecurrentPoints recurrentPoints].
  fold n. rewrite !countCells_filter.
  set (M := computeRecurrenceMatrix signal eps m tau) in *.
  pose proof (recurrence_isSymmetric signal eps m tau) as Hsym. fold M in Hsym.
  split.
  - apply (offDiagonal_twice_upper (isOne M) n). exact Hsym.
  - rewrite (all_is_diagonal_plus_offDiagonal (isOne M) n).
    rewrite diagonal_count; [reflexivity |].
    intros i Hi. now apply recurrence_unit_diagonal.
Qed.

(** Witness of X4. *)
Lemma recurrence_point_counters_witness :
  let ms := measuresOfSignal [0; 1] 1 1 1 2 in
  let n := length (computeRecurrenceMatrix [0; 1] 1 1 1) in
  recurrentPointsExcludingLOI ms = (2 * upperTriangleRecurrentPoints ms)%nat
  /\ recurrentPoints ms = (n + recurrentPointsExcludingLOI ms)%nat.
Proof.
  apply (recurrence_point_counters [0; 1] 1 1 1 2); [lra | lia | lia].
Defined.

(** X5. With [eps >= 0], [m, tau >= 1] and a signal longer than
    [(m-1) tau], the matrix has at least one row, every one of the seven
    measures is a finite number, and the recurrence rate is
    [(n + 2U) / n^2] where [U] counts the upper-triangle points: it is at
    least [1/n], the share of the line of identity. *)
Theorem recurrence_rate_at_least_identity
        (signal : list R) (eps : R) (m tau minLength : Z) :
  0 <= eps -> (1 <= m)%Z -> (1 <= tau)%Z ->
  ((m - 1) * tau < Z.of_nat (length signal))%Z ->
  let ms := measuresOfSignal signal eps m tau minLength in
  let n := length (computeRecurrenceMatrix signal eps m tau) in
  (1 <= n)%nat
  /\ RR ms = Num (INR (n + 2 * upperTriangleRecurrentPoints ms) / INR (n * n))
  /\ 1 / INR n <= INR (n + 2 * upperTriangleRecurrentPoints ms) / INR (n * n)
  /\ isFinite (DET ms) /\ isFinite (LAM ms)
  /\ isFinite (avgDiagLength ms) /\ isFinite (avgVertLength ms)
  /\ isFinite (maxDiagLength ms) /\ isFinite (entropy ms).
Proof.
  intros He Hm Ht HN ms n.
  assert (Hn : (1 <= n)%nat).
  { unfold n. rewrite computeRecurrenceMatrix_length. unfold embedCount. lia. }
  destruct (counters_of_recurrence_matrix signal eps m tau minLength He Hm Ht)
    as [Hexcl Hall].
  fold ms n in Hexcl, Hall.
  pose proof (rqa_measures_finite
                (computeRecurrenceMatrix signal eps m tau)
                (findDiagonalLines (computeRecurrenceMatrix signal eps m tau)
                                   minLength)
                (findVerticalLines (computeRecurrenceMatrix signal eps m tau)
                                   minLength)) as Hfin.
  cbv zeta in Hfin.
  fold (measuresOfMatrix (computeRecurrenceMatrix signal eps m tau) minLength)
    in Hfin.
  fold (measuresOfSignal signal eps m tau minLength) in Hfin. fold ms in Hfin.
  destruct Hfin as (H1 & H2 & H3 & H4 & H5 & H6 & _).
  split; [exact Hn |].
  split; [| split; [| tauto]].
  - rewrite <- Hexcl, <- Hall.
    unfold ms, measuresOfSignal, measuresOfMatrix, rqaMeasures.
    cbn [RR recurrentPoints]. fold n. apply ndiv_nat. nia.
  - assert (Hpos : 0 < INR n) by (apply lt_0_INR; lia).
    rewrite mult_INR, plus_INR.
    pose proof (pos_INR (2 * upperTriangleRecurrentPoints ms)) as HU.
    apply Rmult_le_reg_r with (r := INR n * INR n); [nra |].
    field_simplify; [| lra | lra]. nra.
Qed.

(** Witness of X5. *)
Lemma recurrence_rate_at_least_identity_witness :
  let ms := measuresOfSignal [0; 1] 1 1 1 2 in
  let n := length (computeRecurrenceMatrix [0; 1] 1 1 1) in
  (1 <= n)%nat
  /\ RR ms = Num (INR (n + 2 * upperTriangleRecurrentPoints ms) / INR (n * n))
  /\ 1 / INR n <= INR (n + 2 * upperTriangleRecurrentPoints ms) / INR (n * n)
  /\ isFinite (DET ms) /\ isFinite (LAM ms)
  /\ isFinite (avgDiagLength ms) /\ isFinite (avgVertLength ms)
  /\ isFinite (maxDiagLength ms) /\ isFinite (entropy ms).
Proof.
  apply (recurrence_rate_at_least_identity [0; 1] 1 1 1 2);
    [lra | lia | lia | simpl; lia].
Defined.

(** ** The length histogram and the entropy *)

Section Histogram.

Lemma ascending_head_bound (k0 : nat) (ks : list nat) :
  ascending (k0 :: ks) -> forall k, In k ks -> (k0 < k)%nat.
Proof.
  revert k0. induction ks as [| k1 ks IH]; intros k0 Hasc k Hin; [contradiction |].
  destruct Hasc as [H01 Hrest]. destruct Hin as [<- | Hin]; [exact H01 |].
  specialize (IH k1 Hrest k Hin). lia.
Qed.

Lemma histBump_keys (key : nat) (h : list (nat * nat)) :
  forall k, In k (map fst (histBump key h)) <-> k = key \/ In k (map fst h).
Proof.
  induction h as [| [k0 c] rest IH]; intros k; simpl.
  - split; [intros [H | []]; auto | intros [H | []]; auto].
  - destruct (Nat.eqb_spec key k0) as [-> | Hne]; simpl.
    + intuition congruence.
    + destruct (Nat.ltb_spec key k0); simpl; [intuition congruence |].
      rewrite IH. intuition congruence.
Qed.

(** Bumping a key keeps the keys strictly increasing. *)
Lemma histBump_ascending (key : nat) (h : list (nat * nat)) :
  ascending (map fst h) -> ascending (map fst (histBump key h)).
Proof.
  induction h as [| [k0 c] rest IH]; intros Hasc; simpl; [auto |].
  destruct (Nat.eqb_spec key k0) as [-> | Hne]; [exact Hasc |].
  destruct (Nat.ltb_spec key k0) as [Hlt | Hge].
  - simpl. split; [exact Hlt | exact Hasc].
  - simpl in Hasc. destruct Hasc as [Hhead Hrest].
    specialize (IH Hrest).
    change (ascending (k0 :: map fst (histBump key rest))).
    simpl. split; [| exact IH].
    destruct (map fst (histBump key rest)) as [| k1 ks] eqn:E; [exact I |].
    assert (Hin : In k1 (map fst (histBump key rest))) by (rewrite E; now left).
    apply histBump_keys in Hin. destruct Hin as [-> | Hin]; [lia |].
    apply (ascending_head_bound k0 (map fst rest)); [| exact Hin].
    simpl. split; [exact Hhead | exact Hrest].
Qed.

(** Bumping a key adds one to its count and leaves the other counts. *)
Lemma histBump_lookup (key k : nat) (h : list (nat * nat)) :
  ascending (map fst h) ->
  histLookup k (histBump key h)
  = ((if Nat.eqb k key then 1 else 0) + histLookup k h)%nat.
Proof.
  induction h as [| [k0 c] rest IH]; intros Hasc; simpl.
  - destruct (Nat.eqb k key); reflexivity.
  - destruct (Nat.eqb_spec key k0) as [-> | Hne]; simpl.
    + destruct (Nat.eqb_spec k k0); reflexivity.
    + destruct (Nat.ltb_spec key k0) as [Hlt | Hge]; simpl.
      * destruct (Nat.eqb_spec k key) as [-> | Hk]; [| reflexivity].
        destruct (Nat.eqb_spec key k0); [lia |].
        assert (Hmiss : histLookup key rest = 0%nat).
        { clear IH. simpl in Hasc.
          assert (Hall : forall x, In x (map fst rest) -> (k0 < x)%nat)
            by (apply ascending_head_bound; exact Hasc).
          clear Hasc. induction rest as [| [k1 c1] rest IH]; [reflexivity |].
          simpl. destruct (Nat.eqb_spec key k1) as [-> | _].
          - specialize (Hall k1 (or_introl eq_refl)). lia.
          - apply IH. intros x Hx. apply Hall. now right. }
        rewrite Hmiss. reflexivity.
      * simpl in Hasc. destruct Hasc as [_ Hrest].
        destruct (Nat.eqb_spec k k0) as [-> | Hk].
        -- destruct (Nat.eqb_spec k0 key); [lia | reflexivity].
        -- now apply IH.
Qed.

Lemma histBump_sum (key : nat) (h : list (nat * nat)) :
  list_sum (map snd (histBump key h)) = S (list_sum (map snd h)).
Proof.
  induction h as [| [k0 c] rest IH]; simpl; [reflexivity |].
  destruct (Nat.eqb key k0); simpl; [reflexivity |].
  destruct (Nat.ltb key k0); simpl; [reflexivity |]. rewrite IH. lia.
Qed.

Lemma histBump_positive (key : nat) (h : list (nat * nat)) :
  Forall (fun kc => (1 <= snd kc)%nat) h ->
  Forall (fun kc => (1 <= snd kc)%nat) (histBump key h).
Proof.
  induction h as [| [k0 c] rest IH]; intros Hpos; simpl.
  - constructor; [simpl; lia | constructor].
  - inversion Hpos as [| ? ? Hc Hrest]; subst.
    destruct (Nat.eqb key k0); [constructor; [simpl; lia | exact Hrest] |].
    destruct (Nat.ltb key k0).
    + constructor; [simpl; lia | exact Hpos].
    + constructor; [exact Hc | now apply IH].
Qed.

Lemma linesOfLength_cons (k : nat) (line : Line.t) (ls : list Line.t) :
  linesOfLength k (line :: ls)
  = ((if Nat.eqb k (Line.length line) then 1 else 0) + linesOfLength k ls)%nat.
Proof.
  unfold linesOfLength. simpl. rewrite (Nat.eqb_sym k).
  destruct (Nat.eqb (Line.length line) k); reflexivity.
Qed.

(** The histogram built over any starting histogram. *)
Lemma histogram_from (ls : list Line.t) :
  forall h,
    ascending (map fst h) ->
    Forall (fun kc => (1 <= snd kc)%nat) h ->
    let h' := fold_left (fun h line => histBump (Line.length line) h) ls h in
    ascending (map fst h')
    /\ (forall k, histLookup k h' = (linesOfLength k ls + histLookup k h)%nat)
    /\ list_sum (map snd h') = (length ls + list_sum (map snd h))%nat
    /\ Forall (fun kc => (1 <= snd kc)%nat) h'.
Proof.
  induction ls as [| line ls IH]; intros h Hasc Hpos; cbn [fold_left].
  - cbv zeta. repeat split; try assumption. 
  - specialize (IH (histBump (Line.length line) h)
                   (histBump_ascending _ _ Hasc) (histBump_positive _ _ Hpos)).
    cbv zeta in IH |- *. destruct IH as (H1 & H2 & H3 & H4).
    split; [exact H1 |]. split; [| split; [| exact H4]].
    + intros k. rewrite H2, histBump_lookup, linesOfLength_cons by exact Hasc.
      lia.
    + rewrite H3, histBump_sum. simpl. lia.
Qed.

End Histogram.

(** What the histogram loop leaves behind. *)
Lemma lengthHistogram_facts (ls : list Line.t) :
  let h := lengthHistogram ls in
  ascending (map fst h)
  /\ (forall k, histLookup k h = linesOfLength k ls)
  /\ list_sum (map snd h) = length ls
  /\ Forall (fun kc => (1 <= snd kc)%nat) h.
Proof.
  destruct (histogram_from ls [] I (Forall_nil _)) as (H1 & H2 & H3 & H4).
  cbv zeta. unfold lengthHistogram.
  split; [exact H1 |]. split; [| split; [| exact H4]].
  - intros k. rewrite H2. simpl. lia.
  - rewrite H3. simpl. lia.
Qed.

(** X6. The length histogram of [rqaMeasures] has strictly increasing keys
    (the order [Object.values] reads it in), holds for each length the
    number of lines of that length, has no zero count, and its counts add up
    to the number of lines. *)
Theorem lengthHistogram_counts_lines (ls : list Line.t) :
  let h := lengthHistogram ls in
  ascending (map fst h)
  /\ (forall k, histLookup k h = linesOfLength k ls)
  /\ list_sum (map snd h) = length ls
  /\ Forall (fun kc => (1 <= snd kc)%nat) h.
Proof.
  destruct (histogram_from ls [] I (Forall_nil _)) as (H1 & H2 & H3 & H4).
  cbv zeta. unfold lengthHistogram.
  split; [exact H1 |]. split; [| split; [| exact H4]].
  - intros k. rewrite H2. simpl. lia.
  - rewrite H3. simpl. lia.
Qed.

Section Entropy.

Lemma ln_monotone (x y : R) : 0 < x -> x <= y -> ln x <= ln y.
Proof.
  intros Hx [Hlt | ->]; [| lra]. left. now apply ln_increasing.
Qed.

Lemma ln_ratio (c t : R) : 0 < c -> 0 < t -> ln (c / t) = ln c - ln t.
Proof.
  intros Hc Ht. unfold Rdiv.
  rewrite ln_mult by (try apply Rinv_0_lt_compat; assumption).
  rewrite ln_Rinv by assumption. ring.
Qed.

(** One step of the [forEach] on a bin of [c] lines out of [total]: the
    entropy grows by [(c/T) ln (T/c)], which is at most [(c/T) ln T]. *)
Lemma entropy_step (e : R) (c total : nat) :
  (1 <= c <= total)%nat ->
  exists d,
    (let p := ndiv (ofNat c) (ofNat total) in
     if ngt p (Num 0) then nsub (Num e) (nmul p (nlog p)) else Num e)
    = Num (e + d)
    /\ 0 <= d <= INR c / INR total * ln (INR total)
    /\ (c = total -> d = 0).
Proof.
  intros Hc. cbv zeta. rewrite ndiv_nat by lia.
  assert (HcR : 1 <= INR c) by (replace 1 with (INR 1) by reflexivity; apply le_INR; lia).
  assert (HtR : INR c <= INR total) by (apply le_INR; lia).
  set (p := INR c / INR total).
  assert (Hp : 0 < p) by (apply Rdiv_lt_0_compat; lra).
  assert (Hp1 : p <= 1).
  { unfold p. apply Rmult_le_reg_r with (r := INR total); [lra |].
    unfold Rdiv. rewrite Rmult_assoc, Rinv_l by lra. lra. }
  unfold ngt. simpl nlt.
  assert (H0 : Rltb 0 p = true) by now apply Rltb_true.
  rewrite H0, nlog_pos by exact Hp. simpl.
  exists (- (p * ln p)). split; [reflexivity |].
  assert (Hln : ln p = ln (INR c) - ln (INR total))
    by (apply ln_ratio; lra).
  assert (Hlnc : 0 <= ln (INR c))
    by (rewrite <- ln_1; apply ln_monotone; lra).
  assert (Hlnp : ln p <= 0) by (rewrite <- ln_1; apply ln_monotone; lra).
  split; [split |].
  - nra.
  - rewrite Hln. nra.
  - intros ->. unfold p. unfold Rdiv. rewrite Rinv_r by lra.
    rewrite ln_1. ring.
Qed.

Lemma entropy_fold (total : nat) (counts : list nat) :
  (forall c, In c counts -> (1 <= c <= total)%nat) ->
  forall e,
  exists d,
    fold_left (fun e count =>
                 let p := ndiv (ofNat count) (ofNat total) in
                 if ngt p (Num 0) then nsub e (nmul p (nlog p)) else e)
              counts (Num e)
    = Num (e + d)
    /\ 0 <= d <= INR (list_sum counts) / INR total * ln (INR total).
Proof.
  induction counts as [| c counts IH]; intros Hall e; cbn [fold_left].
  - exists 0. split; [f_equal; ring |]. simpl. lra.
  - destruct (entropy_step e c total (Hall c (or_introl eq_refl)))
      as (d1 & Heq & Hd1 & _).
    cbv zeta in Heq. rewrite Heq.
    destruct (IH (fun x Hx => Hall x (or_intror Hx)) (e + d1))
      as (d2 & Heq2 & Hd2).
    cbv zeta in Heq2 |- *.
    exists (d1 + d2). split; [rewrite Heq2; f_equal; ring |].
    change (list_sum (c :: counts)) with (c + list_sum counts)%nat.
    rewrite plus_INR. unfold Rdiv in *. lra.
Qed.

Lemma list_sum_member_le (c : nat) (l : list nat) :
  In c l -> (c <= list_sum l)%nat.
Proof.
  induction l as [| x l IH]; intros Hin; [contradiction |].
  simpl. destruct Hin as [-> | Hin]; [lia | specialize (IH Hin); lia].
Qed.

(** Lines of one common length fill a single bin. *)
Lemma histogram_single_bin (len : nat) (ls : list Line.t) :
  (forall l, In l ls -> Line.length l = len) ->
  forall c, fold_left (fun h line => histBump (Line.length line) h) ls [(len, c)]
            = [(len, (c + length ls)%nat)].
Proof.
  induction ls as [| l ls IH]; intros Hall c; cbn [fold_left].
  - simpl. now rewrite Nat.add_0_r.
  - rewrite (Hall l (or_introl eq_refl)). simpl. rewrite Nat.eqb_refl.
    rewrite IH by (intros x Hx; apply Hall; now right).
    simpl. f_equal. f_equal. lia.
Qed.

End Entropy.

(** X7. The entropy returned by [rqaMeasures] is a finite number between 0
    and the logarithm of the number of upper diagonal lines, and it is 0
    when those lines all have the same length. *)
Theorem entropy_between_zero_and_log_lines
        (matrix : list (list nat)) (diagonalLines verticalLines : list Line.t) :
  let ms := rqaMeasures matrix diagonalLines verticalLines in
  let upper := filter kPositive diagonalLines in
  exists e,
    entropy ms = Num e
    /\ 0 <= e
    /\ ((1 <= numDiagLines ms)%nat -> e <= ln (INR (numDiagLines ms)))
    /\ ((forall l1 l2, In l1 upper -> In l2 upper ->
                       Line.length l1 = Line.length l2) -> e = 0).
Proof.
  intros ms upper. unfold ms, rqaMeasures. cbn [entropy numDiagLines].
  fold upper.
  destruct (Nat.ltb_spec 0 (length upper)) as [Hpos | Hzero].
  - destruct (lengthHistogram_facts upper) as (_ & _ & Hsum & Hone).
    cbv zeta in Hsum, Hone.
    assert (Hall : forall c, In c (map snd (lengthHistogram upper)) ->
                             (1 <= c <= length upper)%nat).
    { intros c Hc. split.
      - apply in_map_iff in Hc. destruct Hc as (kc & <- & Hin).
        rewrite Forall_forall in Hone. now apply Hone.
      - rewrite <- Hsum. now apply list_sum_member_le. }
    destruct (entropy_fold (length upper) _ Hall 0) as (d & Heq & Hd).
    unfold entropyOf. cbv zeta in Heq |- *. rewrite Hsum in Hd.
    exists (0 + d). split; [exact Heq |].
    assert (HT : 0 < INR (length upper)) by (apply lt_0_INR; lia).
    replace (INR (length upper) / INR (length upper)) with 1 in Hd
      by (field; lra).
    split; [lra | split; [intros _; lra |]].
    intros Hsame.
    destruct upper as [| l0 rest] eqn:Eupper; [simpl in Hpos; lia |].
    assert (Hhist : lengthHistogram (l0 :: rest)
                    = [(Line.length l0, S (length rest))]).
    { unfold lengthHistogram. cbn [fold_left]. simpl histBump.
      rewrite (histogram_single_bin (Line.length l0)).
      - reflexivity.
      - intros l Hl. apply Hsame; [now right | now left]. }
    rewrite Hhist in Heq. cbn [map snd fold_left] in Heq.
    destruct (entropy_step 0 (S (length rest)) (length (l0 :: rest)))
      as (d' & Heq' & _ & Hz); [simpl; lia |].
    cbv zeta in Heq'. rewrite Heq' in Heq. injection Heq as Heq.
    rewrite (Hz eq_refl) in Heq. lra.
  - exists 0. split; [reflexivity |]. split; [lra |].
    split; [intros; lia | reflexivity].
Qed.

(** ** Mean and maximum line lengths *)

Section LineLengths.

Lemma Rmax_INR (a b : nat) : Rmax (INR a) (INR b) = INR (Nat.max a b).
Proof.
  destruct (Nat.le_ge_cases a b) as [H | H].
  - rewrite Nat.max_r by exact H. apply Rmax_right. now apply le_INR.
  - rewrite Nat.max_l by exact H. apply Rmax_left. now apply le_INR.
Qed.

(** [Math.max(...lengths)] on a non-empty list is the largest length. *)
Lemma maxOf_list_max (ls : list nat) :
  ls <> [] -> maxOf (map ofNat ls) = Num (INR (list_max ls)).
Proof.
  assert (H : forall l x,
             fold_left nmax (map ofNat l) (Num (INR x))
             = Num (INR (Nat.max x (list_max l)))).
  { induction l as [| a l IH]; intros x; cbn [map fold_left].
    - simpl. now rewrite Nat.max_0_r.
    - change (ofNat a) with (Num (INR a)).
      rewrite nmax_Rmax, Rmax_INR, IH. simpl. now rewrite Nat.max_assoc. }
  destruct ls as [| a l]; [congruence |]. intros _.
  unfold maxOf. cbn [map fold_left]. change (ofNat a) with (Num (INR a)).
  change (nmax NInf (Num (INR a))) with (Num (INR a)).
  now rewrite H.
Qed.

Lemma list_sum_bounds (lo hi : nat) (l : list nat) :
  (forall x, In x l -> (lo <= x <= hi)%nat) ->
  (lo * length l <= list_sum l <= hi * length l)%nat.
Proof.
  induction l as [| a l IH]; intros H; simpl; [lia |].
  pose proof (H a (or_introl eq_refl)).
  specialize (IH (fun x Hx => H x (or_intror Hx))). lia.
Qed.

Lemma list_max_member (l : list nat) :
  forall x, In x l -> (x <= list_max l)%nat.
Proof.
  intros x Hx. assert (H : (list_max l <= list_max l)%nat) by lia.
  apply list_max_le in H. rewrite Forall_forall in H. now apply H.
Qed.

(** The mean of lengths that all lie between [lo] and [hi]. *)
Lemma mean_length_bounds (lo : Z) (hi : nat) (ls : list Line.t) :
  ls <> [] ->
  (forall l, In l ls -> (lo <= Z.of_nat (Line.length l))%Z
                        /\ (Line.length l <= hi)%nat) ->
  exists mean,
    ndiv (ofNat (sumLengths ls)) (ofNat (length ls)) = Num mean
    /\ IZR lo <= mean
    /\ mean <= INR (list_max (map Line.length ls))
    /\ (list_max (map Line.length ls) <= hi)%nat.
Proof.
  intros Hne Hall.
  assert (Hlen : (0 < length ls)%nat) by (destruct ls; [congruence | simpl; lia]).
  rewrite ndiv_nat by exact Hlen.
  exists (INR (sumLengths ls) / INR (length ls)). split; [reflexivity |].
  rewrite sumLengths_list_sum.
  set (lens := map Line.length ls).
  assert (Hc : length lens = length ls) by apply length_map.
  assert (Hlo : forall x, In x lens -> (lo <= Z.of_nat x)%Z).
  { intros x Hx. apply in_map_iff in Hx. destruct Hx as (l & <- & Hl).
    now apply Hall. }
  assert (Hhi : (list_max lens <= hi)%nat).
  { apply list_max_le. rewrite Forall_forall. intros x Hx.
    apply in_map_iff in Hx. destruct Hx as (l & <- & Hl). now apply Hall. }
  assert (Hsum_hi : (list_sum lens <= list_max lens * length lens)%nat).
  { apply (list_sum_bounds 0 (list_max lens)).
    intros x Hx. split; [lia | now apply list_max_member]. }
  assert (Hsum_lo : (lo * Z.of_nat (length lens) <= Z.of_nat (list_sum lens))%Z).
  { destruct (Z.le_gt_cases lo 0) as [Hneg | Hposlo]; [nia |].
    pose proof (list_sum_bounds (Z.to_nat lo) (list_max lens) lens) as Hb.
    assert (Hb' : (Z.to_nat lo * length lens <= list_sum lens)%nat).
    { apply Hb. intros x Hx. split.
      - specialize (Hlo x Hx). lia.
      - now apply list_max_member. }
    nia. }
  rewrite Hc in *.
  assert (HposR : 0 < INR (length ls)) by (apply lt_0_INR; lia).
  split; [| split; [| exact Hhi]].
  - apply Rmult_le_reg_r with (r := INR (length ls)); [exact HposR |].
    unfold Rdiv. rewrite Rmult_assoc, Rinv_l, Rmult_1_r by lra.
    rewrite !INR_IZR_INZ, <- mult_IZR. now apply IZR_le.
  - apply Rmult_le_reg_r with (r := INR (length ls)); [exact HposR |].
    unfold Rdiv. rewrite Rmult_assoc, Rinv_l, Rmult_1_r by lra.
    rewrite <- mult_INR. now apply le_INR.
Qed.

Variable matrix : list (list nat).
Variable minLength : Z.
Hypothesis minLength_pos : (1 <= minLength)%Z.

Local Abbreviation n := (length matrix).

Lemma upper_line_lengths (line : Line.t) :
  In line (filter kPositive (findDiagonalLines matrix minLength)) ->
  (minLength <= Z.of_nat (Line.length line))%Z
  /\ (Line.length line <= n - 1)%nat.
Proof.
  rewrite upper_diagonal_lines by exact minLength_pos.
  intros Hin. apply In_flat_map_segments in Hin.
  destruct Hin as (k & Hk & s & len & ij & Hrun & Hlen & _ & ->).
  apply in_seq in Hk. apply maximalRun_within in Hrun.
  unfold upperDiag in Hrun. rewrite !length_map, length_seq in Hrun.
  simpl. split; [exact Hlen | lia].
Qed.

Lemma vertical_line_lengths (line : Line.t) :
  In line (findVerticalLines matrix minLength) ->
  (minLength <= Z.of_nat (Line.length line))%Z /\ (Line.length line <= n)%nat.
Proof.
  rewrite findVerticalLines_runs by exact minLength_pos.
  intros Hin. apply In_flat_map_segments in Hin.
  destruct Hin as (j & Hj & s & len & ij & Hrun & Hlen & _ & ->).
  apply maximalRun_within in Hrun.
  unfold column in Hrun. rewrite !length_map, length_seq in Hrun.
  simpl. split; [exact Hlen | lia].
Qed.

End LineLengths.

(** X8. When the extractors (minimum length at least 1) report an upper
    diagonal line, the mean diagonal length L and the maximum L_max are
    finite with [minLength <= L <= L_max <= n - 1]; when they report a
    vertical line, the trapping time TT is finite with
    [minLength <= TT <= n]. *)
Theorem line_length_statistics (matrix : list (list nat)) (minLength : Z) :
  (1 <= minLength)%Z ->
  let ms := measuresOfMatrix matrix minLength in
  let n := length matrix in
  ((1 <= numDiagLines ms)%nat ->
   exists mean lmax,
     avgDiagLength ms = Num mean /\ maxDiagLength ms = Num (INR lmax)
     /\ IZR minLength <= mean /\ mean <= INR lmax /\ (lmax <= n - 1)%nat)
  /\ ((1 <= numVertLines ms)%nat ->
      exists mean,
        avgVertLength ms = Num mean /\ IZR minLength <= mean <= INR n).
Proof.
  intros Hmin ms n. unfold ms, measuresOfMatrix, rqaMeasures.
  cbn [numDiagLines numVertLines avgDiagLength maxDiagLength avgVertLength].
  set (upper := filter kPositive (findDiagonalLines matrix minLength)).
  set (vert := findVerticalLines matrix minLength).
  split.
  - intros Hlines.
    destruct (Nat.ltb_spec 0 (length upper)) as [_ | Hz]; [| lia].
    assert (Hne : upper <> []) by (destruct upper; [simpl in Hlines; lia | congruence]).
    destruct (mean_length_bounds minLength (n - 1) upper Hne) as (mean & H1 & H2 & H3 & H4).
    { intros l Hl. now apply upper_line_lengths. }
    exists mean, (list_max (map Line.length upper)).
    split; [exact H1 |]. split; [| auto].
    rewrite <- map_map. apply maxOf_list_max.
    destruct upper; [congruence | discriminate].
  - intros Hlines.
    destruct (Nat.ltb_spec 0 (length vert)) as [_ | Hz]; [| lia].
    assert (Hne : vert <> []) by (destruct vert; [simpl in Hlines; lia | congruence]).
    destruct (mean_length_bounds minLength n vert Hne) as (mean & H1 & H2 & H3 & H4).
    { intros l Hl. now apply vertical_line_lengths. }
    exists mean. split; [exact H1 |]. split; [exact H2 |].
    eapply Rle_trans; [exact H3 |]. now apply le_INR.
Qed.

(** Witness of X8: a 3 by 3 matrix with lines of length 2 and 3. *)
Lemma line_length_statistics_witness :
  let ms := measuresOfMatrix [[1; 1; 0]; [1; 1; 1]; [0; 1; 1]]%nat 2 in
  let n := length [[1; 1; 0]; [1; 1; 1]; [0; 1; 1]]%nat in
  ((1 <= numDiagLines ms)%nat ->
   exists mean lmax,
     avgDiagLength ms = Num mean /\ maxDiagLength ms = Num (INR lmax)
     /\ IZR 2 <= mean /\ mean <= INR lmax /\ (lmax <= n - 1)%nat)
  /\ ((1 <= numVertLines ms)%nat ->
      exists mean,
        avgVertLength ms = Num mean /\ IZR 2 <= mean <= INR n).
Proof.
  apply (line_length_statistics [[1; 1; 0]; [1; 1; 1]; [0; 1; 1]]%nat 2). lia.
Defined.

(** ** Template matches of the selected point *)

Section MatchesStructure.

Lemma ascending_cons_bound (k : nat) (ks : list nat) :
  ascending ks -> (forall x, In x ks -> (k < x)%nat) -> ascending (k :: ks).
Proof.
  intros Hasc Hall. simpl. split; [| exact Hasc].
  destruct ks as [| k1 ks]; [exact I |]. apply Hall. now left.
Qed.

Lemma ascending_filter_seq (P : nat -> bool) (len : nat) :
  forall start, ascending (filter P (seq start len)).
Proof.
  induction len as [| len IH]; intros start; simpl; [exact I |].
  destruct (P start); [| apply IH].
  apply ascending_cons_bound; [apply IH |].
  intros x Hx. apply filter_In in Hx. destruct Hx as [Hx _].
  apply in_seq in Hx. lia.
Qed.

Lemma filter_filter_and {A : Type} (P Q : A -> bool) (l : list A) :
  filter (fun x => P x && Q x) l = filter Q (filter P l).
Proof.
  induction l as [| x l IH]; simpl; [reflexivity |].
  destruct (P x); simpl; [destruct (Q x) |]; now rewrite IH.
Qed.

Variable signal : list R.
Variable m : Z.
Variable r : R.
Variable h : nat.

Local Abbreviation matchTest := (matchTestOf signal m r h).
Local Abbreviation extendTest := (extendTestOf signal m r h).

Lemma findMatchesStep_tests (ms es : list nat) (i : nat) :
  findMatchesStep signal m r h (mkMatches ms es) i
  = mkMatches (ms ++ if matchTest i then [i] else [])
              (es ++ if matchTest i && extendTest i then [i] else []).
Proof.
  unfold findMatchesStep, matchTestOf, extendTestOf. cbv zeta.
  cbn [matches extended].
  destruct (Nat.eqb i h); cbn [negb andb]; [now rewrite !app_nil_r |].
  destruct (nlt (patternMaxDiff _ _) (Num r)); cbn [andb];
    [| now rewrite !app_nil_r].
  destruct ((Z.of_nat i + m <? Z.of_nat (length signal))
            && (Z.of_nat h + m <? Z.of_nat (length signal)))%Z;
    cbn [andb]; [| now rewrite app_nil_r].
  destruct (nlt _ (Num r)); [reflexivity | now rewrite app_nil_r].
Qed.

(** The loop keeps the candidates that pass the tests, in scan order. *)
Lemma findMatches_fold (l : list nat) :
  forall acc,
    fold_left (findMatchesStep signal m r h) l acc
    = mkMatches (matches acc ++ filter matchTest l)
                (extended acc
                 ++ filter (fun i => matchTest i && extendTest i) l).
Proof.
  induction l as [| i l IH]; intros [ms es]; cbn [fold_left filter].
  - cbn [matches extended]. now rewrite !app_nil_r.
  - rewrite findMatchesStep_tests, IH. cbn [matches extended].
    rewrite <- !app_assoc.
    destruct (matchTest i); cbn [andb app]; [| reflexivity].
    destruct (extendTest i); reflexivity.
Qed.

Lemma findMatches_filters :
  findMatches signal m r (Some h)
  = mkMatches
      (filter matchTest (upto (Z.of_nat (length signal) - m)))
      (filter extendTest
              (filter matchTest (upto (Z.of_nat (length signal) - m)))).
Proof.
  unfold findMatches. rewrite findMatches_fold. cbn [matches extended app].
  now rewrite filter_filter_and.
Qed.

End MatchesStructure.

(** X9. For every signal, pattern length, tolerance and selected point the
    result of [findMatches] is well formed: the extended matches are among
    the matches, the selected point is not its own match, every match is a
    point that can itself be clicked, and both lists are in strictly
    increasing order.  With nothing selected both lists are empty. *)
Theorem findMatches_well_formed
        (signal : list R) (m : Z) (r : R) (h : nat) :
  let res := findMatches signal m r (Some h) in
  (forall i, In i (extended res) -> In i (matches res))
  /\ ~ In h (matches res)
  /\ (forall i, In i (matches res) -> clickable signal m i = true)
  /\ ascending (matches res) /\ ascending (extended res)
  /\ findMatches signal m r None = mkMatches [] [].
Proof.
  cbv zeta. rewrite findMatches_filters. cbn [matches extended].
  repeat split.
  - intros i Hi. apply filter_In in Hi. tauto.
  - intros Hin. apply filter_In in Hin. destruct Hin as [_ Htest].
    unfold matchTestOf in Htest. rewrite Nat.eqb_refl in Htest. discriminate.
  - intros i Hi. apply filter_In in Hi. destruct Hi as [Hi _].
    apply upto_In in Hi. unfold clickable. apply Z.ltb_lt. lia.
  - apply ascending_filter_seq.
  - rewrite <- filter_filter_and. apply ascending_filter_seq.
Qed.

(** *** What the matches mean, and the counters of the entropy *)

Section MatchesMeaning.

Lemma combine_map_self {A B : Type} (f : A -> B) (l : list A) :
  combine (map f l) l = map (fun k => (f k, k)) l.
Proof. induction l as [| a l IH]; simpl; [reflexivity | now rewrite IH]. Qed.

(** [Math.max] over numbers that are not negative, at least one of them. *)
Lemma maxOf_nonneg (ds : list num) :
  ds <> [] -> (forall d, In d ds -> nonnegNum d) ->
  maxOf ds = fold_right nmax (Num 0) ds.
Proof.
  assert (H : forall l a,
             nonnegNum a -> (forall d, In d l -> nonnegNum d) ->
             fold_left nmax l a = nmax a (fold_right nmax (Num 0) l)).
  { induction l as [| d l IH]; intros a Ha Hl; cbn [fold_left fold_right].
    - symmetry. now apply nmax_zero_r.
    - assert (Hd : nonnegNum d) by (apply Hl; now left).
      assert (Hl' : forall e, In e l -> nonnegNum e)
        by (intros e He; apply Hl; now right).
      rewrite IH by (try apply nmax_nonneg; assumption).
      symmetry. apply nmax_assoc; try assumption.
      now apply fold_nmax_nonneg. }
  destruct ds as [| d l]; [congruence |]. intros _ Hpos.
  assert (Hd : nonnegNum d) by (apply Hpos; now left).
  unfold maxOf. cbn [fold_left fold_right].
  replace (nmax NInf d) with d by (destruct d; simpl in Hd |- *; tauto).
  apply H; [exact Hd |]. intros e He. apply Hpos. now right.
Qed.

Variable signal : list R.
Variable m : nat.
Variable r : R.
Hypothesis m_pos : (1 <= m)%nat.

Local Abbreviation N := (length signal).
Local Abbreviation bound := (N - m)%nat.

(** A slice that lies inside the signal is the window of samples. *)
Lemma jsSlice_window (a : nat) :
  (a + m <= N)%nat ->
  jsSlice signal (Z.of_nat a) (Z.of_nat a + Z.of_nat m)
  = map (fun k => sample signal (a + k)) (seq 0 m).
Proof.
  intros Ha. unfold jsSlice. cbv zeta.
  destruct (Z.ltb_spec (Z.of_nat a) 0); [lia |].
  destruct (Z.ltb_spec (Z.of_nat a + Z.of_nat m) 0); [lia |].
  rewrite !Z.min_l by lia.
  replace (Z.to_nat (Z.of_nat a + Z.of_nat m - Z.of_nat a)) with m by lia.
  rewrite Nat2Z.id.
  apply nth_error_ext. intros k.
  rewrite nth_error_firstn, nth_error_skipn, nth_error_map, nth_error_seq.
  destruct (Nat.ltb_spec k m) as [Hk | Hk]; [| reflexivity].
  simpl. unfold sample. apply nth_error_nth'. lia.
Qed.

Lemma patternMaxDiff_chebyshev (h i : nat) :
  (h + m <= N)%nat -> (i + m <= N)%nat ->
  patternMaxDiff (jsSlice signal (Z.of_nat h) (Z.of_nat h + Z.of_nat m))
                 (jsSlice signal (Z.of_nat i) (Z.of_nat i + Z.of_nat m))
  = chebyshev signal m h i.
Proof.
  intros Hh Hi. unfold patternMaxDiff, chebyshev.
  rewrite !jsSlice_window by assumption.
  rewrite length_map, length_seq, combine_map_self, map_map.
  cbn [fst snd].
  rewrite (map_ext_in _ (fun k => sampleDiff signal (h + k) (i + k))).
  - apply maxOf_nonneg.
    + destruct m; [lia | discriminate].
    + intros d Hd. apply in_map_iff in Hd. destruct Hd as (k & <- & _).
      apply sampleDiff_nonneg.
  - intros k Hk. apply in_seq in Hk. unfold readNat.
    rewrite nth_error_map_seq by lia. reflexivity.
Qed.

Lemma matchTest_isMatch (h i : nat) :
  (h < bound)%nat -> (i < bound)%nat ->
  matchTestOf signal (Z.of_nat m) r h i
  = negb (Nat.eqb i h) && isMatch signal m r (h, i).
Proof.
  intros Hh Hi. unfold matchTestOf, isMatch.
  now rewrite patternMaxDiff_chebyshev by lia.
Qed.

Lemma extendTest_next (h i : nat) :
  (h < bound)%nat -> (i < bound)%nat ->
  extendTestOf signal (Z.of_nat m) r h i
  = nlt (sampleDiff signal (h + m) (i + m)) (Num r).
Proof.
  intros Hh Hi. unfold extendTestOf.
  destruct (Z.ltb_spec (Z.of_nat i + Z.of_nat m) (Z.of_nat N)); [| lia].
  destruct (Z.ltb_spec (Z.of_nat h + Z.of_nat m) (Z.of_nat N)); [| lia].
  rewrite <- !Nat2Z.inj_add, !readZ_in_range by lia. reflexivity.
Qed.

Lemma extended_test (h i : nat) :
  isExtendedMatch signal m r (h, i)
  = isMatch signal m r (h, i)
    && nlt (sampleDiff signal (h + m) (i + m)) (Num r).
Proof.
  unfold isExtendedMatch, isMatch. cbn [fst snd].
  rewrite nlt_nmax by (apply chebyshev_nonneg || apply sampleDiff_nonneg).
  destruct (nlt (chebyshev signal m h i) (Num r)); reflexivity.
Qed.

Lemma both_tests_isExtendedMatch (h i : nat) :
  (h < bound)%nat -> (i < bound)%nat ->
  matchTestOf signal (Z.of_nat m) r h i && extendTestOf signal (Z.of_nat m) r h i
  = negb (Nat.eqb i h) && isExtendedMatch signal m r (h, i).
Proof.
  intros Hh Hi.
  rewrite matchTest_isMatch, extendTest_next, extended_test by assumption.
  now rewrite andb_assoc.
Qed.

(** The computed difference of two samples does not depend on their
    order. *)
Lemma sampleDiff_sym (p q : nat) : sampleDiff signal p q = sampleDiff signal q p.
Proof.
  exact (fsub_swap (Num (sample signal p)) (Num (sample signal q))).
Qed.

Lemma chebyshev_sym (i j : nat) : chebyshev signal m i j = chebyshev signal m j i.
Proof.
  unfold chebyshev. f_equal. apply map_ext. intros k. apply sampleDiff_sym.
Qed.

Lemma isMatch_sym (i j : nat) : isMatch signal m r (i, j) = isMatch signal m r (j, i).
Proof. unfold isMatch. cbn [fst snd]. now rewrite chebyshev_sym. Qed.

Lemma isExtendedMatch_sym (i j : nat) :
  isExtendedMatch signal m r (i, j) = isExtendedMatch signal m r (j, i).
Proof.
  rewrite !extended_test, isMatch_sym. now rewrite sampleDiff_sym.
Qed.

(** Counting over a cell list, row by row. *)
Lemma count_by_rows (g : nat * nat -> bool) (n : nat) (cols : nat -> list nat) :
  length (filter g (cellList n cols))
  = list_sum (map (fun i => length (filter (fun j => g (i, j)) (cols i)))
                  (seq 0 n)).
Proof.
  unfold cellList. generalize (seq 0 n). intros idxs.
  induction idxs as [| i idxs IH]; simpl; [reflexivity |].
  rewrite filter_app, length_app, IH. f_equal.
  generalize (cols i). intros js.
  induction js as [| j js IHj]; simpl; [reflexivity |].
  destruct (g (i, j)); simpl; now rewrite IHj.
Qed.

Lemma matches_of (h : nat) :
  (h < bound)%nat ->
  matches (findMatches signal (Z.of_nat m) r (Some h))
  = filter (fun i => negb (Nat.eqb h i) && isMatch signal m r (h, i))
           (seq 0 bound)
  /\ extended (findMatches signal (Z.of_nat m) r (Some h))
     = filter (fun i => negb (Nat.eqb h i) && isExtendedMatch signal m r (h, i))
              (seq 0 bound).
Proof.
  intros Hh. rewrite findMatches_filters. cbn [matches extended].
  unfold upto. replace (Z.to_nat (Z.of_nat N - Z.of_nat m)) with bound by lia.
  split.
  - apply filter_ext_in. intros i Hi. apply in_seq in Hi.
    rewrite matchTest_isMatch by lia. now rewrite Nat.eqb_sym.
  - rewrite <- filter_filter_and. apply filter_ext_in. intros i Hi.
    apply in_seq in Hi.
    rewrite both_tests_isExtendedMatch by lia. now rewrite Nat.eqb_sym.
Qed.

(** Summed over the clickable points, a symmetric test passes twice per
    pair [i < j]. *)
Lemma sum_over_selected (f : nat * nat -> bool) :
  (forall i j, f (i, j) = f (j, i)) ->
  list_sum
    (map (fun h =>
            length (filter (fun i => negb (Nat.eqb h i) && f (h, i))
                           (seq 0 bound)))
         (seq 0 bound))
  = (2 * length (filter f (orderedPairs bound)))%nat.
Proof.
  intros Hsym.
  rewrite <- (offDiagonal_twice_upper f bound Hsym).
  now rewrite (count_by_rows _ bound (fun _ => seq 0 bound)).
Qed.

End MatchesMeaning.

(** X10. For a pattern length [m >= 1] and a clickable selected point [h],
    [findMatches] lists exactly the other clickable starts [i] whose window
    is at a Chebyshev distance below [r] from the window at [h], the
    distance being the largest of the coordinate differences as the
    subtraction rounds them; the extended matches are those whose next point
    is also within [r], in the same rounded sense, of the point after the
    selected window; and matching is mutual. *)
Theorem findMatches_selects_close_windows
        (signal : list R) (m : nat) (r : R) (h i : nat) :
  (1 <= m)%nat -> (h < length signal - m)%nat ->
  let res := findMatches signal (Z.of_nat m) r (Some h) in
  (In i (matches res) <->
   i <> h /\ (i < length signal - m)%nat
   /\ nlt (chebyshev signal m h i) (Num r) = true)
  /\ (In i (extended res) <->
      In i (matches res)
      /\ nlt (sampleDiff signal (h + m) (i + m)) (Num r) = true)
  /\ ((i < length signal - m)%nat ->
      (In i (matches res) <->
       In h (matches (findMatches signal (Z.of_nat m) r (Some i))))).
Proof.
  intros Hm Hh res.
  destruct (matches_of signal m r Hm h Hh) as [Hms Hes].
  fold res in Hms, Hes.
  assert (Hmatch : In i (matches res) <->
                   i <> h /\ (i < length signal - m)%nat
                   /\ nlt (chebyshev signal m h i) (Num r) = true).
  { rewrite Hms, filter_In, in_seq, andb_true_iff, negb_true_iff, Nat.eqb_neq.
    unfold isMatch. cbn [fst snd].
    intuition (try lia; try congruence). }
  split; [exact Hmatch | split].
  - rewrite Hmatch, Hes, filter_In, in_seq, andb_true_iff, negb_true_iff,
      Nat.eqb_neq.
    rewrite extended_test, andb_true_iff. unfold isMatch. cbn [fst snd].
    intuition (try lia; try congruence).
  - intros Hi.
    destruct (matches_of signal m r Hm i Hi) as [Hms' _].
    rewrite Hmatch, Hms', filter_In, in_seq, andb_true_iff, negb_true_iff,
      Nat.eqb_neq.
    unfold isMatch. cbn [fst snd]. rewrite (chebyshev_sym signal m i h).
    intuition (try lia; try congruence).
Qed.

(** Witness of X10: in [0, 0, 0, 1] with [m = 1] and [r = 1/2] the point
    1 is a match of the point 0, and an extended one, the next points being
    the equal samples at 1 and 2. *)
Lemma findMatches_selects_close_windows_witness :
  let signal := [0; 0; 0; 1] in
  let res := findMatches signal (Z.of_nat 1) (1 / 2) (Some 0%nat) in
  In 1%nat (matches res)
  /\ In 1%nat (extended res)
  /\ (In 1%nat (matches res) <->
      1%nat <> 0%nat /\ (1 < length signal - 1)%nat
      /\ nlt (chebyshev signal 1 0 1) (Num (1 / 2)) = true)
  /\ (In 1%nat (extended res) <->
      In 1%nat (matches res)
      /\ nlt (sampleDiff signal (0 + 1) (1 + 1)) (Num (1 / 2)) = true)
  /\ ((1 < length signal - 1)%nat ->
      (In 1%nat (matches res) <->
       In 0%nat (matches (findMatches signal (Z.of_nat 1) (1 / 2)
                                      (Some 1%nat))))).
Proof.
  intros signal res.
  assert (Hlen : (0 < length signal - 1)%nat) by (simpl; lia).
  destruct (findMatches_selects_close_windows signal 1 (1 / 2) 0 1
              (le_n 1) Hlen) as (H1 & H2 & H3).
  fold res in H1, H2, H3.
  assert (Hhalf : Rltb 0 (1 / 2) = true) by (apply Rltb_true; lra).
  assert (Hc : nlt (chebyshev signal 1 0 1) (Num (1 / 2)) = true).
  { unfold chebyshev. cbn [seq map fold_right].
    rewrite sampleDiff_equal by reflexivity.
    rewrite nmax_Rmax, Rmax_left by lra. exact Hhalf. }
  assert (Hn : nlt (sampleDiff signal (0 + 1) (1 + 1)) (Num (1 / 2)) = true).
  { rewrite sampleDiff_equal by reflexivity. exact Hhalf. }
  assert (Hm : In 1%nat (matches res)).
  { apply H1. split; [discriminate | split; [simpl; lia | exact Hc]]. }
  split; [exact Hm | split; [apply H2; now split |]].
  split; [exact H1 | split; [exact H2 | exact H3]].
Defined.

(** X11. For [m >= 1] the match lists of all clickable points together hold
    each matching pair twice: their lengths add up to twice the counter [Bm]
    of [calculateSampEn], and the lengths of the extended lists to twice its
    counter [Am]. *)
Theorem findMatches_totals_are_twice_the_counters
        (signal : list R) (m : nat) (r : R) :
  (1 <= m)%nat ->
  let selected := seq 0 (length signal - m) in
  let res := fun h => findMatches signal (Z.of_nat m) r (Some h) in
  list_sum (map (fun h => length (matches (res h))) selected)
  = (2 * fst (sampEnCounts signal (Z.of_nat m) r))%nat
  /\ list_sum (map (fun h => length (extended (res h))) selected)
     = (2 * snd (sampEnCounts signal (Z.of_nat m) r))%nat.
Proof.
  intros Hm selected res. rewrite sampEnCounts_spec. cbn [fst snd].
  unfold countA, countB, selected, res.
  rewrite <- (sum_over_selected signal m (isMatch signal m r))
    by apply isMatch_sym.
  rewrite <- (sum_over_selected signal m (isExtendedMatch signal m r))
    by apply isExtendedMatch_sym.
  split; f_equal; apply map_ext_in; intros h Hh; apply in_seq in Hh;
    destruct (matches_of signal m r Hm h) as [Hms Hes]; try lia;
    now rewrite ?Hms, ?Hes.
Qed.

(** Witness of X11. *)
Lemma findMatches_totals_are_twice_the_counters_witness :
  let selected := seq 0 (length [0; 0; 0] - 1) in
  let res := fun h => findMatches [0; 0; 0] (Z.of_nat 1) 1 (Some h) in
  list_sum (map (fun h => length (matches (res h))) selected)
  = (2 * fst (sampEnCounts [0; 0; 0]%R (Z.of_nat 1) 1%R))%nat
  /\ list_sum (map (fun h => length (extended (res h))) selected)
     = (2 * snd (sampEnCounts [0; 0; 0]%R (Z.of_nat 1) 1%R))%nat.
Proof.
  apply (findMatches_totals_are_twice_the_counters [0; 0; 0] 1 1). lia.
Defined.

(** ** Range and edge cases of the sample entropy *)

Section SampEnBounds.

(** The number of pairs [i < j < n]. *)
Lemma orderedPairs_length (n : nat) :
  (2 * length (orderedPairs n) = n * (n - 1))%nat.
Proof.
  unfold orderedPairs.
  pose proof (count_by_rows (fun _ => true) n (fun i => seq (S i) (n - S i)))
    as Hrows.
  rewrite filter_all in Hrows by reflexivity. rewrite Hrows.
  rewrite (map_ext _ (fun i => (n - S i)%nat)).
  2: { intros i. rewrite filter_all by reflexivity. apply length_seq. }
  clear Hrows.
  assert (H : forall k, (k <= n)%nat ->
                        (2 * list_sum (map (fun i => n - S i) (seq 0 k))
                         + (n - k) * (n - k - 1) = n * (n - 1))%nat).
  { induction k as [| k IH]; intros Hk.
    - cbn [seq map list_sum]. rewrite Nat.sub_0_r. reflexivity.
    - rewrite seq_S, map_app, list_sum_app. simpl.
      specialize (IH ltac:(lia)).
      replace (n - k)%nat with (S (n - S k)) in IH by lia.
      nia. }
  specialize (H n (Nat.le_refl n)). rewrite Nat.sub_diag in H. lia.
Qed.

Variable signal : list R.
Variable m : nat.
Variable r : R.

Local Abbreviation N := (length signal).

(** All below [r], and so is the largest. *)
Lemma fold_nmax_lt (ds : list num) :
  0 < r -> (forall d, In d ds -> nonnegNum d) ->
  (forall d, In d ds -> nlt d (Num r) = true) ->
  nlt (fold_right nmax (Num 0) ds) (Num r) = true.
Proof.
  intros Hr. induction ds as [| d ds IH]; intros Hpos Hlt; cbn [fold_right].
  - simpl. now apply Rltb_true.
  - rewrite nlt_nmax.
    + rewrite (Hlt d) by now left. apply IH.
      * intros e He. apply Hpos. now right.
      * intros e He. apply Hlt. now right.
    + apply Hpos. now left.
    + apply fold_nmax_nonneg. intros e He. apply Hpos. now right.
Qed.

(** No pair matches under a tolerance that is not positive. *)
Lemma countB_nonpositive_tolerance : r <= 0 -> countB signal m r = 0%nat.
Proof.
  intros Hr. unfold countB. rewrite filter_none; [reflexivity |].
  intros [i j] _. unfold isMatch. cbn [fst snd].
  apply nlt_nonneg_false; [apply chebyshev_nonneg | exact Hr].
Qed.

(** No pair exists in a signal of at most [m + 1] samples. *)
Lemma countB_short_signal : (N <= m + 1)%nat -> countB signal m r = 0%nat.
Proof.
  intros Hn. unfold countB.
  pose proof (orderedPairs_length (N - m)) as Hlen.
  assert (Hnil : orderedPairs (N - m) = []).
  { apply length_zero_iff_nil.
    replace ((N - m) * (N - m - 1))%nat with 0%nat in Hlen by nia. lia. }
  now rewrite Hnil.
Qed.

(** Every pair matches when the tolerance exceeds the computed difference
    of every two samples. *)
Lemma all_pairs_match :
  (forall p q, (p < N)%nat -> (q < N)%nat ->
               nlt (sampleDiff signal p q) (Num r) = true) ->
  (1 <= N)%nat ->
  forall ij, In ij (orderedPairs (N - m)) ->
             isExtendedMatch signal m r ij = true.
Proof.
  intros Hclose Hn [i j] Hin. apply orderedPairs_In in Hin.
  assert (Hr : 0 < r).
  { apply (nlt_nonneg_positive (sampleDiff signal 0 0));
      [apply sampleDiff_nonneg | apply Hclose; lia]. }
  assert (Hd : nlt (chebyshev signal m i j) (Num r) = true).
  { apply fold_nmax_lt; [exact Hr | |].
    - intros d Hd. apply in_map_iff in Hd. destruct Hd as (k & <- & _).
      apply sampleDiff_nonneg.
    - intros d Hd. apply in_map_iff in Hd. destruct Hd as (k & <- & Hk).
      apply in_seq in Hk. apply Hclose; lia. }
  unfold isExtendedMatch, isMatch. cbn [fst snd].
  rewrite Hd. cbn [andb].
  rewrite nlt_nmax by (apply chebyshev_nonneg || apply sampleDiff_nonneg).
  rewrite Hd. cbn [andb]. apply Hclose; lia.
Qed.

End SampEnBounds.

(** X12. The sample entropy is never negative and never exceeds the larger
    of the sentinel 5/2 and the logarithm of the number of pairs of windows,
    [(N-m)(N-m-1)/2]. *)
Theorem sample_entropy_range (signal : list R) (m : nat) (r : R) :
  let pairs := ((length signal - m) * (length signal - m - 1) / 2)%nat in
  exists e,
    calculateSampEn signal (Z.of_nat m) r = Num e
    /\ 0 <= e
    /\ e <= Rmax sampEnSentinel (ln (INR pairs)).
Proof.
  intros pairs. rewrite calculateSampEn_spec. unfold sampEnSpec. cbv zeta.
  pose proof (countA_le_countB signal m r) as Hle.
  assert (HB : (countB signal m r <= pairs)%nat).
  { unfold countB, pairs.
    pose proof (orderedPairs_length (length signal - m)) as Hlen.
    pose proof (filter_length_le (isMatch signal m r)
                                 (orderedPairs (length signal - m))) as Hf.
    apply Nat.div_le_lower_bound; lia. }
  destruct (Nat.eqb_spec (countB signal m r) 0) as [HB0 | HB0].
  { exists sampEnSentinel. split; [reflexivity |]. unfold sampEnSentinel.
    split; [lra | apply Rmax_l]. }
  destruct (Nat.eqb_spec (countA signal m r) 0) as [HA0 | HA0].
  { exists sampEnSentinel. split; [reflexivity |]. unfold sampEnSentinel.
    split; [lra | apply Rmax_l]. }
  simpl orb. cbv iota. eexists. split; [reflexivity |].
  assert (HA : 1 <= INR (countA signal m r))
    by (change 1 with (INR 1); apply le_INR; lia).
  assert (HAB : INR (countA signal m r) <= INR (countB signal m r))
    by now apply le_INR.
  assert (HBP : INR (countB signal m r) <= INR pairs) by now apply le_INR.
  rewrite ln_ratio by lra.
  assert (H1 : ln (INR (countA signal m r)) <= ln (INR (countB signal m r)))
    by (apply ln_monotone; lra).
  assert (H2 : ln (INR (countB signal m r)) <= ln (INR pairs))
    by (apply ln_monotone; lra).
  assert (H3 : ln 1 <= ln (INR (countA signal m r)))
    by (apply ln_monotone; lra).
  rewrite ln_1 in H3.
  split; [lra |].
  eapply Rle_trans; [| apply Rmax_r]. lra.
Qed.

(** X13. When the signal has at most [m + 1] samples, or the tolerance is
    not positive, no pair of windows matches and [calculateSampEn] returns
    the sentinel 5/2. *)
Theorem sample_entropy_sentinel_cases (signal : list R) (m : nat) (r : R) :
  (length signal <= m + 1)%nat \/ r <= 0 ->
  sampEnCounts signal (Z.of_nat m) r = (0%nat, 0%nat)
  /\ calculateSampEn signal (Z.of_nat m) r = Num sampEnSentinel.
Proof.
  intros Hcase.
  assert (HB : countB signal m r = 0%nat).
  { destruct Hcase as [Hn | Hr];
      [now apply countB_short_signal | now apply countB_nonpositive_tolerance]. }
  pose proof (countA_le_countB signal m r) as Hle.
  assert (HA : countA signal m r = 0%nat) by lia.
  split.
  - rewrite sampEnCounts_spec. now rewrite HA, HB.
  - rewrite calculateSampEn_spec. unfold sampEnSpec. cbv zeta.
    now rewrite HB.
Qed.

(** Witness of X13: two samples are too few for [m = 1]. *)
Lemma sample_entropy_sentinel_cases_witness :
  sampEnCounts [0; 1] (Z.of_nat 1) 1 = (0%nat, 0%nat)
  /\ calculateSampEn [0; 1] (Z.of_nat 1) 1 = Num sampEnSentinel.
Proof.
  apply (sample_entropy_sentinel_cases [0; 1] 1 1). left. simpl. lia.
Defined.

(** X14. When the signal has at least [m + 2] samples and the tolerance
    exceeds the difference of every two samples, as the subtraction rounds
    it, every pair of windows matches at both lengths and the sample entropy
    is 0. *)
Theorem sample_entropy_zero_under_wide_tolerance
        (signal : list R) (m : nat) (r : R) :
  (m + 2 <= length signal)%nat ->
  (forall p q, (p < length signal)%nat -> (q < length signal)%nat ->
               nlt (sampleDiff signal p q) (Num r) = true) ->
  calculateSampEn signal (Z.of_nat m) r = Num 0.
Proof.
  intros Hn Hclose.
  rewrite calculateSampEn_spec. unfold sampEnSpec. cbv zeta.
  pose proof (all_pairs_match signal m r Hclose ltac:(lia)) as Hall.
  pose proof (orderedPairs_length (length signal - m)) as Hlen.
  assert (HA : countA signal m r = length (orderedPairs (length signal - m))).
  { unfold countA. now rewrite filter_all. }
  assert (HB : countB signal m r = length (orderedPairs (length signal - m))).
  { unfold countB. rewrite filter_all; [reflexivity |].
    intros ij Hin. specialize (Hall ij Hin). unfold isExtendedMatch in Hall.
    now apply andb_prop in Hall. }
  assert (Hpos : (1 <= length (orderedPairs (length signal - m)))%nat) by nia.
  rewrite HA, HB.
  destruct (Nat.eqb_spec (length (orderedPairs (length signal - m))) 0);
    [lia |].
  simpl orb. cbv iota. f_equal.
  assert (H1 : 1 <= INR (length (orderedPairs (length signal - m))))
    by (change 1 with (INR 1); apply le_INR; lia).
  unfold Rdiv. rewrite Rinv_r by lra. rewrite ln_1. lra.
Qed.

(** Samples at most 1/2 apart have a computed difference below 1. *)
Lemma sampleDiff_below_1 (signal : list R) (p q : nat) :
  Rabs (sample signal p - sample signal q) <= 1 / 2 ->
  nlt (sampleDiff signal p q) (Num 1) = true.
Proof.
  intros H. unfold sampleDiff.
  destruct (round_below_1 _ H) as (v & -> & Hv).
  simpl. now apply Rltb_true.
Qed.

(** Witness of X14: the samples 0, 1/4, 1/2 under the tolerance 1.  Any
    two of them are at most 1/2 apart, so every computed difference is
    below 1. *)
Lemma sample_entropy_zero_under_wide_tolerance_witness :
  calculateSampEn [0; 1 / 4; 1 / 2] (Z.of_nat 1) 1 = Num 0.
Proof.
  apply (sample_entropy_zero_under_wide_tolerance [0; 1 / 4; 1 / 2] 1 1).
  - simpl. lia.
  - intros p q Hp Hq. apply sampleDiff_below_1.
    simpl in Hp, Hq. unfold sample.
    destruct p as [| [| [| p]]]; [| | | lia];
      destruct q as [| [| [| q]]]; try lia; simpl; apply Rabs_le; lra.
Defined.

(** X15. Both counters of [calculateSampEn] grow with the tolerance: a pair
    of windows that matches under [r1] matches under any [r2 >= r1]. *)
Theorem sample_entropy_counters_monotone
        (signal : list R) (m : nat) (r1 r2 : R) :
  r1 <= r2 ->
  (fst (sampEnCounts signal (Z.of_nat m) r1)
   <= fst (sampEnCounts signal (Z.of_nat m) r2))%nat
  /\ (snd (sampEnCounts signal (Z.of_nat m) r1)
      <= snd (sampEnCounts signal (Z.of_nat m) r2))%nat.
Proof.
  intros Hr. rewrite !sampEnCounts_spec. cbn [fst snd].
  assert (Hlt : forall d, nlt d (Num r1) = true -> nlt d (Num r2) = true)
    by (intros d; now apply nlt_weaken).
  unfold countA, countB. split; apply filter_length_mono; intros ij.
  - unfold isMatch. apply Hlt.
  - unfold isExtendedMatch, isMatch. rewrite !andb_true_iff.
    intros [H1 H2]. split; now apply Hlt.
Qed.

(** Witness of X15. *)
Lemma sample_entropy_counters_monotone_witness :
  (fst (sampEnCounts [0; 0; 0]%R (Z.of_nat 1) 1%R)
   <= fst (sampEnCounts [0; 0; 0]%R (Z.of_nat 1) 2%R))%nat
  /\ (snd (sampEnCounts [0; 0; 0]%R (Z.of_nat 1) 1%R)
      <= snd (sampEnCounts [0; 0; 0]%R (Z.of_nat 1) 2%R))%nat.
Proof.
  apply (sample_entropy_counters_monotone [0; 0; 0] 1 1 2). lra.
Defined.

(** ** The box-counting slope in closed form *)

Section ClosedForm.

Lemma ln2_pos : 0 < ln 2.
Proof. pose proof ln_lt_2. lra. Qed.

(** The abscissa of the box size [2^k] is [-k ln 2]. *)
Lemma logInvSize_pow2 (k : nat) : logInvSize (2 ^ k) = - INR k * ln 2.
Proof.
  unfold logInvSize. rewrite pow_INR. change (INR 2) with 2.
  unfold Rdiv. rewrite Rmult_1_l, ln_Rinv by (apply pow_lt; lra).
  rewrite ln_pow by lra. ring.
Qed.

Lemma logSizes_of_sizes :
  map (fun s => nlog (ndiv (Num 1) (ofNat s))) sizes
  = map (fun k => Num (- INR k * ln 2)) [7; 6; 5; 4; 3; 2]%nat.
Proof.
  change sizes with (map (fun k => 2 ^ k)%nat [7; 6; 5; 4; 3; 2]%nat).
  rewrite map_map. apply map_ext_in. intros k Hk.
  rewrite log_size, logInvSize_pow2; [reflexivity |].
  clear Hk. induction k; simpl; lia.
Qed.

Lemma calculateFD_formula (counts : nat -> nat) :
  calculateFD counts
  = Num ((15 * (logCount (counts 4%nat) - logCount (counts 128%nat))
          + 9 * (logCount (counts 8%nat) - logCount (counts 64%nat))
          + 3 * (logCount (counts 16%nat) - logCount (counts 32%nat)))
         / (105 * ln 2)).
Proof.
  unfold calculateFD, slopeOver. cbv zeta.
  rewrite logSizes_of_sizes.
  unfold sizes. cbn [map]. rewrite !log_count.
  fold (logCount (counts 128%nat)). fold (logCount (counts 64%nat)).
  fold (logCount (counts 32%nat)). fold (logCount (counts 16%nat)).
  fold (logCount (counts 8%nat)). fold (logCount (counts 4%nat)).
  cbn [length combine seq fold_left fst snd nth nadd nmul nsub nneg ofNat].
  pose proof ln2_pos as Hln.
  assert (Hsq : 0 < 105 * (ln 2 * ln 2)).
  { apply Rmult_lt_0_compat; [lra | now apply Rmult_lt_0_compat]. }
  match goal with
  | |- ndiv (Num ?a) (Num ?b) = _ =>
      replace b with (105 * (ln 2 * ln 2)) by (simpl INR; ring)
  end.
  rewrite ndiv_pos by lra.
  f_equal. simpl INR. field. lra.
Qed.

End ClosedForm.

(** X16. Over its six box sizes 128, 64, 32, 16, 8, 4 the least-squares
    slope of [calculateFD] is a fixed combination of the log-counts, for any
    counts whatever: the three symmetric differences of [ln(max(N, 1))]
    weighted 15, 9 and 3, over [105 ln 2].  The denominator of the
    regression is never 0, so the result is always a finite number. *)
Theorem box_counting_slope_closed_form (counts : nat -> nat) :
  calculateFD counts
  = Num ((15 * (logCount (counts 4%nat) - logCount (counts 128%nat))
          + 9 * (logCount (counts 8%nat) - logCount (counts 64%nat))
          + 3 * (logCount (counts 16%nat) - logCount (counts 32%nat)))
         / (105 * ln 2))
  /\ isFinite (calculateFD counts).
Proof.
  split; [apply calculateFD_formula |].
  rewrite calculateFD_formula. now eexists.
Qed.

(** ** Box counting *)

Section KeySets.

Lemma numEqb_eq (a b : num) : numEqb a b = true <-> a = b.
Proof.
  destruct a as [x | | |], b as [y | | |]; simpl;
    try (split; [discriminate | discriminate]);
    try (split; reflexivity).
  rewrite Reqb_true. split; [now intros -> | now intros [= ->]].
Qed.

Lemma keyEqb_eq (a b : num * num) : keyEqb a b = true <-> a = b.
Proof.
  destruct a as [a1 a2], b as [b1 b2]. unfold keyEqb. cbn [fst snd].
  rewrite andb_true_iff, !numEqb_eq.
  split; [now intros [-> ->] | now intros [= -> ->]].
Qed.

Lemma setHas_In (set : list (num * num)) (key : num * num) :
  setHas set key = true <-> In key set.
Proof.
  unfold setHas. rewrite existsb_exists. split.
  - intros (k & Hin & Heq). apply keyEqb_eq in Heq. now subst.
  - intros Hin. exists key. split; [exact Hin | now apply keyEqb_eq].
Qed.

Lemma setAdd_In (set : list (num * num)) (key k : num * num) :
  In k (setAdd set key) <-> In k set \/ k = key.
Proof.
  unfold setAdd. destruct (setHas set key) eqn:Hhas.
  - apply setHas_In in Hhas. split; [now left |].
    intros [H | ->]; assumption.
  - rewrite in_app_iff. simpl. intuition congruence.
Qed.

Lemma setAdd_NoDup (set : list (num * num)) (key : num * num) :
  NoDup set -> NoDup (setAdd set key).
Proof.
  intros Hnd. unfold setAdd. destruct (setHas set key) eqn:Hhas;
    [exact Hnd |].
  assert (Hnotin : ~ In key set).
  { intros Hin. apply setHas_In in Hin. congruence. }
  apply NoDup_app; [exact Hnd | constructor; [intros [] | constructor] |].
  intros k Hk [<- | []]. contradiction.
Qed.

(** A loop that adds the key of every sample passing a guard. *)
Lemma guarded_adds {A : Type} (guard : A -> bool) (key : A -> num * num)
      (samples : list A) :
  forall init,
    let result :=
      fold_left (fun set a => if guard a then setAdd set (key a) else set)
                samples init in
    (forall k, In k result <->
               In k init
               \/ exists a, In a samples /\ guard a = true /\ k = key a)
    /\ (NoDup init -> NoDup result).
Proof.
  induction samples as [| a samples IH]; intros init; cbn [fold_left].
  - split; [| tauto]. intros k. split; [now left |].
    intros [H | (a & [] & _)]. exact H.
  - specialize (IH (if guard a then setAdd init (key a) else init)).
    cbv zeta in IH. destruct IH as [IHin IHnd]. split.
    + intros k. rewrite IHin. destruct (guard a) eqn:Hg.
      * rewrite setAdd_In. split.
        -- intros [[H | ->] | (b & Hb & Hgb & ->)].
           ++ now left.
           ++ right. exists a. split; [now left | now split].
           ++ right. exists b. split; [now right | now split].
        -- intros [H | (b & [<- | Hb] & Hgb & ->)].
           ++ left. now left.
           ++ left. now right.
           ++ right. exists b. now repeat split.
      * split.
        -- intros [H | (b & Hb & Hgb & ->)]; [now left |].
           right. exists b. split; [now right | now split].
        -- intros [H | (b & [<- | Hb] & Hgb & ->)]; [now left | congruence |].
           right. exists b. now repeat split.
    + intros Hnd. apply IHnd. destruct (guard a); [| exact Hnd].
      now apply setAdd_NoDup.
Qed.

End KeySets.

Section OccupiedBoxes.

Variable shape : string.
Variable size : num.

Local Abbreviation numBoxes := (nfloor (ndiv (Num 256) size)).

Lemma occupiedBoxes_In (k : num * num) :
  In k (occupiedBoxes shape size) <->
  exists xy, In xy (samplesOf shape)
             /\ inGrid numBoxes (boxOf size xy) = true
             /\ k = boxOf size xy.
Proof.
  unfold occupiedBoxes. cbv zeta.
  destruct (guarded_adds (fun xy => inGrid numBoxes (boxOf size xy))
                         (boxOf size) (samplesOf shape) []) as [Hin _].
  cbv zeta in Hin. rewrite Hin. split; [| now right].
  intros [[] | H]. exact H.
Qed.

Lemma occupiedBoxes_NoDup : NoDup (occupiedBoxes shape size).
Proof.
  unfold occupiedBoxes. cbv zeta.
  destruct (guarded_adds (fun xy => inGrid numBoxes (boxOf size xy))
                         (boxOf size) (samplesOf shape) []) as [_ Hnd].
  apply Hnd. constructor.
Qed.

Lemma occupiedSet_In (k : num * num) :
  In k (occupiedSet shape size) <->
  exists xy, In xy (samplesOf shape) /\ k = boxOf size xy.
Proof.
  unfold occupiedSet.
  destruct (guarded_adds (fun _ => true) (boxOf size) (samplesOf shape) [])
    as [Hin _].
  cbv zeta in Hin. cbv beta iota in Hin. rewrite Hin. split.
  - intros [[] | (xy & H1 & _ & H2)]. now exists xy.
  - intros (xy & H1 & H2). right. now exists xy.
Qed.

End OccupiedBoxes.

Section Floors.

(** The floor of a quotient of two counts is their integer quotient. *)
Lemma floor_div_nat (k s : nat) :
  (1 <= s)%nat -> Int_part (INR k / INR s) = Z.of_nat (k / s).
Proof.
  intros Hs. apply floor_unique. rewrite <- INR_IZR_INZ.
  assert (Hpos : 0 < INR s) by (apply lt_0_INR; lia).
  pose proof (Nat.div_mod_eq k s) as Hdiv.
  pose proof (Nat.mod_upper_bound k s ltac:(lia)) as Hmod.
  assert (Hk : INR k = INR s * INR (k / s) + INR (k mod s)).
  { rewrite <- mult_INR, <- plus_INR. now f_equal. }
  assert (Hm : 0 <= INR (k mod s) < INR s).
  { split; [apply pos_INR | now apply lt_INR]. }
  set (f := INR (k mod s) / INR s).
  assert (Hsplit : INR k / INR s = INR (k / s) + f).
  { unfold f. rewrite Hk. field. lra. }
  assert (Hf0 : 0 <= f).
  { apply Rmult_le_pos; [tauto | left; now apply Rinv_0_lt_compat]. }
  assert (Hf1 : f < 1).
  { apply Rmult_lt_reg_r with (INR s); [exact Hpos |].
    unfold f, Rdiv. rewrite Rmult_assoc, Rinv_l by lra. lra. }
  lra.
Qed.

(** Halving the index is taking the index in boxes of twice the side. *)
Lemma floor_half (u h : R) :
  0 < h -> Int_part (u / (2 * h)) = (Int_part (u / h) / 2)%Z.
Proof.
  intros Hh. apply floor_unique.
  pose proof (floor_bounds (u / h)) as [H1 H2].
  set (q := Int_part (u / h)) in *.
  pose proof (Z.div_mod q 2 ltac:(lia)) as Hq.
  pose proof (Z.mod_pos_bound q 2 ltac:(lia)) as Hr.
  assert (Hq' : IZR q = 2 * IZR (q / 2) + IZR (q mod 2)).
  { rewrite <- mult_IZR, <- plus_IZR. now f_equal. }
  assert (Hr' : 0 <= IZR (q mod 2) <= 1).
  { split; [apply IZR_le; lia | apply IZR_le; lia]. }
  replace (u / (2 * h)) with (u / h / 2) by (field; lra).
  lra.
Qed.

End Floors.

Section Grid.

Lemma samples_are_numbers (shape : string) (xy : num * num) :
  In xy (samplesOf shape) -> exists x y, xy = (Num x, Num y).
Proof.
  unfold samplesOf.
  destruct (String.eqb shape "line");
    [| destruct (String.eqb shape "square");
       [| destruct (String.eqb shape "koch"); [| intros []]]].
  - unfold lineSamples. intros Hin. apply in_map_iff in Hin.
    destruct Hin as (k & <- & _). unfold ofNat. now eexists; eexists.
  - unfold squareSamples. intros Hin. apply in_flat_map in Hin.
    destruct Hin as (a & _ & Hin). apply in_map_iff in Hin.
    destruct Hin as (b & <- & _). unfold ofNat. now eexists; eexists.
  - unfold kochSamples. intros Hin. apply in_flat_map in Hin.
    destruct Hin as (i & _ & Hin). unfold segmentSamples in Hin.
    destruct (pointAt kochPoints i) as [x1 y1].
    destruct (pointAt kochPoints (S i)) as [x2 y2].
    apply in_map_iff in Hin. destruct Hin as (s & <- & _).
    now eexists; eexists.
Qed.

Lemma boxOf_nonzero (sz x y : R) :
  sz <> 0 ->
  boxOf (Num sz) (Num x, Num y) = keyOf (boxIndex sz x, boxIndex sz y).
Proof.
  intros Hsz. unfold boxOf, keyOf, boxIndex, nsub. cbn [fst snd nneg nadd].
  now rewrite !ndiv_pos by exact Hsz.
Qed.

Lemma numBoxes_nonzero (sz : R) :
  sz <> 0 -> nfloor (ndiv (Num 256) (Num sz)) = Num (IZR (gridSide sz)).
Proof. intros Hsz. now rewrite ndiv_pos by exact Hsz. Qed.

Lemma boxOf_positive (sz x y : R) :
  0 < sz ->
  boxOf (Num sz) (Num x, Num y) = keyOf (boxIndex sz x, boxIndex sz y).
Proof. intros Hsz. apply boxOf_nonzero. lra. Qed.

Lemma numBoxes_positive (sz : R) :
  0 < sz -> nfloor (ndiv (Num 256) (Num sz)) = Num (IZR (gridSide sz)).
Proof. intros Hsz. apply numBoxes_nonzero. lra. Qed.

Lemma inGrid_keyOf (nb i j : Z) :
  inGrid (Num (IZR nb)) (keyOf (i, j)) = true
  <-> (0 <= i < nb)%Z /\ (0 <= j < nb)%Z.
Proof.
  unfold inGrid, keyOf, nge. cbn [fst snd nle nlt].
  rewrite !andb_true_iff, !Rleb_true, !Rltb_true. split.
  - intros [[[H1 H2] H3] H4].
    apply le_IZR in H1, H3. apply lt_IZR in H2, H4. lia.
  - intros [[H1 H2] [H3 H4]].
    repeat split; try (apply IZR_le; assumption); apply IZR_lt; assumption.
Qed.

Lemma inGrid_positive (sz x y : R) :
  0 < sz ->
  inGrid (nfloor (ndiv (Num 256) (Num sz))) (boxOf (Num sz) (Num x, Num y))
  = true
  <-> (0 <= boxIndex sz x < gridSide sz)%Z
      /\ (0 <= boxIndex sz y < gridSide sz)%Z.
Proof.
  intros Hsz. rewrite numBoxes_positive, boxOf_positive by exact Hsz.
  apply inGrid_keyOf.
Qed.

(** With a size that is not a positive number no box passes the guard. *)
Lemma inGrid_nonpositive (size : num) (x y : R) :
  (forall sz, size = Num sz -> sz <= 0) ->
  inGrid (nfloor (ndiv (Num 256) size)) (boxOf size (Num x, Num y)) = false.
Proof.
  intros Hsize. destruct size as [sz | | |].
  - specialize (Hsize sz eq_refl).
    destruct (Req_dec_T sz 0) as [-> | Hne].
    + unfold boxOf, inGrid, nge, nsub. cbn [fst snd nneg nadd ndiv].
      assert (H0 : Reqb 0 0 = true) by now apply Reqb_true.
      rewrite H0. unfold signedInf.
      assert (H256 : Reqb 256 0 = false) by (apply Reqb_false; lra).
      assert (Hlt : Rltb 0 256 = true) by (apply Rltb_true; lra).
      rewrite H256, Hlt. cbn [Bool.eqb nfloor].
      match goal with
      | |- context [if ?b then NaN else _] => destruct b; [reflexivity |]
      end.
      match goal with
      | |- context [if ?b then PInf else NInf] => destruct b; reflexivity
      end.
    + assert (Hneg : sz < 0) by lra.
      rewrite numBoxes_nonzero, boxOf_nonzero by exact Hne.
      apply not_true_is_false. intros Hin. apply inGrid_keyOf in Hin.
      pose proof (floor_bounds (256 / sz)) as [Hb _]. fold (gridSide sz) in Hb.
      assert (Hq : 256 / sz < 0).
      { unfold Rdiv. apply Rmult_pos_neg; [lra |]. now apply Rinv_neg. }
      assert (Hnb : (gridSide sz < 0)%Z) by (apply lt_IZR; lra).
      lia.
  - unfold boxOf, inGrid, nge, nsub. cbn [fst snd nneg nadd ndiv nfloor nle nlt].
    assert (H : Rltb (IZR (Int_part 0)) (IZR (Int_part 0)) = false)
      by (apply Rltb_false; lra).
    rewrite H. now rewrite andb_false_r.
  - unfold boxOf, inGrid, nge, nsub. cbn [fst snd nneg nadd ndiv nfloor nle nlt].
    assert (H : Rltb (IZR (Int_part 0)) (IZR (Int_part 0)) = false)
      by (apply Rltb_false; lra).
    rewrite H. now rewrite andb_false_r.
  - reflexivity.
Qed.

Variable shape : string.

Lemma occupiedBoxes_positive (sz : R) (k : num * num) :
  0 < sz ->
  In k (occupiedBoxes shape (Num sz)) <->
  exists x y, In (Num x, Num y) (samplesOf shape)
              /\ (0 <= boxIndex sz x < gridSide sz)%Z
              /\ (0 <= boxIndex sz y < gridSide sz)%Z
              /\ k = keyOf (boxIndex sz x, boxIndex sz y).
Proof.
  intros Hsz. rewrite occupiedBoxes_In. split.
  - intros (xy & Hin & Hgrid & ->).
    destruct (samples_are_numbers shape xy Hin) as (x & y & ->).
    exists x, y. apply inGrid_positive in Hgrid; [| exact Hsz].
    rewrite boxOf_positive by exact Hsz. tauto.
  - intros (x & y & Hin & Hx & Hy & ->). exists (Num x, Num y).
    split; [exact Hin | split].
    + apply inGrid_positive; [exact Hsz | tauto].
    + symmetry. now apply boxOf_positive.
Qed.

Lemma occupiedBoxes_nonpositive (size : num) :
  (forall sz, size = Num sz -> sz <= 0) -> occupiedBoxes shape size = [].
Proof.
  intros Hsize.
  destruct (occupiedBoxes shape size) as [| k rest] eqn:Hocc; [reflexivity |].
  assert (Hin : In k (occupiedBoxes shape size)) by (rewrite Hocc; now left).
  apply occupiedBoxes_In in Hin. destruct Hin as (xy & Hxy & Hgrid & _).
  destruct (samples_are_numbers shape xy Hxy) as (x & y & ->).
  rewrite inGrid_nonpositive in Hgrid by exact Hsize. discriminate.
Qed.

End Grid.

Section WithinGrid.

Lemma ofNat_Z (z : Z) : (0 <= z)%Z -> ofNat (Z.to_nat z) = Num (IZR z).
Proof.
  intros Hz. unfold ofNat. now rewrite INR_IZR_INZ, Z2Nat.id by exact Hz.
Qed.

Lemma ofNat_inj (a b : nat) : ofNat a = ofNat b -> a = b.
Proof. unfold ofNat. intros [= H]. now apply INR_eq. Qed.

Lemma occupied_in_grid (shape : string) (size : num) (box : num * num) :
  In box (occupiedBoxes shape size) ->
  exists i j : nat,
    box = (ofNat i, ofNat j)
    /\ (i < sideOf size)%nat /\ (j < sideOf size)%nat.
Proof.
  intros Hin.
  assert (Hpos : exists sz, size = Num sz /\ 0 < sz).
  { destruct size as [sz | | |];
      try (rewrite occupiedBoxes_nonpositive in Hin
            by (intros ? [=]); contradiction).
    destruct (Rlt_dec 0 sz) as [Hlt | Hle]; [now exists sz |].
    rewrite occupiedBoxes_nonpositive in Hin; [contradiction |].
    intros ? [= <-]. lra. }
  destruct Hpos as (sz & -> & Hsz).
  apply occupiedBoxes_positive in Hin; [| exact Hsz].
  destruct Hin as (x & y & _ & Hx & Hy & ->).
  exists (Z.to_nat (boxIndex sz x)), (Z.to_nat (boxIndex sz y)).
  unfold sideOf. apply Rltb_true in Hsz. rewrite Hsz.
  split; [| lia].
  unfold keyOf. cbn [fst snd]. now rewrite !ofNat_Z by lia.
Qed.

End WithinGrid.

(** X17. Whatever the shape and the size, the boxes [countBoxes] records
    are boxes of the grid: pairs of whole indices below the number of boxes
    along a side.  So the count never exceeds the square of that number, and
    it is 0 when the size is not a positive number. *)
Theorem countBoxes_within_grid (shape : string) (size : num) :
  (forall box, In box (occupiedBoxes shape size) ->
               exists i j : nat,
                 box = (ofNat i, ofNat j)
                 /\ (i < sideOf size)%nat /\ (j < sideOf size)%nat)
  /\ (countBoxes shape size <= sideOf size * sideOf size)%nat.
Proof.
  split; [apply occupied_in_grid |].
  unfold countBoxes. rewrite <- cellList_length_full.
  rewrite <- (length_map (fun ij : nat * nat => (ofNat (fst ij), ofNat (snd ij)))).
  apply NoDup_incl_length; [apply occupiedBoxes_NoDup |].
  intros box Hin. apply occupied_in_grid in Hin.
  destruct Hin as (i & j & -> & Hi & Hj).
  apply in_map_iff. exists (i, j). split; [reflexivity |].
  apply In_cellList. split; [exact Hi | apply in_seq; lia].
Qed.

(** *** The horizontal line *)

Section LineCounts.

Lemma keyOf_nat (a b : nat) :
  keyOf (Z.of_nat a, Z.of_nat b) = (ofNat a, ofNat b).
Proof. unfold keyOf, ofNat. cbn [fst snd]. now rewrite !INR_IZR_INZ. Qed.

Lemma INR_literal (n : nat) : INR n = IZR (Z.of_nat n).
Proof. apply INR_IZR_INZ. Qed.

Lemma gridSide_nat (s : nat) :
  (1 <= s)%nat -> gridSide (INR s) = Z.of_nat (256 / s).
Proof.
  intros Hs. unfold gridSide. rewrite <- floor_div_nat by exact Hs.
  f_equal. f_equal. rewrite INR_literal. reflexivity.
Qed.

(** The box index of a whole coordinate [20 + k]. *)
Lemma boxIndex_nat (s k : nat) :
  (1 <= s)%nat -> boxIndex (INR s) (INR (20 + k)) = Z.of_nat (k / s).
Proof.
  intros Hs. unfold boxIndex. rewrite <- floor_div_nat by exact Hs.
  f_equal. f_equal. rewrite plus_INR, (INR_literal 20). simpl Z.of_nat. lra.
Qed.

Lemma half_below_whole (s : nat) :
  (1 <= s <= 256)%nat -> (128 / s < 256 / s)%nat.
Proof.
  intros Hs.
  pose proof (Nat.Div0.mul_div_le 128 s) as H128.
  assert (Htwice : (2 * (128 / s) <= 256 / s)%nat)
    by (apply Nat.div_le_lower_bound; lia).
  assert (Hone : (1 <= 256 / s)%nat)
    by (apply Nat.div_le_lower_bound; lia).
  lia.
Qed.

Variable s : nat.
Hypothesis s_pos : (1 <= s)%nat.

Lemma line_boxes (k : num * num) :
  In k (occupiedBoxes "line" (ofNat s)) <->
  exists i, (i < 256 / s)%nat /\ k = (ofNat i, ofNat (128 / s)).
Proof.
  assert (Hsz : 0 < INR s) by (apply lt_0_INR; lia).
  unfold ofNat at 1. rewrite occupiedBoxes_positive by exact Hsz.
  change (samplesOf "line") with lineSamples.
  assert (Hy : boxIndex (INR s) 148 = Z.of_nat (128 / s)).
  { rewrite <- (boxIndex_nat s 128 s_pos). f_equal.
    rewrite (INR_literal (20 + 128)). reflexivity. }
  split.
  - intros (x & y & Hin & Hx & Hyr & ->).
    unfold lineSamples in Hin. apply in_map_iff in Hin.
    destruct Hin as (k0 & Heq & Hk0). unfold ofNat in Heq.
    assert (Ex : x = INR (20 + k0)) by congruence.
    assert (Ey : y = 148) by congruence.
    clear Heq. subst x y.
    rewrite boxIndex_nat, gridSide_nat in Hx by exact s_pos.
    exists (k0 / s)%nat. split; [lia |].
    now rewrite boxIndex_nat, Hy, keyOf_nat.
  - intros (i & Hi & ->).
    assert (Hs256 : (s <= 256)%nat).
    { destruct (Nat.le_gt_cases s 256) as [H | H]; [exact H |].
      rewrite Nat.div_small in Hi by exact H. lia. }
    pose proof (Nat.Div0.mul_div_le 256 s) as Hmul.
    exists (INR (20 + i * s)), 148.
    rewrite boxIndex_nat, Hy, gridSide_nat by exact s_pos.
    rewrite Nat.div_mul by lia.
    pose proof (half_below_whole s ltac:(lia)) as Hhalf.
    split; [| split; [lia | split; [lia | now rewrite keyOf_nat]]].
    unfold lineSamples. apply in_map_iff. exists (i * s)%nat.
    split; [reflexivity |]. apply in_seq. nia.
Qed.

Lemma line_count : countBoxes "line" (ofNat s) = (256 / s)%nat.
Proof.
  unfold countBoxes.
  transitivity (length (map (fun i => (ofNat i, ofNat (128 / s)))
                            (seq 0 (256 / s))));
    [| now rewrite length_map, length_seq].
  apply same_members_length.
  - apply occupiedBoxes_NoDup.
  - apply NoDup_map_injective; [| apply seq_NoDup].
    intros a b [= H]. now apply INR_eq.
  - intros k. rewrite line_boxes, in_map_iff. split.
    + intros (i & Hi & ->). exists i. split; [reflexivity |].
      apply in_seq. lia.
    + intros (i & <- & Hi). exists i. apply in_seq in Hi.
      split; [lia | reflexivity].
Qed.

End LineCounts.

(** X18. For the horizontal line, [countBoxes] returns the number of boxes
    along a side of the grid, [floor(256 / s)], at every whole size [s]: the
    counts 64, 32, 16, 8, 4 and 2 at the six sizes of [calculateFD], each
    half the one before. *)
Theorem line_box_counts :
  (forall s : nat, countBoxes "line" (ofNat s) = (256 / s)%nat)
  /\ map (fun s => boxCounts "line" s) [4; 8; 16; 32; 64; 128]%nat
     = [64; 32; 16; 8; 4; 2]%nat.
Proof.
  assert (Hcount : forall s : nat, countBoxes "line" (ofNat s) = (256 / s)%nat).
  { intros [| s].
    - unfold countBoxes. rewrite occupiedBoxes_nonpositive; [reflexivity |].
      intros sz [= <-]. simpl. lra.
    - apply line_count. lia. }
  split; [exact Hcount |].
  unfold boxCounts. cbn [map]. rewrite !Hcount. reflexivity.
Qed.

(** *** Nested grids and the range of the estimate *)

Section Nesting.

Lemma indicesOf_keyOf (ij : Z * Z) : indicesOf (keyOf ij) = ij.
Proof.
  destruct ij as [i j]. unfold keyOf, indicesOf. cbn [fst snd].
  now rewrite !floor_IZR.
Qed.

Lemma boxIndex_double (h u : R) :
  0 < h -> boxIndex (2 * h) u = (boxIndex h u / 2)%Z.
Proof. intros Hh. unfold boxIndex. now apply floor_half. Qed.

Lemma gridSide_double (h : R) :
  0 < h -> gridSide (2 * h) = (gridSide h / 2)%Z.
Proof. intros Hh. unfold gridSide. now apply floor_half. Qed.

Lemma half_in_range (i n : Z) :
  (0 <= i / 2 < n / 2)%Z -> (0 <= i < n)%Z.
Proof.
  intros [H1 H2].
  pose proof (Z.div_mod i 2 ltac:(lia)) as Hi.
  pose proof (Z.mod_pos_bound i 2 ltac:(lia)) as Hri.
  pose proof (Z.div_mod n 2 ltac:(lia)) as Hn.
  pose proof (Z.mod_pos_bound n 2 ltac:(lia)) as Hrn.
  lia.
Qed.

Lemma in_range_half (i q : Z) :
  (0 <= i < 2 * q)%Z -> (0 <= i / 2 < q)%Z.
Proof.
  intros [H1 H2].
  pose proof (Z.div_mod i 2 ltac:(lia)) as Hi.
  pose proof (Z.mod_pos_bound i 2 ltac:(lia)) as Hri.
  lia.
Qed.

Lemma child_of_parent (i j : Z) :
  In (i, j) (childBoxes (parentBox (i, j))).
Proof.
  unfold childBoxes, parentBox. cbn [fst snd].
  pose proof (Z.div_mod i 2 ltac:(lia)) as Hi.
  pose proof (Z.mod_pos_bound i 2 ltac:(lia)) as Hri.
  pose proof (Z.div_mod j 2 ltac:(lia)) as Hj.
  pose proof (Z.mod_pos_bound j 2 ltac:(lia)) as Hrj.
  assert (Ei : (i = 2 * (i / 2) \/ i = 2 * (i / 2) + 1)%Z) by lia.
  assert (Ej : (j = 2 * (j / 2) \/ j = 2 * (j / 2) + 1)%Z) by lia.
  destruct Ei as [Ei | Ei], Ej as [Ej | Ej]; rewrite Ei at 1; rewrite Ej at 1;
    simpl; tauto.
Qed.

Lemma flat_map_length_4 {A B : Type} (f : A -> list B) (l : list A) :
  (forall a, length (f a) = 4%nat) ->
  length (flat_map f l) = (4 * length l)%nat.
Proof.
  intros Hf. induction l as [| a l IH]; simpl; [reflexivity |].
  rewrite length_app, Hf, IH. lia.
Qed.

Variable shape : string.
Variable h : R.
Hypothesis h_pos : 0 < h.

(** A box of side [2h] that is counted holds a counted box of side [h]. *)
Lemma coarser_at_most_finer :
  (countBoxes shape (Num (2 * h)) <= countBoxes shape (Num h))%nat.
Proof.
  unfold countBoxes.
  rewrite <- (length_map (fun k => keyOf (parentBox (indicesOf k)))
                         (occupiedBoxes shape (Num h))).
  apply NoDup_incl_length; [apply occupiedBoxes_NoDup |].
  intros box Hin. apply occupiedBoxes_positive in Hin; [| lra].
  destruct Hin as (x & y & Hs & Hx & Hy & ->).
  rewrite !boxIndex_double, gridSide_double in * by exact h_pos.
  apply half_in_range in Hx, Hy.
  apply in_map_iff. exists (keyOf (boxIndex h x, boxIndex h y)).
  split; [now rewrite indicesOf_keyOf |].
  apply occupiedBoxes_positive; [exact h_pos |].
  exists x, y. tauto.
Qed.

(** When the grid of side [h] has twice as many boxes along a side, a
    counted box of side [h] lies in a counted box of side [2h], which holds
    four boxes of side [h]. *)
Lemma finer_at_most_four_coarser :
  gridSide h = (2 * gridSide (2 * h))%Z ->
  (countBoxes shape (Num h) <= 4 * countBoxes shape (Num (2 * h)))%nat.
Proof.
  intros Heven. unfold countBoxes.
  rewrite <- (flat_map_length_4
                (fun k => map keyOf (childBoxes (indicesOf k)))
                (occupiedBoxes shape (Num (2 * h))))
    by reflexivity.
  apply NoDup_incl_length; [apply occupiedBoxes_NoDup |].
  intros box Hin. apply occupiedBoxes_positive in Hin; [| exact h_pos].
  destruct Hin as (x & y & Hs & Hx & Hy & ->).
  rewrite Heven in Hx, Hy. apply in_range_half in Hx, Hy.
  apply in_flat_map.
  exists (keyOf (parentBox (boxIndex h x, boxIndex h y))). split.
  - apply occupiedBoxes_positive; [lra |].
    exists x, y. rewrite !boxIndex_double by exact h_pos.
    unfold parentBox. cbn [fst snd]. tauto.
  - rewrite indicesOf_keyOf. apply in_map. apply child_of_parent.
Qed.

End Nesting.

(** X19. Box counts are nested.  For every shape and every positive size
    [h], a grid of boxes of side [2h] never counts more boxes than the grid
    of side [h]; and when the finer grid has exactly twice as many boxes
    along a side, it counts at most four times as many. *)
Theorem box_counts_nested (shape : string) (h : R) :
  0 < h ->
  (countBoxes shape (Num (2 * h)) <= countBoxes shape (Num h))%nat
  /\ (gridSide h = (2 * gridSide (2 * h))%Z ->
      (countBoxes shape (Num h) <= 4 * countBoxes shape (Num (2 * h)))%nat).
Proof.
  intros Hh. split.
  - now apply coarser_at_most_finer.
  - now apply finer_at_most_four_coarser.
Qed.

(** Witness of X19: the line at sizes 64 and 128. *)
Lemma box_counts_nested_witness :
  (countBoxes "line" (Num (2 * 64)) <= countBoxes "line" (Num 64))%nat
  /\ (gridSide 64 = (2 * gridSide (2 * 64))%Z ->
      (countBoxes "line" (Num 64) <= 4 * countBoxes "line" (Num (2 * 64)))%nat).
Proof.
  apply (box_counts_nested "line" 64). lra.
Defined.

Section SlopeRange.

Lemma ln4 : ln 4 = 2 * ln 2.
Proof.
  replace 4 with (2 * 2) by lra. rewrite ln_mult by lra. lra.
Qed.

Lemma logCount_mono (a b : nat) :
  (a <= b)%nat -> logCount a <= logCount b.
Proof.
  intros Hab. unfold logCount. apply ln_monotone.
  - eapply Rlt_le_trans; [apply Rlt_0_1 | apply Rmax_r].
  - apply Rle_max_compat_r. now apply le_INR.
Qed.

Lemma logCount_quadruple (a b : nat) :
  (b <= 4 * a)%nat -> logCount b <= logCount a + 2 * ln 2.
Proof.
  intros Hab. unfold logCount.
  assert (Ha : 1 <= Rmax (INR a) 1) by apply Rmax_r.
  rewrite <- ln4, <- ln_mult by lra.
  apply ln_monotone.
  - eapply Rlt_le_trans; [apply Rlt_0_1 | apply Rmax_r].
  - apply Rmax_lub; [| lra].
    apply le_INR in Hab. rewrite mult_INR in Hab.
    pose proof (Rmax_l (INR a) 1) as Hl.
    replace (INR 4) with 4 in Hab by (rewrite INR_IZR_INZ; reflexivity).
    lra.
Qed.

(** The slope lies between 0 and 2 when each halving of the size multiplies
    the count by a factor between 1 and 4. *)
Lemma slope_between_0_and_2 (counts : nat -> nat) :
  (forall s, In s [4; 8; 16; 32; 64]%nat ->
             (counts (2 * s) <= counts s <= 4 * counts (2 * s))%nat) ->
  exists d, calculateFD counts = Num d /\ 0 <= d <= 2.
Proof.
  intros Hstep. rewrite calculateFD_formula. eexists. split; [reflexivity |].
  assert (H : forall s, In s [4; 8; 16; 32; 64]%nat ->
                        logCount (counts (2 * s)%nat) <= logCount (counts s)
                        /\ logCount (counts s)
                           <= logCount (counts (2 * s)%nat) + 2 * ln 2).
  { intros s Hs. destruct (Hstep s Hs) as [H1 H2].
    split; [now apply logCount_mono | now apply logCount_quadruple]. }
  pose proof (H 4%nat ltac:(simpl; tauto)) as [L4 U4].
  pose proof (H 8%nat ltac:(simpl; tauto)) as [L8 U8].
  pose proof (H 16%nat ltac:(simpl; tauto)) as [L16 U16].
  pose proof (H 32%nat ltac:(simpl; tauto)) as [L32 U32].
  pose proof (H 64%nat ltac:(simpl; tauto)) as [L64 U64].
  change (2 * 4)%nat with 8%nat in *. change (2 * 8)%nat with 16%nat in *.
  change (2 * 16)%nat with 32%nat in *. change (2 * 32)%nat with 64%nat in *.
  change (2 * 64)%nat with 128%nat in *.
  pose proof ln2_pos as Hln.
  set (num := 15 * (logCount (counts 4%nat) - logCount (counts 128%nat))
              + 9 * (logCount (counts 8%nat) - logCount (counts 64%nat))
              + 3 * (logCount (counts 16%nat) - logCount (counts 32%nat))).
  assert (Hnum : 0 <= num <= 210 * ln 2) by (unfold num; lra).
  assert (Hinv : 0 < / (105 * ln 2)) by (apply Rinv_0_lt_compat; lra).
  split.
  - apply Rmult_le_pos; [tauto | lra].
  - assert (Hd : 0 <= (210 * ln 2 - num) * / (105 * ln 2))
      by (apply Rmult_le_pos; lra).
    assert (E : num / (105 * ln 2)
                = 2 - (210 * ln 2 - num) * / (105 * ln 2))
      by (field; lra).
    lra.
Qed.

Lemma grid_doubles (s : nat) :
  In s [4; 8; 16; 32; 64]%nat ->
  gridSide (INR s) = (2 * gridSide (2 * INR s))%Z.
Proof.
  intros Hs.
  assert (Hpos : (1 <= s)%nat).
  { simpl in Hs. repeat (destruct Hs as [<- | Hs]; [lia |]). contradiction. }
  replace (2 * INR s) with (INR (2 * s))
    by (rewrite mult_INR; reflexivity).
  rewrite !gridSide_nat by lia.
  simpl in Hs.
  repeat (destruct Hs as [<- | Hs]; [reflexivity |]). contradiction.
Qed.

End SlopeRange.

(** X20. For every shape, known or not, the dimension that [calculateFD]
    estimates from the box counts at its six sizes is a number between 0
    and 2. *)
Theorem estimated_dimension_between_0_and_2 (shape : string) :
  exists d, fdOf shape = Num d /\ 0 <= d <= 2.
Proof.
  unfold fdOf. apply slope_between_0_and_2. intros s Hs.
  assert (Hpos : 0 < INR s).
  { apply lt_0_INR. simpl in Hs.
    repeat (destruct Hs as [<- | Hs]; [lia |]). contradiction. }
  unfold boxCounts, ofNat.
  replace (INR (2 * s)) with (2 * INR s) by (rewrite mult_INR; reflexivity).
  split.
  - now apply coarser_at_most_finer.
  - apply finer_at_most_four_coarser; [exact Hpos | now apply grid_doubles].
Qed.

(** *** The occupancy that is drawn *)

Section DrawnBoxes.

Variable shape : string.
Variable sz : R.
Hypothesis sz_pos : 0 < sz.

Local Abbreviation side := (Z.to_nat (gridSide sz)).

Lemma gridBoxes_positive :
  gridBoxes (Num sz) = Some (cellList side (fun _ => seq 0 side)).
Proof.
  unfold gridBoxes. rewrite numBoxes_positive by exact sz_pos.
  now rewrite floor_IZR.
Qed.

Lemma keyOf_ofNat (i j : nat) (a b : Z) :
  (ofNat i, ofNat j) = keyOf (a, b) <-> a = Z.of_nat i /\ b = Z.of_nat j.
Proof.
  unfold keyOf, ofNat. cbn [fst snd]. rewrite !INR_IZR_INZ. split.
  - intros [= H1 H2]. apply eq_IZR in H1, H2. now split.
  - now intros [-> ->].
Qed.

(** A drawn box is shown occupied exactly when [countBoxes] recorded it. *)
Lemma isOccupied_counted (i j : nat) :
  (i < side)%nat -> (j < side)%nat ->
  (isOccupied shape (Num sz) (i, j) = true
   <-> In (ofNat i, ofNat j) (occupiedBoxes shape (Num sz))).
Proof.
  intros Hi Hj. unfold isOccupied. cbn [fst snd].
  rewrite setHas_In, occupiedSet_In, occupiedBoxes_positive by exact sz_pos.
  split.
  - intros (xy & Hin & Heq).
    destruct (samples_are_numbers shape xy Hin) as (x & y & ->).
    rewrite boxOf_positive in Heq by exact sz_pos.
    exists x, y. pose proof Heq as Hkey. apply keyOf_ofNat in Hkey.
    destruct Hkey as [Hx Hy]. rewrite Hx, Hy.
    split; [exact Hin | split; [lia | split; [lia |]]].
    now rewrite <- Hx, <- Hy.
  - intros (x & y & Hin & _ & _ & Heq). exists (Num x, Num y).
    split; [exact Hin |]. now rewrite boxOf_positive.
Qed.

Lemma occupied_drawn_count :
  length (filter (isOccupied shape (Num sz))
                 (cellList side (fun _ => seq 0 side)))
  = countBoxes shape (Num sz).
Proof.
  unfold countBoxes.
  rewrite <- (length_map
                (fun ij : nat * nat => (ofNat (fst ij), ofNat (snd ij)))).
  apply same_members_length.
  - apply NoDup_map_injective.
    + intros [a b] [c d]. cbn [fst snd]. intros [= H1 H2].
      apply INR_eq in H1, H2. now subst.
    + apply NoDup_filter. apply NoDup_cellList. intros _. apply seq_NoDup.
  - apply occupiedBoxes_NoDup.
  - intros k. rewrite in_map_iff. split.
    + intros ([i j] & <- & Hin). apply filter_In in Hin.
      destruct Hin as [Hcell Hocc]. apply In_cellList in Hcell.
      destruct Hcell as [Hi Hj]. apply in_seq in Hj.
      apply isOccupied_counted in Hocc; [exact Hocc | lia | lia].
    + intros Hin. pose proof Hin as Hgrid.
      apply occupied_in_grid in Hgrid.
      destruct Hgrid as (i & j & -> & Hi & Hj).
      unfold sideOf in Hi, Hj.
      assert (Hlt : Rltb 0 sz = true) by now apply Rltb_true.
      rewrite Hlt in Hi, Hj.
      exists (i, j). split; [reflexivity |]. apply filter_In. split.
      * apply In_cellList. split; [exact Hi | apply in_seq; lia].
      * now apply isOccupied_counted.
Qed.

End DrawnBoxes.

(** X21. For a positive box size the render pass draws the full grid, and
    although it fills its occupancy set without the bounds guard of
    [countBoxes], a drawn box is shown occupied exactly when [countBoxes]
    recorded it: the number of highlighted boxes is the count displayed. *)
Theorem drawn_occupancy_matches_count (shape : string) (sz : R) :
  0 < sz ->
  let side := Z.to_nat (gridSide sz) in
  exists boxes,
    gridBoxes (Num sz) = Some boxes
    /\ (forall i j, In (i, j) boxes <-> (i < side)%nat /\ (j < side)%nat)
    /\ (forall i j,
           In (i, j) boxes ->
           (isOccupied shape (Num sz) (i, j) = true
            <-> In (ofNat i, ofNat j) (occupiedBoxes shape (Num sz))))
    /\ length (filter (isOccupied shape (Num sz)) boxes)
       = countBoxes shape (Num sz).
Proof.
  intros Hsz side. exists (cellList side (fun _ => seq 0 side)).
  split; [now apply gridBoxes_positive | split; [| split]].
  - intros i j. rewrite In_cellList, in_seq. lia.
  - intros i j Hin. apply In_cellList in Hin. destruct Hin as [Hi Hj].
    apply in_seq in Hj. apply isOccupied_counted; [exact Hsz | exact Hi | lia].
  - now apply occupied_drawn_count.
Qed.

(** Witness of X21: boxes of side 64. *)
Lemma drawn_occupancy_matches_count_witness :
  let side := Z.to_nat (gridSide 64) in
  exists boxes,
    gridBoxes (Num 64) = Some boxes
    /\ (forall i j, In (i, j) boxes <-> (i < side)%nat /\ (j < side)%nat)
    /\ (forall i j,
           In (i, j) boxes ->
           (isOccupied "koch" (Num 64) (i, j) = true
            <-> In (ofNat i, ofNat j) (occupiedBoxes "koch" (Num 64))))
    /\ length (filter (isOccupied "koch" (Num 64)) boxes)
       = countBoxes "koch" (Num 64).
Proof.
  apply (drawn_occupancy_matches_count "koch" 64). lra.
Defined.

(** ** The Koch curve *)

Section Koch.

Lemma pointAt_cons (p : R * R) (points : list (R * R)) (i : nat) :
  pointAt (p :: points) (S i) = pointAt points i.
Proof. reflexivity. Qed.

(** One pass of the outer loop, segment by segment. *)
Lemma kochRefine_cons (p q : R * R) (rest : list (R * R)) :
  kochRefine (p :: q :: rest) = kochPieces p q ++ kochRefine (q :: rest).
Proof.
  unfold kochRefine.
  change (length (p :: q :: rest) - 1)%nat with (S (length rest)).
  replace (length (q :: rest) - 1)%nat with (length rest)
    by (cbn [length]; lia).
  rewrite pointAt_cons. cbn [seq flat_map]. rewrite <- app_assoc.
  f_equal. f_equal.
  rewrite <- seq_shift, flat_map_concat_map, map_map, <- flat_map_concat_map.
  reflexivity.
Qed.

Lemma kochRefine_single (p : R * R) : kochRefine [p] = [p].
Proof. reflexivity. Qed.

Lemma kochPieces_length (a b : R * R) : length (kochPieces a b) = 4%nat.
Proof. destruct a, b. reflexivity. Qed.

Lemma kochPieces_head (a b : R * R) :
  exists rest, kochPieces a b = a :: rest.
Proof. destruct a, b. now eexists. Qed.

Lemma kochRefine_length (p : R * R) (rest : list (R * R)) :
  length (kochRefine (p :: rest)) = (4 * length rest + 1)%nat.
Proof.
  revert p. induction rest as [| q rest IH]; intros p; [reflexivity |].
  rewrite kochRefine_cons, length_app, kochPieces_length, IH.
  cbn [length]. lia.
Qed.

Lemma kochRefine_first (p : R * R) (rest : list (R * R)) :
  pointAt (kochRefine (p :: rest)) 0 = p.
Proof.
  destruct rest as [| q rest]; [reflexivity |].
  rewrite kochRefine_cons. destruct (kochPieces_head p q) as (tl & ->).
  reflexivity.
Qed.

Lemma kochRefine_last (points : list (R * R)) :
  pointAt (kochRefine points) (length (kochRefine points) - 1)
  = pointAt points (length points - 1).
Proof.
  unfold kochRefine at 1 2. rewrite length_app. cbn [length].
  replace (length
             (flat_map
                (fun i => kochPieces (pointAt points i) (pointAt points (S i)))
                (seq 0 (length points - 1))) + 1 - 1)%nat
    with (length
            (flat_map
               (fun i => kochPieces (pointAt points i) (pointAt points (S i)))
               (seq 0 (length points - 1))))
    by lia.
  unfold pointAt at 1. now rewrite nth_middle.
Qed.

Lemma sqrt3_sq : sqrt 3 * sqrt 3 = 3.
Proof. apply sqrt_sqrt. lra. Qed.

(** The four pieces of a segment have a third of its length each: a ninth
    of the squared length. *)
Lemma kochPieces_spacing (a b : R * R) :
  exists p2 p3 p4,
    kochPieces a b = [a; p2; p3; p4]
    /\ sqDist a p2 = sqDist a b / 9
    /\ sqDist p2 p3 = sqDist a b / 9
    /\ sqDist p3 p4 = sqDist a b / 9
    /\ sqDist p4 b = sqDist a b / 9.
Proof.
  destruct a as [x1 y1], b as [x2 y2]. unfold kochPieces.
  do 3 eexists. split; [reflexivity |].
  unfold sqDist. cbn [fst snd].
  pose proof sqrt3_sq as H3. set (r := sqrt 3) in *.
  repeat split.
  - field.
  - transitivity (((x2 - x1) ^ 2 + (y2 - y1) ^ 2) * (1 + r * r) / 36);
      [field | rewrite H3; field].
  - transitivity (((x2 - x1) ^ 2 + (y2 - y1) ^ 2) * (1 + r * r) / 36);
      [field | rewrite H3; field].
  - field.
Qed.

Lemma kochRefine_spacing (D : R) (points : list (R * R)) :
  evenlySpaced D points -> evenlySpaced (D / 9) (kochRefine points).
Proof.
  induction points as [| p rest IH]; [intros _; simpl; exact I |].
  destruct rest as [| q rest]; [intros _; simpl; exact I |].
  intros [Hpq Hrest]. specialize (IH Hrest).
  rewrite kochRefine_cons.
  destruct (kochPieces_spacing p q) as (p2 & p3 & p4 & -> & H1 & H2 & H3 & H4).
  rewrite Hpq in H1, H2, H3, H4.
  assert (Hhead : exists tl, kochRefine (q :: rest) = q :: tl).
  { destruct rest as [| q' rest']; [now exists [] |].
    rewrite kochRefine_cons. destruct (kochPieces_head q q') as (tl & ->).
    now eexists. }
  destruct Hhead as (tl & Htl). rewrite Htl in IH |- *.
  cbn [app evenlySpaced]. tauto.
Qed.

Lemma evenlySpaced_at (D : R) (points : list (R * R)) (i : nat) :
  evenlySpaced D points -> (S i < length points)%nat ->
  sqDist (pointAt points i) (pointAt points (S i)) = D.
Proof.
  revert i. induction points as [| p rest IH]; intros i Hsp Hi;
    [simpl in Hi; lia |].
  destruct rest as [| q rest]; [simpl in Hi; lia |].
  destruct Hsp as [Hpq Hrest].
  destruct i as [| i]; [exact Hpq |].
  rewrite !pointAt_cons. apply IH; [exact Hrest | simpl in Hi |- *; lia].
Qed.

(** The state of the outer loop after [depth] passes. *)
Lemma generateKochPoints_S (depth : nat) :
  generateKochPoints (S depth) = kochRefine (generateKochPoints depth).
Proof.
  unfold generateKochPoints. rewrite seq_S, fold_left_app. reflexivity.
Qed.

Lemma generateKochPoints_shape (depth : nat) :
  let points := generateKochPoints depth in
  length points = (4 ^ depth + 1)%nat
  /\ pointAt points 0 = (20, 180)
  /\ pointAt points (length points - 1) = (280, 180)
  /\ evenlySpaced ((260 / 3 ^ depth) ^ 2) points.
Proof.
  induction depth as [| depth IH].
  - cbv zeta. unfold generateKochPoints. cbn [seq fold_left].
    repeat split. unfold sqDist. cbn [fst snd]. simpl. field.
  - cbv zeta in IH |- *. rewrite generateKochPoints_S.
    destruct IH as (Hlen & Hfirst & Hlast & Hsp).
    destruct (generateKochPoints depth) as [| p rest] eqn:Hpts;
      [simpl in Hlen; lia |].
    split; [| split; [| split]].
    + rewrite kochRefine_length. cbn [length] in Hlen.
      rewrite Nat.pow_succ_r'. lia.
    + rewrite kochRefine_first. exact Hfirst.
    + rewrite kochRefine_last. exact Hlast.
    + apply kochRefine_spacing in Hsp.
      replace ((260 / 3 ^ S depth) ^ 2) with ((260 / 3 ^ depth) ^ 2 / 9);
        [exact Hsp |].
      assert (Hpow : 3 ^ depth <> 0) by (apply pow_nonzero; lra).
      simpl. field. exact Hpow.
Qed.

End Koch.

(** X22. [generateKochPoints(depth)] returns a polyline of [4^depth]
    segments from (20, 180) to (280, 180), every segment of length
    [260 / 3^depth]: each pass replaces a segment by four of a third of its
    length and keeps the two end points. *)
Theorem koch_polyline_structure (depth : nat) :
  let points := generateKochPoints depth in
  length points = (4 ^ depth + 1)%nat
  /\ pointAt points 0 = (20, 180)
  /\ pointAt points (4 ^ depth) = (280, 180)
  /\ (forall i, (i < 4 ^ depth)%nat ->
                sqDist (pointAt points i) (pointAt points (S i))
                = (260 / 3 ^ depth) ^ 2).
Proof.
  intros points.
  destruct (generateKochPoints_shape depth) as (Hlen & Hfirst & Hlast & Hsp).
  fold points in Hlen, Hfirst, Hlast, Hsp.
  split; [exact Hlen | split; [exact Hfirst | split]].
  - rewrite Hlen in Hlast.
    now replace (4 ^ depth + 1 - 1)%nat with (4 ^ depth)%nat in Hlast by lia.
  - intros i Hi. apply evenlySpaced_at; [exact Hsp | lia].
Qed.

(** ** Direction of the divergence *)

Section Direction.

Lemma getTrajectories_lle (trajectoryType : string) (time : R) :
  lle (getTrajectories trajectoryType time)
  = if String.eqb trajectoryType "chaotic" then Num (9 / 10)
    else if String.eqb trajectoryType "periodic" then Num 0
    else Num (- (1 / 2)).
Proof.
  unfold getTrajectories. rewrite time_over_ten. unfold rawSeparation.
  destruct (String.eqb trajectoryType "chaotic"); [reflexivity |].
  destruct (String.eqb trajectoryType "periodic"); reflexivity.
Qed.

Lemma exp_monotone (x y : R) : x <= y -> exp x <= exp y.
Proof.
  intros [Hlt | ->]; [left; now apply exp_increasing | lra].
Qed.

Lemma analyticSeparation_pos (trajectoryType : string) (t : R) :
  0 < analyticSeparation trajectoryType t.
Proof.
  unfold analyticSeparation, initialSeparation.
  destruct (String.eqb trajectoryType "chaotic");
    [| destruct (String.eqb trajectoryType "periodic")].
  - pose proof (exp_pos (9 / 10 * t)). nra.
  - pose proof (SIN_bound t). lra.
  - pose proof (exp_pos (- (1 / 2) * t)). nra.
Qed.

Lemma exp_minus_5 : / 243 <= exp (- 5).
Proof.
  set (a := exp (- 1)).
  assert (Ha : / 3 <= a).
  { unfold a. replace (-1) with (Ropp 1) by lra. rewrite exp_Ropp.
    pose proof exp_le_3. pose proof (exp_pos 1).
    apply Rinv_le_contravar; lra. }
  assert (H5 : exp (- 5) = a * (a * (a * (a * a)))).
  { unfold a. rewrite <- !exp_plus. f_equal. lra. }
  rewrite H5.
  assert (H2 : / 9 <= a * a) by nra.
  assert (H3 : / 27 <= a * (a * a)) by nra.
  assert (H4 : / 81 <= a * (a * (a * a))) by nra.
  nra.
Qed.

(** Over the first ten units of scaled time the curve stays well above 0. *)
Lemma analyticSeparation_lower (trajectoryType : string) (t : R) :
  0 <= t <= 10 -> / 24300 <= analyticSeparation trajectoryType t.
Proof.
  intros Ht. unfold analyticSeparation, initialSeparation.
  destruct (String.eqb trajectoryType "chaotic");
    [| destruct (String.eqb trajectoryType "periodic")].
  - pose proof (exp_monotone 0 (9 / 10 * t) ltac:(lra)) as H.
    rewrite exp_0 in H. lra.
  - pose proof (SIN_bound t). lra.
  - pose proof (exp_monotone (- 5) (- (1 / 2) * t) ltac:(lra)) as H.
    pose proof exp_minus_5. lra.
Qed.

End Direction.

(** X23. Over the time range of the demonstration, 0 to [maxTime], the
    separation shown is a number between 1/24300 and 2, and the sign of the
    exponent returned with it gives its direction: with a positive exponent
    the separation never decreases as time goes on, with a negative
    exponent it never increases, and with exponent 0 it stays between half
    and one and a half times the initial separation. *)
Theorem separation_follows_exponent_sign
        (trajectoryType : string) (time1 time2 : R) :
  0 <= time1 -> time1 <= time2 -> time2 <= maxTime ->
  exists d1 d2 l,
    separation (getTrajectories trajectoryType time1) = Num d1
    /\ separation (getTrajectories trajectoryType time2) = Num d2
    /\ lle (getTrajectories trajectoryType time1) = Num l
    /\ lle (getTrajectories trajectoryType time2) = Num l
    /\ / 24300 <= d1 <= 2 /\ / 24300 <= d2 <= 2
    /\ (0 < l -> d1 <= d2)
    /\ (l < 0 -> d2 <= d1)
    /\ (l = 0 -> initialSeparation / 2 <= d1 <= 3 * initialSeparation / 2).
Proof.
  intros H0 Ht Hmax. unfold maxTime in Hmax.
  rewrite !getTrajectories_clamped, !getTrajectories_lle.
  assert (Hrange : forall time, 0 <= time <= 100 ->
            / 24300 <= Rmin (analyticSeparation trajectoryType (time / 10)) 2 <= 2).
  { intros time Htime.
    pose proof (analyticSeparation_lower trajectoryType (time / 10)
                  ltac:(lra)).
    split; [apply Rmin_glb; lra | apply Rmin_r]. }
  do 2 eexists.
  exists (if String.eqb trajectoryType "chaotic" then 9 / 10
          else if String.eqb trajectoryType "periodic" then 0
               else - (1 / 2)).
  split; [reflexivity | split; [reflexivity |]].
  split; [now repeat destruct (String.eqb _ _) |].
  split; [now repeat destruct (String.eqb _ _) |].
  split; [apply Hrange; lra | split; [apply Hrange; lra |]].
  unfold analyticSeparation, initialSeparation.
  destruct (String.eqb trajectoryType "chaotic");
    [| destruct (String.eqb trajectoryType "periodic")].
  - split; [| split]; try (intros; lra). intros _.
    apply Rle_min_compat_r. apply Rmult_le_compat_l; [lra |].
    apply exp_monotone. lra.
  - split; [| split]; try (intros; lra). intros _.
    pose proof (SIN_bound (time1 / 10)).
    rewrite Rmin_left by lra. lra.
  - split; [| split]; try (intros; lra). intros _.
    apply Rle_min_compat_r. apply Rmult_le_compat_l; [lra |].
    apply exp_monotone. lra.
Qed.

(** Witness of X23: the expanding regime at times 10 and 20. *)
Lemma separation_follows_exponent_sign_witness :
  exists d1 d2 l,
    separation (getTrajectories "chaotic" 10) = Num d1
    /\ separation (getTrajectories "chaotic" 20) = Num d2
    /\ lle (getTrajectories "chaotic" 10) = Num l
    /\ lle (getTrajectories "chaotic" 20) = Num l
    /\ / 24300 <= d1 <= 2 /\ / 24300 <= d2 <= 2
    /\ (0 < l -> d1 <= d2)
    /\ (l < 0 -> d2 <= d1)
    /\ (l = 0 -> initialSeparation / 2 <= d1 <= 3 * initialSeparation / 2).
Proof.
  apply (separation_follows_exponent_sign "chaotic" 10 20);
    unfold maxTime; lra.
Defined.

(** ** Test signals *)

Section Signals.

Lemma nextSeed_range (seed : Z) : (0 <= nextSeed seed <= 2147483647)%Z.
Proof.
  unfold nextSeed. change 2147483647%Z with (Z.ones 31).
  rewrite Z.land_ones by lia.
  match goal with
  | |- (0 <= ?a mod _ <= _)%Z =>
      pose proof (Z.mod_pos_bound a (2 ^ 31) ltac:(lia)) as H
  end.
  change (Z.ones 31) with (2 ^ 31 - 1)%Z. lia.
Qed.

(** [random()] returns a number between 0 and 1. *)
Lemma random_unit (seed : Z) : 0 <= snd (random seed) <= 1.
Proof.
  unfold random. cbn [snd].
  pose proof (nextSeed_range seed) as [H0 H1].
  apply IZR_le in H0, H1.
  split.
  - apply Rmult_le_pos; [exact H0 |]. left. apply Rinv_0_lt_compat. lra.
  - apply Rmult_le_reg_r with 2147483647; [lra |].
    unfold Rdiv. rewrite Rmult_assoc, Rinv_l by lra. lra.
Qed.

(** A loop that pushes one value per pass and keeps an invariant. *)
Lemma loop_pushes {T : Type} (data : T -> list R) (Inv : T -> Prop)
      (P : R -> Prop) (step : T -> nat -> T) :
  (forall st i, Inv st ->
                Inv (step st i)
                /\ exists v, data (step st i) = data st ++ [v] /\ P v) ->
  forall (idxs : list nat) (st : T),
    Inv st ->
    exists vs, data (fold_left step idxs st) = data st ++ vs
               /\ length vs = length idxs
               /\ (forall v, In v vs -> P v).
Proof.
  intros Hstep. induction idxs as [| i idxs IH]; intros st Hinv.
  - exists []. cbn [fold_left]. rewrite app_nil_r.
    split; [reflexivity | split; [reflexivity | intros v []]].
  - cbn [fold_left]. destruct (Hstep st i Hinv) as (Hinv' & v & Hdata & Hv).
    destruct (IH (step st i) Hinv') as (vs & Hfold & Hlen & Hall).
    exists (v :: vs). rewrite Hfold, Hdata, <- app_assoc.
    split; [reflexivity | split; [cbn [length]; now rewrite Hlen |]].
    intros w [<- | Hw]; [exact Hv | now apply Hall].
Qed.

Lemma chaotic_values (len : nat) :
  let data := snd (fold_left chaoticStep (seq 0 len) (1 / 10, [])) in
  length data = len /\ (forall v, In v data -> -1 <= v <= 1).
Proof.
  cbv zeta.
  destruct (loop_pushes (@snd R (list R)) (fun st => 0 <= fst st <= 1)
                        (fun v => -1 <= v <= 1) chaoticStep)
    with (idxs := seq 0 len) (st := (1 / 10, @nil R))
    as (vs & Hdata & Hlen & Hall).
  - intros [x data] i Hx. cbn [fst] in Hx. unfold chaoticStep. cbn [fst snd].
    assert (Hx' : 0 <= 39 / 10 * x * (1 - x) <= 1).
    { pose proof (Rle_0_sqr (x - 1 / 2)) as Hsq. unfold Rsqr in Hsq.
      split; [| nra].
      apply Rmult_le_pos; [apply Rmult_le_pos |]; lra. }
    split; [exact Hx' |]. eexists. split; [reflexivity | lra].
  - cbn [fst]. lra.
  - cbn [snd] in Hdata. rewrite Hdata. cbn [app].
    split; [now rewrite Hlen, length_seq | exact Hall].
Qed.

Lemma random_values (len : nat) :
  let data := snd (fold_left randomStep (seq 0 len) (54321%Z, [])) in
  length data = len /\ (forall v, In v data -> -1 <= v <= 1).
Proof.
  cbv zeta.
  destruct (loop_pushes (@snd Z (list R)) (fun _ => True)
                        (fun v => -1 <= v <= 1) randomStep)
    with (idxs := seq 0 len) (st := (54321%Z, @nil R))
    as (vs & Hdata & Hlen & Hall).
  - intros [seed data] i _. unfold randomStep.
    pose proof (random_unit seed) as Hu.
    destruct (random seed) as [seed' u]. cbn [snd] in Hu |- *.
    split; [exact I |]. eexists. split; [reflexivity | lra].
  - exact I.
  - cbn [snd] in Hdata. rewrite Hdata. cbn [app].
    split; [now rewrite Hlen, length_seq | exact Hall].
Qed.

Lemma laminar_values (len : nat) :
  let data := snd (fold_left laminarStep (seq 0 len) (12345%Z, 1 / 2, [])) in
  length data = len
  /\ (forall v, In v data -> - (21 / 20) <= v <= 21 / 20).
Proof.
  cbv zeta.
  destruct (loop_pushes (@snd (Z * R) (list R))
                        (fun st => -1 <= snd (fst st) <= 1)
                        (fun v => - (21 / 20) <= v <= 21 / 20) laminarStep)
    with (idxs := seq 0 len) (st := (12345%Z, 1 / 2, @nil R))
    as (vs & Hdata & Hlen & Hall).
  - intros [[seed value] data] i Hv. cbn [fst snd] in Hv.
    unfold laminarStep.
    destruct (random seed) as [seed1 u1].
    assert (Hvalue : exists seed2 value',
               (if Rltb u1 (5 / 100)
                then let (s, u2) := random seed1 in (s, u2 * 2 - 1)
                else (seed1, value)) = (seed2, value')
               /\ -1 <= value' <= 1).
    { destruct (Rltb u1 (5 / 100)).
      - pose proof (random_unit seed1) as Hu.
        destruct (random seed1) as [s u2]. cbn [snd] in Hu.
        do 2 eexists. split; [reflexivity | lra].
      - do 2 eexists. split; [reflexivity | exact Hv]. }
    destruct Hvalue as (seed2 & value' & -> & Hv').
    pose proof (random_unit seed2) as Hu.
    destruct (random seed2) as [seed3 u3]. cbn [fst snd] in Hu |- *.
    split; [exact Hv' |]. eexists. split; [reflexivity | lra].
  - cbn [fst snd]. lra.
  - cbn [snd] in Hdata. rewrite Hdata. cbn [app].
    split; [now rewrite Hlen, length_seq | exact Hall].
Qed.

End Signals.

(** X24. [generateSignal(type, length)] returns exactly [length] samples
    for every type, known or not, and every sample lies between -1.05 and
    1.05; for every type but the laminar one, between -1 and 1.  The
    logistic map never leaves the unit interval, and the masked seeds keep
    [random()] between 0 and 1. *)
Theorem generateSignal_length_and_range (type : string) (len : nat) :
  length (generateSignal type len) = len
  /\ (forall v, In v (generateSignal type len) ->
                - (21 / 20) <= v <= 21 / 20
                /\ (type <> "laminar"%string -> -1 <= v <= 1)).
Proof.
  unfold generateSignal.
  destruct (String.eqb type "periodic");
    [| destruct (String.eqb type "chaotic");
       [| destruct (String.eqb type "drift");
          [| destruct (String.eqb_spec type "laminar");
             [| destruct (String.eqb type "random")]]]].
  - split; [now rewrite length_map, length_seq |].
    intros v Hv. apply in_map_iff in Hv. destruct Hv as (i & <- & _).
    pose proof (SIN_bound (INR i * (3 / 10))). split; [| intros _]; lra.
  - destruct (chaotic_values len) as [Hlen Hall]. split; [exact Hlen |].
    intros v Hv. specialize (Hall v Hv). split; [| intros _]; lra.
  - split; [now rewrite length_map, length_seq |].
    intros v Hv. apply in_map_iff in Hv. destruct Hv as (i & <- & _).
    pose proof (SIN_bound (INR i * (25 / 100))).
    pose proof (SIN_bound (INR i * (2 / 100))).
    split; [| intros _]; lra.
  - destruct (laminar_values len) as [Hlen Hall]. split; [exact Hlen |].
    intros v Hv. specialize (Hall v Hv). split; [lra | congruence].
  - destruct (random_values len) as [Hlen Hall]. split; [exact Hlen |].
    intros v Hv. specialize (Hall v Hv). split; [| intros _]; lra.
  - split; [now rewrite length_map, length_seq |].
    intros v Hv. apply in_map_iff in Hv. destruct Hv as (i & <- & _).
    pose proof (SIN_bound (INR i * (3 / 10))). split; [| intros _]; lra.
Qed.

(** ** Hovering *)

Section Hover.

Lemma cellSize_positive (n : nat) :
  (1 <= n)%nat ->
  exists cs, cellSize n = Num cs /\ 0 < cs <= 4 /\ INR n * cs <= 240.
Proof.
  intros Hn. assert (Hpos : 0 < INR n) by (apply lt_0_INR; lia).
  unfold cellSize, ofNat. rewrite ndiv_pos, nmin_Rmin by lra.
  eexists. split; [reflexivity |].
  assert (Hq : 0 < 240 / INR n) by (apply Rdiv_lt_0_compat; lra).
  split; [split; [apply Rmin_glb_lt; lra | apply Rmin_l] |].
  apply Rle_trans with (INR n * (240 / INR n)).
  - apply Rmult_le_compat_l; [lra | apply Rmin_r].
  - right. field. lra.
Qed.

(** The floor of a quotient names the interval that holds the dividend. *)
Lemma floor_quotient (u cs : R) (k : Z) :
  0 < cs ->
  (Int_part (u / cs) = k <-> IZR k * cs <= u < (IZR k + 1) * cs).
Proof.
  intros Hcs.
  assert (Hu : u = u / cs * cs) by (field; lra).
  split.
  - intros <-. pose proof (floor_bounds (u / cs)) as [H1 H2].
    split.
    + rewrite Hu at 2. apply Rmult_le_compat_r; lra.
    + rewrite Hu at 1. apply Rmult_lt_compat_r; lra.
  - intros [H1 H2]. apply floor_unique. split.
    + apply Rmult_le_reg_r with cs; [exact Hcs |]. now rewrite <- Hu.
    + apply Rmult_lt_reg_r with cs; [exact Hcs |]. now rewrite <- Hu.
Qed.

End Hover.

(** X25. The hover handler reports the cell under the pointer.  For a
    plot of [n >= 1] rows the cell size is a positive number of at most 4
    and the plot is at most 240 wide; the handler sets the hovered point to
    [(i, j)] exactly when [i] and [j] are inside the matrix and the pointer
    lies in the square where cell [(i, j)] is drawn. *)
Theorem hover_reports_cell_under_pointer (n i j : nat) (x y : R) :
  (1 <= n)%nat ->
  exists cs,
    cellSize n = Num cs
    /\ 0 < cs <= 4
    /\ INR n * cs <= 240
    /\ (hoveredCell n (Num x) (Num y) = Some (ofNat i, ofNat j)
        <-> (i < n)%nat /\ (j < n)%nat /\ underCell cs i j x y).
Proof.
  intros Hn. destruct (cellSize_positive n Hn) as (cs & Hcs & Hrange & Hwide).
  exists cs. split; [exact Hcs | split; [exact Hrange | split; [exact Hwide |]]].
  unfold hoveredCell. rewrite Hcs. cbv zeta.
  unfold nsub. cbn [nneg nadd]. rewrite !ndiv_pos by lra. cbn [nfloor].
  set (J := Int_part ((x + - (20)) / cs)).
  set (I := Int_part ((y + - (20)) / cs)).
  assert (HI : Int_part ((y + - (20)) / cs) = I) by reflexivity.
  assert (HJ : Int_part ((x + - (20)) / cs) = J) by reflexivity.
  apply floor_quotient in HI, HJ; try lra.
  unfold nge, ofNat. cbn [nle nlt]. rewrite (INR_IZR_INZ n).
  unfold underCell. rewrite !(INR_IZR_INZ i), !(INR_IZR_INZ j).
  split.
  - destruct (Rleb 0 (IZR I) && Rltb (IZR I) (IZR (Z.of_nat n))
              && Rleb 0 (IZR J) && Rltb (IZR J) (IZR (Z.of_nat n))) eqn:Hg;
      [| discriminate].
    intros [= Hi Hj]. apply eq_IZR in Hi, Hj.
    rewrite !andb_true_iff, !Rleb_true, !Rltb_true in Hg.
    destruct Hg as [[[H1 H2] H3] H4].
    apply lt_IZR in H2, H4.
    rewrite <- Hi, <- Hj. split; [lia | split; [lia |]]. lra.
  - intros (Hi & Hj & [Hx Hy]).
    assert (EJ : J = Z.of_nat j).
    { apply (proj2 (floor_quotient (x + - (20)) cs (Z.of_nat j) ltac:(lra))).
      lra. }
    assert (EI : I = Z.of_nat i).
    { apply (proj2 (floor_quotient (y + - (20)) cs (Z.of_nat i) ltac:(lra))).
      lra. }
    rewrite EI, EJ.
    assert (Hg : Rleb 0 (IZR (Z.of_nat i))
                 && Rltb (IZR (Z.of_nat i)) (IZR (Z.of_nat n))
                 && Rleb 0 (IZR (Z.of_nat j))
                 && Rltb (IZR (Z.of_nat j)) (IZR (Z.of_nat n)) = true).
    { rewrite !andb_true_iff, !Rleb_true, !Rltb_true.
      repeat split; try (apply IZR_le; lia); apply IZR_lt; lia. }
    now rewrite Hg.
Qed.

(** Witness of X25: a single cell. *)
Lemma hover_reports_cell_under_pointer_witness :
  exists cs,
    cellSize 1 = Num cs
    /\ 0 < cs <= 4
    /\ INR 1 * cs <= 240
    /\ (hoveredCell 1 (Num 21) (Num 21) = Some (ofNat 0, ofNat 0)
        <-> (0 < 1)%nat /\ (0 < 1)%nat /\ underCell cs 0 0 21 21).
Proof.
  apply (hover_reports_cell_under_pointer 1 0 0 21 21). lia.
Defined.

(** ** The filled square and the sampled curve *)

Section SquareCounts.

Variable s : nat.
Hypothesis s_two : (2 <= s)%nat.

(** Stepping by 2 through the square skips no box of side at least 2. *)
Lemma square_indices_cover (v : nat) :
  (64 / s <= v <= 192 / s)%nat ->
  exists a, (a <= 64)%nat /\ ((64 + 2 * a) / s = v)%nat.
Proof.
  intros [Hlo Hhi].
  assert (Hup : (64 < s * (v + 1))%nat).
  { pose proof (Nat.mul_succ_div_gt 64 s ltac:(lia)) as H. nia. }
  assert (Hdown : (s * v <= 192)%nat).
  { pose proof (Nat.Div0.mul_div_le 192 s) as H. nia. }
  assert (Hdiv : forall n, (s * v <= n < s * (v + 1))%nat -> (n / s = v)%nat).
  { intros n [H1 H2]. apply Nat.le_antisymm.
    - assert (n / s < v + 1)%nat
        by (apply Nat.Div0.div_lt_upper_bound; exact H2).
      lia.
    - apply Nat.div_le_lower_bound; [lia | exact H1]. }
  destruct (Nat.le_gt_cases (s * v) 64) as [Hsmall | Hlarge].
  - exists 0%nat. split; [lia |]. apply Hdiv. lia.
  - exists ((s * v - 64 + 1) / 2)%nat.
    pose proof (Nat.div_mod_eq (s * v - 64 + 1) 2) as Hmod.
    pose proof (Nat.mod_upper_bound (s * v - 64 + 1) 2 ltac:(lia)) as Hlt.
    split; [lia |]. apply Hdiv. lia.
Qed.

Hypothesis inside : (192 / s < 256 / s)%nat.

Local Abbreviation lo := (64 / s)%nat.
Local Abbreviation width := (192 / s - 64 / s + 1)%nat.

Lemma square_index_range (a : nat) :
  (a <= 64)%nat -> (lo <= (64 + 2 * a) / s <= 192 / s)%nat.
Proof.
  intros Ha. split; apply Nat.Div0.div_le_mono; lia.
Qed.

Lemma square_boxes (k : num * num) :
  In k (occupiedBoxes "square" (ofNat s)) <->
  exists i j, (i < width)%nat /\ (j < width)%nat
              /\ k = (ofNat (lo + i), ofNat (lo + j)).
Proof.
  assert (Hs : (1 <= s)%nat) by lia.
  assert (Hsz : 0 < INR s) by (apply lt_0_INR; lia).
  assert (Hidx : forall a, boxIndex (INR s) (INR (84 + 2 * a))
                           = Z.of_nat ((64 + 2 * a) / s)).
  { intros a. change (84 + 2 * a)%nat with (20 + (64 + 2 * a))%nat.
    now apply boxIndex_nat. }
  unfold ofNat at 1. rewrite occupiedBoxes_positive by exact Hsz.
  change (samplesOf "square") with squareSamples.
  split.
  - intros (x & y & Hin & _ & _ & ->).
    unfold squareSamples in Hin. apply in_flat_map in Hin.
    destruct Hin as (a & Ha & Hin). apply in_map_iff in Hin.
    destruct Hin as (b & Heq & Hb). unfold ofNat in Heq.
    assert (Ex : x = INR (84 + 2 * a)) by congruence.
    assert (Ey : y = INR (84 + 2 * b)) by congruence.
    clear Heq. subst x y. apply in_seq in Ha, Hb.
    rewrite !Hidx, keyOf_nat.
    pose proof (square_index_range a ltac:(lia)) as Hra.
    pose proof (square_index_range b ltac:(lia)) as Hrb.
    exists ((64 + 2 * a) / s - lo)%nat, ((64 + 2 * b) / s - lo)%nat.
    revert Hra Hrb.
    generalize ((64 + 2 * a) / s)%nat, ((64 + 2 * b) / s)%nat,
      (64 / s)%nat, (192 / s)%nat.
    intros qa qb l h Hra Hrb.
    split; [lia | split; [lia |]].
    f_equal; f_equal; lia.
  - intros (i & j & Hi & Hj & ->).
    pose proof (Nat.Div0.div_le_mono 64 192 s ltac:(lia)) as Hmono.
    assert (Hri : (lo <= lo + i <= 192 / s)%nat).
    { revert Hi Hmono. generalize (64 / s)%nat, (192 / s)%nat.
      intros l h Hi Hmono. lia. }
    assert (Hrj : (lo <= lo + j <= 192 / s)%nat).
    { revert Hj Hmono. generalize (64 / s)%nat, (192 / s)%nat.
      intros l h Hj Hmono. lia. }
    destruct (square_indices_cover (lo + i) Hri) as (a & Ha & Hva).
    destruct (square_indices_cover (lo + j) Hrj) as (b & Hb & Hvb).
    exists (INR (84 + 2 * a)), (INR (84 + 2 * b)).
    rewrite !Hidx, Hva, Hvb, gridSide_nat, keyOf_nat by exact Hs.
    assert (Hgi : (0 <= Z.of_nat (lo + i) < Z.of_nat (256 / s))%Z).
    { revert inside Hri. generalize (lo + i)%nat, (192 / s)%nat, (256 / s)%nat.
      intros v h g Hg Hv. lia. }
    assert (Hgj : (0 <= Z.of_nat (lo + j) < Z.of_nat (256 / s))%Z).
    { revert inside Hrj. generalize (lo + j)%nat, (192 / s)%nat, (256 / s)%nat.
      intros v h g Hg Hv. lia. }
    split; [| split; [exact Hgi | split; [exact Hgj | reflexivity]]].
    unfold squareSamples. apply in_flat_map. exists a.
    split; [apply in_seq; lia |].
    apply in_map_iff. exists b. split; [reflexivity | apply in_seq; lia].
Qed.

Lemma square_count :
  countBoxes "square" (ofNat s) = (width * width)%nat.
Proof.
  unfold countBoxes. rewrite <- cellList_length_full.
  rewrite <- (length_map
                (fun ij : nat * nat =>
                   (ofNat (lo + fst ij), ofNat (lo + snd ij)))).
  apply same_members_length.
  - apply occupiedBoxes_NoDup.
  - apply NoDup_map_injective.
    + intros [a b] [c d]. cbn [fst snd]. intros [= H1 H2].
      apply INR_eq in H1, H2. f_equal; lia.
    + apply NoDup_cellList. intros _. apply seq_NoDup.
  - intros k. rewrite square_boxes, in_map_iff. split.
    + intros (i & j & Hi & Hj & ->). exists (i, j).
      split; [reflexivity |]. apply In_cellList.
      split; [exact Hi | apply in_seq; lia].
    + intros ([i j] & <- & Hin). apply In_cellList in Hin.
      destruct Hin as [Hi Hj]. apply in_seq in Hj.
      exists i, j. split; [exact Hi | split; [lia | reflexivity]].
Qed.

End SquareCounts.

(** X26. For the filled square, sampled every 2 units from 84 to 212, the
    boxes counted at a whole size [s >= 2] whose grid reaches past the
    square form a full block: [floor(192/s) - floor(64/s) + 1] boxes along
    each axis.  At the six sizes of [calculateFD] that is [128/s + 1] along
    each axis, one more than the [128/s] the side of the square spans. *)
Theorem square_counts (s : nat) :
  (2 <= s)%nat -> (192 / s < 256 / s)%nat ->
  countBoxes "square" (ofNat s)
  = ((192 / s - 64 / s + 1) * (192 / s - 64 / s + 1))%nat
  /\ (In s sizes ->
      countBoxes "square" (ofNat s) = ((128 / s + 1) * (128 / s + 1))%nat).
Proof.
  intros Hs Hin. split; [now apply square_count |].
  intros Hsz. rewrite square_count by assumption.
  unfold sizes in Hsz. simpl in Hsz.
  repeat (destruct Hsz as [<- | Hsz]; [reflexivity |]). contradiction.
Qed.

(** Witness of X26: boxes of side 32. *)
Lemma square_counts_witness :
  countBoxes "square" (ofNat 32)
  = ((192 / 32 - 64 / 32 + 1) * (192 / 32 - 64 / 32 + 1))%nat
  /\ (In 32%nat sizes ->
      countBoxes "square" (ofNat 32)
      = ((128 / 32 + 1) * (128 / 32 + 1))%nat).
Proof.
  apply (square_counts 32); simpl; lia.
Defined.

(** *** Sampling the curve *)

Section KochSampling.

Lemma kochPoints_shape :
  length kochPoints = 257%nat
  /\ evenlySpaced ((260 / 81) ^ 2) kochPoints.
Proof.
  destruct (generateKochPoints_shape 4) as (Hlen & _ & _ & Hsp).
  split; [exact Hlen |].
  replace ((260 / 81) ^ 2) with ((260 / 3 ^ 4) ^ 2) by (simpl; field).
  exact Hsp.
Qed.

Lemma ceil_of_half_segment : ceilZ (260 / 81 / 2) = 2%Z.
Proof.
  unfold ceilZ. rewrite (floor_unique (- (260 / 81 / 2)) (-2)%Z); [reflexivity |].
  lra.
Qed.

Lemma kochSteps_of_segment (a b : R * R) :
  sqDist a b = (260 / 81) ^ 2 -> kochSteps a b = 2%nat.
Proof.
  destruct a as [x1 y1], b as [x2 y2]. unfold sqDist, kochSteps.
  cbn [fst snd]. intros ->.
  rewrite sqrt_pow2 by lra. now rewrite ceil_of_half_segment.
Qed.

Lemma list_sum_constant {A : Type} (f : A -> nat) (c : nat) (l : list A) :
  (forall a, In a l -> f a = c) -> list_sum (map f l) = (c * length l)%nat.
Proof.
  induction l as [| a l IH]; intros H; simpl; [lia |].
  rewrite (H a (or_introl eq_refl)), IH by (intros b Hb; apply H; now right).
  lia.
Qed.

End KochSampling.

(** X27. In the Koch branch of [countBoxes] every one of the 256 segments
    of the curve, which is 260/81 long, is walked in 2 steps: it is sampled
    at its two ends and at its midpoint, 768 samples in all. *)
Theorem koch_segments_sampled_three_times (i : nat) :
  (i < 256)%nat ->
  let a := pointAt kochPoints i in
  let b := pointAt kochPoints (S i) in
  kochSteps a b = 2%nat
  /\ segmentSamples a b
     = [(Num (fst a), Num (snd a));
        (Num ((fst a + fst b) / 2), Num ((snd a + snd b) / 2));
        (Num (fst b), Num (snd b))]
  /\ length (kochSamples kochPoints) = 768%nat.
Proof.
  intros Hi a b. destruct kochPoints_shape as [Hlen Hsp].
  assert (Hsteps : forall k, (k < 256)%nat ->
                     kochSteps (pointAt kochPoints k) (pointAt kochPoints (S k))
                     = 2%nat).
  { intros k Hk. apply kochSteps_of_segment.
    apply evenlySpaced_at; [exact Hsp | lia]. }
  split; [now apply Hsteps | split].
  - unfold segmentSamples. specialize (Hsteps i Hi). fold a b in Hsteps.
    destruct a as [x1 y1], b as [x2 y2]. rewrite Hsteps.
    cbn [seq map fst snd].
    assert (Hpoint : forall t u v w : R, t = v -> u = w ->
                                         (Num t, Num u) = (Num v, Num w))
      by (intros; subst; reflexivity).
    repeat (apply f_equal2; [apply Hpoint; simpl; field |]).
    reflexivity.
  - unfold kochSamples. rewrite length_flat_map, Hlen.
    change (257 - 1)%nat with 256%nat.
    rewrite (list_sum_constant _ 3%nat).
    + now rewrite length_seq.
    + intros k Hk. apply in_seq in Hk. unfold segmentSamples.
      specialize (Hsteps k ltac:(lia)).
      destruct (pointAt kochPoints k) as [x1 y1],
               (pointAt kochPoints (S k)) as [x2 y2].
      now rewrite length_map, length_seq, Hsteps.
Qed.

(** Witness of X27: the first segment. *)
Lemma koch_segments_sampled_three_times_witness :
  let a := pointAt kochPoints 0 in
  let b := pointAt kochPoints 1 in
  kochSteps a b = 2%nat
  /\ segmentSamples a b
     = [(Num (fst a), Num (snd a));
        (Num ((fst a + fst b) / 2), Num ((snd a + snd b) / 2));
        (Num (fst b), Num (snd b))]
  /\ length (kochSamples kochPoints) = 768%nat.
Proof.
  apply (koch_segments_sampled_three_times 0). lia.
Defined.
